(** * The simulation core of the platform game (snake.js)

    A shallow embedding of [Vector], [Level], [Player], [Lava] and [Coin]
    from [src/snake.js], and the properties of the level's state machine,
    obstacle queries, actor motion and the sub-stepping driver.

    JavaScript numbers are IEEE 754 binary64 values.  They are modelled
    with the Standard Library's executable specification of binary
    floating point ([spec_float], precision 53, exponent bound 1024), so
    that [+], [-], [*], [<] round and compare as they do in the program.

    JavaScript objects have identity and are mutated in place.  Vectors
    and actors therefore live in two stores and are named by their index:
    [this.pos = newPos] changes a field of an actor, [this.speed.x = 0]
    changes the content of a stored vector. *)

From Stdlib Require Import ZArith Ascii Floats.SpecFloat.
From stdpp Require Import base option list strings gmap.

Local Open Scope Z_scope.

(** ** Numbers *)

Definition num := spec_float.

Definition prec : Z := 53.
Definition emax : Z := 1024.

Definition fadd : num -> num -> num := SFadd prec emax.
Definition fsub : num -> num -> num := SFsub prec emax.
Definition fmul : num -> num -> num := SFmul prec emax.
Definition fdiv : num -> num -> num := SFdiv prec emax.
Definition fneg : num -> num := SFopp.

(** [a < b] and [a > b]; both are false when an operand is NaN. *)
Definition flt (a b : num) : bool := SFltb a b.
Definition fgt (a b : num) : bool := SFltb b a.

(** An integer literal or an array index or length used as a number. *)
Definition of_Z (z : Z) : num := binary_normalize prec emax z 0 false.
Definition of_nat (n : nat) : num := of_Z (Z.of_nat n).

(** The decimal literal [n/d], rounded to the nearest double as the
    JavaScript parser does. *)
Definition decimal (n d : Z) : num := fdiv (of_Z n) (of_Z d).

Definition zero : num := S754_zero false.

(** Truthiness of a number: [0], [-0] and [NaN] are falsy. *)
Definition truthy_num (a : num) : bool :=
  match a with
  | S754_zero _ | S754_nan => false
  | _ => true
  end.

(** The results of [Math.floor] and [Math.ceil]: an integer-valued double
    (every such double is an integer; the sign of a zero result takes no
    part in [<], [>] or array indexing), an infinity, or NaN. *)
Inductive jsint : Type :=
  | JNaN
  | JInf (negative : bool)
  | JInt (z : Z).

(** [Z.shiftl z e] is [z * 2^e] for [0 <= e] and the floor of
    [z / 2^(-e)] for [e < 0]. *)
Definition Math_floor (a : num) : jsint :=
  match a with
  | S754_nan => JNaN
  | S754_infinity s => JInf s
  | S754_zero _ => JInt 0
  | S754_finite s m e => JInt (Z.shiftl (cond_Zopp s (Zpos m)) e)
  end.

Definition Math_ceil (a : num) : jsint :=
  match a with
  | S754_nan => JNaN
  | S754_infinity s => JInf s
  | S754_zero _ => JInt 0
  | S754_finite s m e => JInt (- Z.shiftl (cond_Zopp (negb s) (Zpos m)) e)
  end.

(** [a < n] and [a > n] for a floored number [a] and an integer [n]. *)
Definition jlt (a : jsint) (n : Z) : bool :=
  match a with
  | JNaN => false
  | JInf s => s
  | JInt z => z <? n
  end.

Definition jgt (a : jsint) (n : Z) : bool :=
  match a with
  | JNaN => false
  | JInf s => negb s
  | JInt z => n <? z
  end.

(** [Math.min(a, b)]: NaN if either is NaN, and [-0] below [+0]. *)
Definition Math_min (a b : num) : num :=
  match a, b with
  | S754_nan, _ | _, S754_nan => S754_nan
  | _, _ =>
      if flt a b then a
      else if flt b a then b
      else match a with S754_zero true => a | _ => b end
  end.

(** The constants of the program. *)
Definition maxStep : num := Eval vm_compute in decimal 5 100.
Definition playerXSpeed : num := Eval vm_compute in of_Z 7.
Definition gravity : num := Eval vm_compute in of_Z 30.
Definition jumpSpeed : num := Eval vm_compute in of_Z 17.
Definition wobbleSpeed : num := Eval vm_compute in of_Z 8.
Definition wobbleDist : num := Eval vm_compute in decimal 7 100.
Definition Math_PI : num :=
  Eval vm_compute in decimal 3141592653589793 1000000000000000.
Definition one : num := Eval vm_compute in of_Z 1.

(** ** Objects *)

(** [function Vector(x, y) { this.x = x; this.y = y; }] *)
Record Vector : Type := mkVector { x : num; y : num }.

(** The values computed by [plus] and [times]. *)
Definition vplus (a b : Vector) : Vector :=
  mkVector (fadd (x a) (x b)) (fadd (y a) (y b)).

Definition vtimes (a : Vector) (factor : num) : Vector :=
  mkVector (fmul (x a) factor) (fmul (y a) factor).

(** A reference to a stored vector, and to a stored actor. *)
Definition loc := nat.
Definition ref := nat.

(** The three actor classes with the fields their constructors set.
    All fields hold references to vectors, except [wobble].  [Lava] sets
    [speed] for the characters [=], [|] and [v] only, and [repeatPos]
    for [v] only. *)
Inductive Actor : Type :=
  | Player (pos size speed : loc)
  | Lava (pos size : loc) (speed repeatPos : option loc)
  | Coin (basePos pos size : loc) (wobble : num).

(** [actor.type], set on each prototype. *)
Definition actor_type (a : Actor) : string :=
  match a with
  | Player _ _ _ => "player"
  | Lava _ _ _ _ => "lava"
  | Coin _ _ _ _ => "coin"
  end.

Definition actor_pos (a : Actor) : loc :=
  match a with
  | Player p _ _ | Lava p _ _ _ | Coin _ p _ _ => p
  end.

Definition actor_size (a : Actor) : loc :=
  match a with
  | Player _ sz _ | Lava _ sz _ _ | Coin _ _ sz _ => sz
  end.

(** A square of the background: [null], ["wall"] or ["lava"]. *)
Inductive Field : Type := wall | lava.

Definition field_name (f : Field) : string :=
  match f with
  | wall => "wall"
  | lava => "lava"
  end.

(** [level.status]: [null], ["won"] or ["lost"]. *)
Inductive Status : Type := won | lost.

#[global] Instance Field_eq_dec : EqDecision Field.
Proof. solve_decision. Defined.

#[global] Instance Status_eq_dec : EqDecision Status.
Proof. solve_decision. Defined.

Record Level : Type := mkLevel {
  width : nat;
  height : nat;
  grid : list (list (option Field));
  actors : list ref;
  player : option ref;
  status : option Status;
  finishDelay : option num
}.

(** The arrow keys that are held down. *)
Record Keys : Type := mkKeys { left : bool; up : bool; right : bool }.

(** The state of the program: the stored vectors, the stored actors, the
    level, and how many times [Math.random] has been called. *)
Record State : Type := mkState {
  vecs : list Vector;
  objs : list Actor;
  level : Level;
  nrand : nat
}.

Definition set_vecs (f : list Vector -> list Vector) (s : State) : State :=
  mkState (f (vecs s)) (objs s) (level s) (nrand s).

Definition set_objs (f : list Actor -> list Actor) (s : State) : State :=
  mkState (vecs s) (f (objs s)) (level s) (nrand s).

Definition set_level (f : Level -> Level) (s : State) : State :=
  mkState (vecs s) (objs s) (f (level s)) (nrand s).

Definition set_actors (l : list ref) (lv : Level) : Level :=
  mkLevel (width lv) (height lv) (grid lv) l (player lv) (status lv)
    (finishDelay lv).

Definition set_finish (st : option Status) (d : option num) (lv : Level)
  : Level :=
  mkLevel (width lv) (height lv) (grid lv) (actors lv) (player lv) st d.

(** ** Computations

    A computation reads and writes the state and may stop with an error:
    a JavaScript [TypeError], a reference that names nothing in the store
    (which no JavaScript program can hold), or a loop that has used up
    its fuel. *)

Inductive Err : Type := TypeError | BadRef | OutOfFuel.

Definition M (A : Type) : Type := State -> Err + A * State.

#[global] Instance M_ret : MRet M := fun A a s => inr (a, s).

#[global] Instance M_bind : MBind M := fun A B k m s =>
  match m s with
  | inl e => inl e
  | inr (a, s') => k a s'
  end.

Definition throw {A : Type} (e : Err) : M A := fun _ => inl e.
Definition gets {A : Type} (f : State -> A) : M A := fun s => inr (f s, s).
Definition modify (f : State -> State) : M unit := fun s => inr (tt, f s).

Definition lift {A : Type} (e : Err) (o : option A) : M A :=
  match o with
  | Some a => mret a
  | None => throw e
  end.

Definition when (b : bool) (m : M unit) : M unit :=
  if b then m else mret tt.

(** [xs.forEach(f)] on an array that [f] does not change. *)
Fixpoint forEach {A : Type} (f : A -> M unit) (xs : list A) : M unit :=
  match xs with
  | [] => mret tt
  | a :: xs' => f a;; forEach f xs'
  end.

(** Reading, creating and overwriting stored vectors. *)
Definition read (l : loc) : M Vector :=
  v ← gets (fun s => vecs s !! l); lift BadRef v.

Definition alloc (v : Vector) : M loc :=
  l ← gets (fun s => length (vecs s));
  modify (set_vecs (fun h => h ++ [v]));;
  mret l.

Definition write (l : loc) (v : Vector) : M unit :=
  _ ← read l; modify (set_vecs (fun h => <[l := v]> h)).

Definition this (r : ref) : M Actor :=
  a ← gets (fun s => objs s !! r); lift BadRef a.

Definition set_this (r : ref) (a : Actor) : M unit :=
  _ ← this r; modify (set_objs (fun h => <[r := a]> h)).

(** [new Vector(x, y)], [this.plus(other)], [this.times(factor)] *)
Definition new_Vector (a b : num) : M loc := alloc (mkVector a b).

Definition Vector_plus (self other : loc) : M loc :=
  a ← read self; b ← read other; new_Vector (fadd (x a) (x b)) (fadd (y a) (y b)).

Definition Vector_times (self : loc) (factor : num) : M loc :=
  a ← read self; new_Vector (fmul (x a) factor) (fmul (y a) factor).

(** Fields of an actor.  Where [this.speed] is undefined, using it raises
    a [TypeError]. *)
Definition get_speed (a : Actor) : M loc :=
  match a with
  | Player _ _ sp | Lava _ _ (Some sp) _ => mret sp
  | Lava _ _ None _ | Coin _ _ _ _ => throw TypeError
  end.

Definition get_repeatPos (a : Actor) : option loc :=
  match a with
  | Lava _ _ _ rp => rp
  | _ => None
  end.

Definition with_pos (p : loc) (a : Actor) : Actor :=
  match a with
  | Player _ sz sp => Player p sz sp
  | Lava _ sz sp rp => Lava p sz sp rp
  | Coin bp _ sz w => Coin bp p sz w
  end.

Definition with_speed (sp : loc) (a : Actor) : Actor :=
  match a with
  | Player p sz _ => Player p sz sp
  | Lava p sz _ rp => Lava p sz (Some sp) rp
  | Coin bp p sz w => Coin bp p sz w
  end.

(** [this.pos = p] and [this.speed = sp] *)
Definition set_pos (self : ref) (p : loc) : M unit :=
  a ← this self; set_this self (with_pos p a).

Definition set_speed (self : ref) (sp : loc) : M unit :=
  a ← this self; set_this self (with_speed sp a).

(** [v.x = f(v.x)] and [v.y = f(v.y)] on the stored vector [v] *)
Definition update_x (l : loc) (f : num -> num) : M unit :=
  v ← read l; write l (mkVector (f (x v)) (y v)).

Definition update_y (l : loc) (f : num -> num) : M unit :=
  v ← read l; write l (mkVector (x v) (f (y v))).

(** ** Level *)

(** The inner loop of [obstacleAt]: [n] squares of row [y] from column
    [x0] on.  [this.grid[y][x]] raises a [TypeError] when the grid has no
    row [y], and is undefined, hence skipped, when the row is too short. *)
Fixpoint scan_x (g : list (list (option Field))) (y0 x0 n : nat)
  : Err + option Field :=
  match n with
  | O => inr None
  | S n' =>
      match g !! y0 with
      | None => inl TypeError
      | Some row =>
          match row !! x0 with
          | Some (Some fieldType) => inr (Some fieldType)
          | _ => scan_x g y0 (S x0) n'
          end
      end
  end.

(** The outer loop: [n] rows from row [y0] on. *)
Fixpoint scan_y (g : list (list (option Field))) (y0 n x0 nx : nat)
  : Err + option Field :=
  match n with
  | O => inr None
  | S n' =>
      match scan_x g y0 x0 nx with
      | inr None => scan_y g (S y0) n' x0 nx
      | r => r
      end
  end.

Definition xStart_of (p : Vector) : jsint := Math_floor (x p).
Definition xEnd_of (p sz : Vector) : jsint := Math_ceil (fadd (x p) (x sz)).
Definition yStart_of (p : Vector) : jsint := Math_floor (y p).
Definition yEnd_of (p sz : Vector) : jsint := Math_ceil (fadd (y p) (y sz)).

(** [Level.prototype.obstacleAt] on the values of [pos] and [size].
    Past the two guards a start is NaN, [+Infinity] or an integer [>= 0]
    and an end is NaN, [-Infinity] or an integer within the level; a
    comparison with NaN, [+Infinity < e] and [v < -Infinity] are false,
    so the loops run only between two integers, and [y++] is exact. *)
Definition obstacleAt (lv : Level) (p sz : Vector) : Err + option Field :=
  let xStart := xStart_of p in
  let xEnd := xEnd_of p sz in
  let yStart := yStart_of p in
  let yEnd := yEnd_of p sz in
  if jlt xStart 0 || jgt xEnd (Z.of_nat (width lv)) || jlt yStart 0
  then inr (Some wall)
  else if jgt yEnd (Z.of_nat (height lv))
  then inr (Some lava)
  else
    match yStart, yEnd, xStart, xEnd with
    | JInt c, JInt d, JInt a, JInt b =>
        scan_y (grid lv) (Z.to_nat c) (Z.to_nat (d - c))
          (Z.to_nat a) (Z.to_nat (b - a))
    | _, _, _, _ => inr None
    end.

Definition Level_obstacleAt (pos size : loc) : M (option Field) :=
  p ← read pos;
  sz ← read size;
  lv ← gets level;
  match obstacleAt lv p sz with
  | inl e => throw e
  | inr o => mret o
  end.

(** The test of [actorAt] on two boxes: open intervals on both axes. *)
Definition overlaps (ap asz op osz : Vector) : bool :=
  fgt (fadd (x ap) (x asz)) (x op)
  && flt (x ap) (fadd (x op) (x osz))
  && fgt (fadd (y ap) (y asz)) (y op)
  && flt (y ap) (fadd (y op) (y osz)).

Fixpoint actorAt_from (actor : ref) (others : list ref) : M (option ref) :=
  match others with
  | [] => mret None
  | other :: rest =>
      if decide (other = actor) then actorAt_from actor rest
      else
        a ← this actor;
        o ← this other;
        ap ← read (actor_pos a);
        asz ← read (actor_size a);
        op ← read (actor_pos o);
        osz ← read (actor_size o);
        if overlaps ap asz op osz then mret (Some other)
        else actorAt_from actor rest
  end.

Definition Level_actorAt (actor : ref) : M (option ref) :=
  l ← gets (fun s => actors (level s)); actorAt_from actor l.

(** [this.actors.some(function(actor) { return actor.type == "coin"; })] *)
Fixpoint some_coin (l : list ref) : M bool :=
  match l with
  | [] => mret false
  | r :: l' =>
      a ← this r;
      if decide (actor_type a = "coin") then mret true else some_coin l'
  end.

(** [Level.prototype.playerTouched]; [actor] is [None] when the caller
    passes one argument only. *)
Definition Level_playerTouched (type : string) (actor : option ref) : M unit :=
  lv ← gets level;
  if bool_decide (type = "lava") && bool_decide (status lv = None) then
    modify (set_level (set_finish (Some lost) (Some one)))
  else if bool_decide (type = "coin") then
    modify (set_level
              (set_actors (filter (fun other => Some other ≠ actor) (actors lv))));;
    l ← gets (fun s => actors (level s));
    coins ← some_coin l;
    when (negb coins) (modify (set_level (set_finish (Some won) (Some one))))
  else mret tt.

(** [null] as a number is [0]. *)
Definition to_num (d : option num) : num := default zero d.

(** [Level.prototype.isFinished] *)
Definition Level_isFinished (lv : Level) : bool :=
  bool_decide (status lv ≠ None) && flt (to_num (finishDelay lv)) zero.

(** ** Player *)

Definition Player_moveX (step : num) (keys : Keys) (self : ref) : M unit :=
  a ← this self;
  sp ← get_speed a;
  update_x sp (fun _ => zero);;
  when (left keys) (update_x sp (fun v => fsub v playerXSpeed));;
  when (right keys) (update_x sp (fun v => fadd v playerXSpeed));;
  v ← read sp;
  motion ← new_Vector (fmul (x v) step) zero;
  newPos ← Vector_plus (actor_pos a) motion;
  obstacle ← Level_obstacleAt newPos (actor_size a);
  match obstacle with
  | Some f => Level_playerTouched (field_name f) None
  | None => set_pos self newPos
  end.

Definition Player_moveY (step : num) (keys : Keys) (self : ref) : M unit :=
  a ← this self;
  sp ← get_speed a;
  update_y sp (fun v => fadd v (fmul step gravity));;
  v ← read sp;
  motion ← new_Vector zero (fmul (y v) step);
  newPos ← Vector_plus (actor_pos a) motion;
  obstacle ← Level_obstacleAt newPos (actor_size a);
  match obstacle with
  | Some f =>
      Level_playerTouched (field_name f) None;;
      v ← read sp;
      if up keys && fgt (y v) zero
      then update_y sp (fun _ => fneg jumpSpeed)
      else update_y sp (fun _ => zero)
  | None => set_pos self newPos
  end.

(** [if (otherActor) level.playerTouched(otherActor.type, otherActor);] *)
Definition touch (otherActor : option ref) : M unit :=
  match otherActor with
  | Some other =>
      o ← this other; Level_playerTouched (actor_type o) (Some other)
  | None => mret tt
  end.

Definition Player_act (step : num) (keys : Keys) (self : ref) : M unit :=
  Player_moveX step keys self;;
  Player_moveY step keys self;;
  otherActor ← Level_actorAt self;
  touch otherActor;;
  lv ← gets level;
  when (bool_decide (status lv = Some lost))
    (a ← this self;
     update_y (actor_pos a) (fun v => fadd v step);;
     update_y (actor_size a) (fun v => fsub v step)).

(** ** Lava *)

Definition Lava_act (step : num) (self : ref) : M unit :=
  a ← this self;
  sp ← get_speed a;
  motion ← Vector_times sp step;
  newPos ← Vector_plus (actor_pos a) motion;
  obstacle ← Level_obstacleAt newPos (actor_size a);
  match obstacle with
  | None => set_pos self newPos
  | Some _ =>
      match get_repeatPos a with
      | Some repeatPos => set_pos self repeatPos
      | None => sp' ← Vector_times sp (of_Z (-1)); set_speed self sp'
      end
  end.

(** ** Coin, the dispatch of [act], and [animate] *)

Section Environment.

(** [Math.sin], and the result of the [k]-th call of [Math.random]. *)
Variable Math_sin : num -> num.
Variable Math_random : nat -> num.

(** On an object without [basePos], [this.basePos.plus] raises. *)
Definition Coin_act (step : num) (self : ref) : M unit :=
  a ← this self;
  match a with
  | Coin basePos _ size wobble =>
      let wobble' := fadd wobble (fmul step wobbleSpeed) in
      let wobblePos := fmul (Math_sin wobble') wobbleDist in
      off ← new_Vector zero wobblePos;
      pos' ← Vector_plus basePos off;
      set_this self (Coin basePos pos' size wobble')
  | _ => throw TypeError
  end.

(** [actor.act(step, level, keys)] through the actor's prototype. *)
Definition act (step : num) (keys : Keys) (actor : ref) : M unit :=
  a ← this actor;
  match a with
  | Player _ _ _ => Player_act step keys actor
  | Lava _ _ _ _ => Lava_act step actor
  | Coin _ _ _ _ => Coin_act step actor
  end.

(** The body of the loop of [animate]: every actor acts once, in the
    order of the array that [this.actors] names when the iteration
    starts ([playerTouched] installs a new array and leaves that one as
    it is). *)
Definition sub_step (thisStep : num) (keys : Keys) : M unit :=
  l ← gets (fun s => actors (level s));
  forEach (act thisStep keys) l.

(** The [while (step > 0)] loop of [animate]. *)
Fixpoint animate_loop (fuel : nat) (step : num) (keys : Keys) : M unit :=
  if fgt step zero then
    match fuel with
    | O => throw OutOfFuel
    | S fuel' =>
        let thisStep := Math_min step maxStep in
        sub_step thisStep keys;;
        animate_loop fuel' (fsub step thisStep) keys
    end
  else mret tt.

(** [if (this.status != null) this.finishDelay -= step;] *)
Definition countdown (step : num) : M unit :=
  lv ← gets level;
  when (bool_decide (status lv ≠ None))
    (modify (set_level
               (set_finish (status lv)
                  (Some (fsub (to_num (finishDelay lv)) step))))).

Definition Level_animate (fuel : nat) (step : num) (keys : Keys) : M unit :=
  countdown step;;
  animate_loop fuel step keys.

(** *** Construction *)

Definition new_actor (a : Actor) : M ref :=
  r ← gets (fun s => length (objs s));
  modify (set_objs (fun h => h ++ [a]));;
  mret r.

(** [new Player(pos)] *)
Definition new_Player (pos : loc) : M ref :=
  off ← new_Vector zero (fneg (decimal 5 10));
  p ← Vector_plus pos off;
  sz ← new_Vector (decimal 8 10) (decimal 15 10);
  sp ← new_Vector zero zero;
  new_actor (Player p sz sp).

(** [new Lava(pos, ch)] *)
Definition new_Lava (pos : loc) (ch : ascii) : M ref :=
  sz ← new_Vector one one;
  if bool_decide (ch = "="%char) then
    sp ← new_Vector (of_Z 2) zero; new_actor (Lava pos sz (Some sp) None)
  else if bool_decide (ch = "|"%char) then
    sp ← new_Vector zero (of_Z 2); new_actor (Lava pos sz (Some sp) None)
  else if bool_decide (ch = "v"%char) then
    sp ← new_Vector zero (of_Z 3);
    new_actor (Lava pos sz (Some sp) (Some pos))
  else new_actor (Lava pos sz None None).

(** [new Coin(pos)]: [basePos] and [pos] name one vector. *)
Definition new_Coin (pos : loc) : M ref :=
  off ← new_Vector (decimal 2 10) (decimal 1 10);
  p ← Vector_plus pos off;
  sz ← new_Vector (decimal 6 10) (decimal 6 10);
  k ← gets nrand;
  modify (fun s => mkState (vecs s) (objs s) (level s) (S k));;
  new_actor (Coin p p sz (fmul (fmul (Math_random k) Math_PI) (of_Z 2))).

(** [actorChars]: the constructor for a character of the plan. *)
Inductive Constructor : Type := CPlayer | CCoin | CLava.

Definition actorChars (ch : ascii) : option Constructor :=
  if bool_decide (ch = "@"%char) then Some CPlayer
  else if bool_decide (ch = "o"%char) then Some CCoin
  else if bool_decide (ch = "="%char) then Some CLava
  else if bool_decide (ch = "|"%char) then Some CLava
  else if bool_decide (ch = "v"%char) then Some CLava
  else None.

Definition new_Actor (c : Constructor) (pos : loc) (ch : ascii) : M ref :=
  match c with
  | CPlayer => new_Player pos
  | CCoin => new_Coin pos
  | CLava => new_Lava pos ch
  end.

(** The body of the inner loop of [Level]: the square to push on
    [gridLine] and the actors to push on [this.actors].  [line[x]] is
    undefined past the end of the line; then nothing matches. *)
Definition build_square (line : string) (x0 y0 : nat)
  : M (option Field * list ref) :=
  match String.get x0 line with
  | None => mret (None, [])
  | Some ch =>
      match actorChars ch with
      | Some c =>
          pos ← new_Vector (of_nat x0) (of_nat y0);
          r ← new_Actor c pos ch;
          mret (None, [r])
      | None =>
          if bool_decide (ch = "x"%char) then mret (Some wall, [])
          else if bool_decide (ch = "!"%char) then mret (Some lava, [])
          else mret (None, [])
      end
  end.

(** [n] squares of [line] from column [x0] on. *)
Fixpoint build_line (line : string) (y0 x0 n : nat)
  : M (list (option Field) * list ref) :=
  match n with
  | O => mret ([], [])
  | S n' =>
      '(fieldType, new) ← build_square line x0 y0;
      '(gridLine, more) ← build_line line y0 (S x0) n';
      mret (fieldType :: gridLine, new ++ more)
  end.

(** The lines of the plan from row [y0] on. *)
Fixpoint build_grid (lines : list string) (y0 w : nat)
  : M (list (list (option Field)) * list ref) :=
  match lines with
  | [] => mret ([], [])
  | line :: lines' =>
      '(gridLine, new) ← build_line line y0 0 w;
      '(g, more) ← build_grid lines' (S y0) w;
      mret (gridLine :: g, new ++ more)
  end.

(** [actors.filter(function(actor) { return actor.type == "player"; })] *)
Fixpoint players (l : list ref) : M (list ref) :=
  match l with
  | [] => mret []
  | r :: l' =>
      a ← this r;
      ps ← players l';
      mret (if bool_decide (actor_type a = "player") then r :: ps else ps)
  end.

(** [new Level(plan)]: [plan[0].length] raises a [TypeError] on an
    empty plan. *)
Definition new_Level (plan : list string) : M unit :=
  match plan with
  | [] => throw TypeError
  | line0 :: _ =>
      let w := String.length line0 in
      '(g, acts) ← build_grid plan 0 w;
      ps ← players acts;
      modify (set_level (fun _ =>
        mkLevel w (length plan) g acts (head ps) None None))
  end.

End Environment.

(** The state in which a program starts: nothing is stored yet. *)
Definition initial : State :=
  mkState [] [] (mkLevel 0 0 [] [] None None None) 0.

(** ** Predicates used in the statements *)

(** The actor named by [r] is a coin, and the actors named by [l] are
    all stored. *)
Definition is_coin (s : State) (r : ref) : Prop :=
  exists a, objs s !! r = Some a /\ actor_type a = "coin".

Definition stored (s : State) (l : list ref) : Prop :=
  Forall (fun r => is_Some (objs s !! r)) l.


(** The content of the vectors an actor names. *)
Definition pos_of (s : State) (r : ref) : option Vector :=
  a ← objs s !! r; vecs s !! actor_pos a.

Definition size_of (s : State) (r : ref) : option Vector :=
  a ← objs s !! r; vecs s !! actor_size a.

Definition speed_of (s : State) (r : ref) : option Vector :=
  a ← objs s !! r;
  match a with
  | Player _ _ sp | Lava _ _ (Some sp) _ => vecs s !! sp
  | _ => None
  end.

(** The grid has [height] rows of [width] squares. *)
Definition rectangular (lv : Level) : Prop :=
  length (grid lv) = height lv
  /\ Forall (fun row => length row = width lv) (grid lv).

(** *** The scan of [obstacleAt] in the words of the specification

    The squares a rectangle covers, row by row and from left to right in
    each row, and the first of them that is not empty. *)
Definition square (lv : Level) (row col : nat) : option Field :=
  match grid lv !! row with
  | Some line => match line !! col with Some f => f | None => None end
  | None => None
  end.

Definition covered (lv : Level) (a b c d : Z) : list (option Field) :=
  row ← seq (Z.to_nat c) (Z.to_nat (d - c));
  col ← seq (Z.to_nat a) (Z.to_nat (b - a));
  [square lv row col].

Fixpoint first_nonempty (squares : list (option Field)) : option Field :=
  match squares with
  | [] => None
  | Some f :: _ => Some f
  | None :: rest => first_nonempty rest
  end.

(** *** Boxes of actors *)

(** The position and the size of a stored actor. *)
Definition box_of (s : State) (r : ref) : option (Vector * Vector) :=
  a ← objs s !! r;
  p ← vecs s !! actor_pos a;
  sz ← vecs s !! actor_size a;
  Some (p, sz).

(** The boxes of [actor] and of [other] overlap. *)
Definition touches (s : State) (actor other : ref) : bool :=
  match box_of s actor, box_of s other with
  | Some (ap, asz), Some (op, osz) => overlaps ap asz op osz
  | _, _ => false
  end.

(** The horizontal speed that [moveX] sets for the keys held. *)
Definition walking_speed (keys : Keys) : num :=
  let v0 := zero in
  let v1 := if left keys then fsub v0 playerXSpeed else v0 in
  if right keys then fadd v1 playerXSpeed else v1.

(** *** Vectors that are changed in place

    Every vector stored in [s] is stored unchanged in [s'], except
    perhaps those named in [L]. *)
Definition keeps_vectors_except (L : list loc) (s s' : State) : Prop :=
  forall l v, l ∉ L -> vecs s !! l = Some v -> vecs s' !! l = Some v.

(** The vector that holds the speed of an actor, if it has one. *)
Definition speed_field (a : Actor) : list loc :=
  match a with
  | Player _ _ sp | Lava _ _ (Some sp) _ => [sp]
  | _ => []
  end.

Definition all_fields (a : Actor) : list loc :=
  actor_pos a :: actor_size a :: speed_field a.

Definition no_field (a : Actor) : list loc := [].

Section Frame.

(** The first [n] stored vectors are those of the state a method starts
    in; [L] names the ones among them that it may overwrite; the actor
    [self] names in [fields] only vectors that are owned: in [L], or
    created since the start. *)
Variables (n : nat) (L : list loc) (self : ref) (fields : Actor -> list loc).

Definition owned (l : loc) : Prop := l ∈ L \/ (n <= l)%nat.

Definition inv (s : State) : Prop :=
  (n <= length (vecs s))%nat
  /\ forall a, objs s !! self = Some a -> Forall owned (fields a).

Definition keeps (s s' : State) : Prop :=
  forall l v, l ∉ L -> (l < n)%nat ->
    vecs s !! l = Some v -> vecs s' !! l = Some v.

Definition frames {A : Type} (m : M A) : Prop :=
  forall s a s', inv s -> m s = inr (a, s') -> inv s' /\ keeps s s'.

End Frame.

(** *** Plans *)

(** No line of the plan holds the character [@]. *)
Definition no_player_char (plan : list string) : Prop :=
  forall line i, line ∈ plan -> String.get i line <> Some "@"%char.

(** From [s] to [s'] the actors [new] were created, one after the other,
    each of them with the property [P], and no stored actor or vector
    was lost. *)
Definition created (P : Actor -> Prop) (s s' : State) (new : list ref) : Prop :=
  exists added,
    objs s' = objs s ++ added
    /\ new = seq (length (objs s)) (length added)
    /\ Forall P added
    /\ (length (vecs s) <= length (vecs s'))%nat
    /\ level s' = level s.

Definition not_player (a : Actor) : Prop := actor_type a <> "player".

(** *** The steps of [animate]

    [a <= b], and a number that is a double, not just a [spec_float]. *)
Definition fle (a b : num) : bool := SFleb a b.

Definition valid (a : num) : Prop := valid_binary prec emax a = true.

(** The largest step the frame loop passes to [animate]:
    [Math.min(time - lastTime, 100) / 1000]. *)
Definition frameCap : num := Eval vm_compute in decimal 100 1000.

(** The sizes of the sub-steps the loop of [animate] goes through for a
    given [step], by the arithmetic of the loop alone; [None] when more
    than [fuel] iterations are needed. *)
Fixpoint substeps (fuel : nat) (step : num) : option (list num) :=
  if fgt step zero then
    match fuel with
    | O => None
    | S fuel' =>
        let thisStep := Math_min step maxStep in
        cons thisStep <$> substeps fuel' (fsub step thisStep)
    end
  else Some [].

(** The time that remains after [i] iterations. *)
Fixpoint remaining (step : num) (i : nat) : num :=
  match i with
  | O => step
  | S i' => remaining (fsub step (Math_min step maxStep)) i'
  end.

(** A positive double that is at most [c * 2^-57]. *)
Definition small (c : positive) (a : num) : Prop :=
  exists m e, a = S754_finite false m e
              /\ (e < -57 \/ (e = -57 /\ Zpos m <= Zpos c)).

(** [0.2], and [1e16]. *)
Definition fifth : num := Eval vm_compute in decimal 2 10.
Definition huge : num := Eval vm_compute in of_Z (10 ^ 16).

(** ** Example states *)

Local Open Scope nat_scope.

Definition no_keys : Keys := mkKeys false false false.

(** A level of three rows of three empty squares. *)
Definition empty3 : list (list (option Field)) :=
  [[None; None; None]; [None; None; None]; [None; None; None]].

(** A plan with a coin on the left of the player and fixed lava on its
    right, above a floor. *)
Definition lava_then_coin : list string := ["     "; "xo@!x"; "xxxxx"]%string.

Definition left_key : Keys := mkKeys true false false.
Definition up_key : Keys := mkKeys false true false.
Definition right_key : Keys := mkKeys false false true.

(** A level in progress with the player and two coins. *)
Definition two_coins : State :=
  mkState
    [ mkVector one (decimal 5 10);  mkVector (decimal 8 10) (decimal 15 10);
      mkVector zero zero;
      mkVector (decimal 12 10) (decimal 11 10);
      mkVector (decimal 6 10) (decimal 6 10);
      mkVector (decimal 22 10) (decimal 11 10);
      mkVector (decimal 6 10) (decimal 6 10) ]
    [ Player 0 1 2; Coin 3 3 4 zero; Coin 5 5 6 zero ]
    (mkLevel 3 3 empty3 [0; 1; 2] (Some 0) None None)
    0.

(** A rectangle one square wide and high at [(-1, 2.5)]: left of the
    level and, in a level of height 3, below it as well. *)
Definition left_and_below : Vector := mkVector (fneg one) (decimal 25 10).
Definition unit_size : Vector := mkVector one one.

Definition level3 : Level := mkLevel 3 3 empty3 [] None None None.

(** A level of height 3 with lava at the bottom right, and a rectangle
    at [(0.5, 1.5)] of size [(2, 1)], which covers the two lower rows. *)
Definition lava_corner : Level :=
  mkLevel 3 3
    [[None; None; None]; [None; None; Some wall]; [None; Some lava; None]]
    [] None None None.

Definition wide_pos : Vector := mkVector (decimal 5 10) (decimal 15 10).
Definition wide_size : Vector := mkVector (of_Z 2) one.

(** A level with a floor of wall, and two blocks of lava at [(1, 0.98)]
    that fall on it: actor 0 drips from [(1, 0)] at speed [(0, 3)], and
    actor 1 bounces at speed [(0, 2)]. *)
Definition lava_above_floor : State :=
  mkState
    [ mkVector one zero;
      mkVector one (decimal 98 100); mkVector one one; mkVector zero (of_Z 3);
      mkVector one (decimal 98 100); mkVector one one; mkVector zero (of_Z 2) ]
    [ Lava 1 2 (Some 3) (Some 0); Lava 4 5 (Some 6) None ]
    (mkLevel 3 3
       [[None; None; None]; [None; None; None]; [Some wall; Some wall; Some wall]]
       [0; 1] None None None)
    0.

(** The player stands at [(1, 0.5)] on a floor of wall, at rest. *)
Definition standing_on_floor : State :=
  mkState
    [ mkVector one (decimal 5 10); mkVector (decimal 8 10) (decimal 15 10);
      mkVector zero zero ]
    [ Player 0 1 2 ]
    (mkLevel 3 3
       [[None; None; None]; [None; None; None]; [Some wall; Some wall; Some wall]]
       [0] (Some 0) None None)
    0.

(** The player has lost and sinks; at [(1, -0.5)] its top sticks out of
    the level, so [obstacleAt] stops both of its moves. *)
Definition sinking : State :=
  mkState
    [ mkVector one (fneg (decimal 5 10)); mkVector (decimal 8 10) (decimal 15 10);
      mkVector zero zero ]
    [ Player 0 1 2 ]
    (mkLevel 3 3 empty3 [0] (Some 0) (Some lost) (Some one))
    0.

Local Close Scope nat_scope.

(** * What the simulation may change

    [evolves s s'] bounds what the methods called by [animate] do to
    the level and to the stored actors between two states: the size, the
    grid and the player of the level stay; actors leave the list but are
    not added, and those that leave are coins; a stored actor stays an
    object of its class; and [status] and [finishDelay] either stay as
    they are or are set together, [finishDelay] to [1] and [status] to
    ["won"], or to ["lost"] if it was [null]. *)

Definition same_ground (lv lv' : Level) : Prop :=
  width lv' = width lv /\ height lv' = height lv
  /\ grid lv' = grid lv /\ player lv' = player lv.

Definition finish_step (lv lv' : Level) : Prop :=
  (status lv' = status lv /\ finishDelay lv' = finishDelay lv)
  \/ (finishDelay lv' = Some one /\ status lv' <> None
      /\ (status lv' = Some lost -> status lv = None)).

Definition evolves (s s' : State) : Prop :=
  same_ground (level s) (level s')
  /\ finish_step (level s) (level s')
  /\ sublist (actors (level s')) (actors (level s))
  /\ (forall r, r ∈ actors (level s) -> r ∉ actors (level s') -> is_coin s r)
  /\ length (objs s') = length (objs s)
  /\ (forall (r : ref) a, objs s !! r = Some a ->
        exists a', objs s' !! r = Some a' /\ actor_type a' = actor_type a).

(** Whenever [m] returns, it has changed the state within [evolves]. *)
Definition guar {A : Type} (m : M A) : Prop :=
  forall s a s', m s = inr (a, s') -> evolves s s'.

(** * What the constructor of a level creates *)

(** The type of the square for a character of the plan; [line[x]] is
    undefined past the end of the line. *)
Definition ground (ch : option ascii) : option Field :=
  match ch with
  | Some ch =>
      if bool_decide (ch = "x"%char) then Some wall
      else if bool_decide (ch = "!"%char) then Some lava
      else None
  | None => None
  end.

(** The grid for the lines of a plan, of [w] squares each. *)
Definition ground_of (lines : list string) (w : nat)
  : list (list (option Field)) :=
  map (fun line => map (fun x0 => ground (String.get x0 line)) (seq 0 w)) lines.

(** The characters that stand for actors among the first [w] characters
    of the lines, with their columns and rows, in reading order: line by
    line from row [y0] on, and from left to right in each line. *)
Definition actor_at (line : string) (y0 x0 : nat) : list (nat * nat * ascii) :=
  match String.get x0 line with
  | Some ch =>
      match actorChars ch with
      | Some _ => [(x0, y0, ch)]
      | None => []
      end
  | None => []
  end.

Definition actors_of (lines : list string) (y0 w : nat)
  : list (nat * nat * ascii) :=
  '(y1, line) ← zip (seq y0 (length lines)) lines;
  x0 ← seq 0 w;
  actor_at line y1 x0.

(** The speed that [Lava] sets for a character. *)
Definition lava_speed (ch : ascii) : Vector :=
  if bool_decide (ch = "="%char) then mkVector (of_Z 2) zero
  else if bool_decide (ch = "|"%char) then mkVector zero (of_Z 2)
  else mkVector zero (of_Z 3).

(** The actor [a] is what the constructor for the character [ch] at
    column [x0] and row [y0] makes, with its vectors in the store [vs]. *)
Definition spawned (Math_random : nat -> num) (vs : list Vector)
    (cell : nat * nat * ascii) (a : Actor) : Prop :=
  let '(x0, y0, ch) := cell in
  let here := mkVector (of_nat x0) (of_nat y0) in
  match actorChars ch with
  | Some CPlayer =>
      exists p sz sp : loc,
        a = Player p sz sp
        /\ vs !! p = Some (vplus here (mkVector zero (fneg (decimal 5 10))))
        /\ vs !! sz = Some (mkVector (decimal 8 10) (decimal 15 10))
        /\ vs !! sp = Some (mkVector zero zero)
        /\ sp <> p /\ sp <> sz /\ p <> sz
  | Some CCoin =>
      exists (p sz : loc) (k : nat),
        a = Coin p p sz (fmul (fmul (Math_random k) Math_PI) (of_Z 2))
        /\ vs !! p = Some (vplus here (mkVector (decimal 2 10) (decimal 1 10)))
        /\ vs !! sz = Some (mkVector (decimal 6 10) (decimal 6 10))
  | Some CLava =>
      exists p sz sp : loc,
        a = Lava p sz (Some sp)
              (if bool_decide (ch = "v"%char) then Some p else None)
        /\ vs !! p = Some here
        /\ vs !! sz = Some (mkVector one one)
        /\ vs !! sp = Some (lava_speed ch)
  | None => False
  end.

(** From [s] to [s'] the actors [new] were created for the characters
    [cells], one after the other; nothing that was stored was changed. *)
Definition built (Math_random : nat -> num) (s s' : State)
    (cells : list (nat * nat * ascii)) (new : list ref) : Prop :=
  exists added extra,
    objs s' = objs s ++ added
    /\ new = seq (length (objs s)) (length added)
    /\ vecs s' = vecs s ++ extra
    /\ Forall2 (spawned Math_random (vecs s')) cells added
    /\ level s' = level s.

(** The place among the actor characters of the first [@]. *)
Definition first_player (cells : list (nat * nat * ascii)) : option nat :=
  fst <$> list_find (fun cell => cell.2 = "@"%char) cells.

(** The actor named by [r] is a player. *)
Definition is_player (s : State) (r : ref) : Prop :=
  exists a, objs s !! r = Some a /\ actor_type a = "player".

(** * States in which the simulation runs

    A state is well formed when the grid has a row for every [y] below
    [height], the actors of the level are stored, every vector that a
    stored actor names is stored, and every lava has a speed. *)

Definition fields_in (n : nat) (a : Actor) : Prop :=
  match a with
  | Player p sz sp => (p < n /\ sz < n /\ sp < n)%nat
  | Lava p sz (Some sp) rp =>
      (p < n /\ sz < n /\ sp < n)%nat /\ forall q, rp = Some q -> (q < n)%nat
  | Lava _ _ None _ => False
  | Coin bp p sz _ => (bp < n /\ p < n /\ sz < n)%nat
  end.

Definition well_formed (s : State) : Prop :=
  length (grid (level s)) = height (level s)
  /\ stored s (actors (level s))
  /\ Forall (fields_in (length (vecs s))) (objs s).

(** From [s] to [s'] no stored vector or actor was dropped, and every
    stored actor has kept its class. *)
Definition grows (s s' : State) : Prop :=
  (length (vecs s) <= length (vecs s'))%nat
  /\ length (objs s') = length (objs s)
  /\ forall (r : ref) a, objs s !! r = Some a ->
       exists a', objs s' !! r = Some a' /\ actor_type a' = actor_type a.

(** A condition that lasts while the state grows. *)
Definition stable (P : State -> Prop) : Prop :=
  forall s s', P s -> grows s s' -> P s'.

(** From a well-formed state in which [P] holds, [m] returns, in a
    well-formed state in which [Q] holds of what it returns. *)
Definition safe {A : Type} (P : State -> Prop) (m : M A)
    (Q : A -> State -> Prop) : Prop :=
  forall s, well_formed s -> P s ->
    exists a s', m s = inr (a, s') /\ well_formed s' /\ grows s s' /\ Q a s'.

(** The actor named by [r] is of the class [t]. *)
Definition has_type (r : ref) (t : string) (s : State) : Prop :=
  actor_type <$> objs s !! r = Some t.

(** * The player and the background *)

(** The actor [r] is a player whose position, size and speed are the
    stored vectors [P], [Sz] and [V], with a position [p] and a size
    [sz]. *)
Definition player_at (r : ref) (P Sz V : loc) (p sz : Vector) (s : State)
  : Prop :=
  objs s !! r = Some (Player P Sz V)
  /\ vecs s !! P = Some p /\ vecs s !! Sz = Some sz
  /\ is_Some (vecs s !! V).

(** The player [r], of size [sz], is at a position where [obstacleAt]
    finds nothing, and its speed is not stored in the vector of its
    position. *)
Definition in_the_clear (r : ref) (Sz V : loc) (sz : Vector) (s : State)
  : Prop :=
  exists (P : loc) (p : Vector),
    player_at r P Sz V p sz s /\ V <> P
    /\ obstacleAt (level s) p sz = inr None.

(** What the actors other than the player do: the level and every
    stored actor but [self] are in [s'] as they are in [s]. *)
Definition beside (self : ref) (s s' : State) : Prop :=
  level s' = level s
  /\ forall r : ref, r <> self -> objs s' !! r = objs s !! r.

Definition aside {A : Type} (self : ref) (m : M A) : Prop :=
  forall s a s', m s = inr (a, s') -> beside self s s'.

(** No actor of the list [l] other than [r] is a player. *)
Definition only_player (r : ref) (l : list ref) (s : State) : Prop :=
  forall r' : ref, r' ∈ l -> r' <> r -> ~ is_player s r'.

(** * The drivers of the game

    [trackKeys], [runAnimation], [runLevel] and [runGame] are run by the
    browser: it calls the registered listeners for each keyboard event,
    one event after the other, and calls a function passed to
    [requestAnimationFrame] once, with the time of the frame. *)

(** ** Key tracking *)

(** A property of the object [pressed]: a boolean set by [handler], or
    the function stored as [unregister]. *)
Inductive KeyVal : Type := KBool (down : bool) | KFun.

(** What the listeners read of a keyboard event. *)
Record Event : Type := mkEvent { keyCode : Z; type : string }.

Definition arrowCodes : gmap Z string :=
  {[ 37 := "left"; 38 := "up"; 39 := "right" ]}.

(** The [handler] of [trackKeys(codes)]: the object [pressed] after the
    call, and whether [event.preventDefault()] was called. *)
Definition handler (codes : gmap Z string) (event : Event)
    (pressed : gmap string KeyVal) : gmap string KeyVal * bool :=
  match codes !! keyCode event with
  | Some name =>
      let down := bool_decide (type event = "keydown") in
      (<[name := KBool down]> pressed, true)
  | None => (pressed, false)
  end.

(** The object [trackKeys] returns, before any event. *)
Definition trackKeys : gmap string KeyVal := {[ "unregister" := KFun ]}.

(** [pressed] after the events [events], oldest first. *)
Definition track (codes : gmap Z string) (events : list Event)
    (pressed : gmap string KeyVal) : gmap string KeyVal :=
  foldl (fun p event => (handler codes event p).1) pressed events.

(** [keys.left], [keys.up] and [keys.right] as conditions: a property
    that is not set is undefined, which is falsy. *)
Definition held (pressed : gmap string KeyVal) (name : string) : bool :=
  match pressed !! name with
  | Some (KBool down) => down
  | Some KFun => true
  | None => false
  end.

Definition keys_of (pressed : gmap string KeyVal) : Keys :=
  mkKeys (held pressed "left") (held pressed "up") (held pressed "right").

(** The last of the events of key code [k] is a [keydown]. *)
Definition last_is_down (k : Z) (events : list Event) : bool :=
  match last (filter (fun e => keyCode e = k) events) with
  | Some e => bool_decide (type e = "keydown")
  | None => false
  end.

(** ** [runAnimation] *)

(** What a frame function returns: [false], or nothing. *)
Inductive Ret : Type := RFalse | RUndefined.

(** [Math.min(time - lastTime, 100) / 1000] *)
Definition timeStep_of (lastTime time : num) : num :=
  fdiv (Math_min (fsub time lastTime) (of_Z 100)) (of_Z 1000).

(** One call of [frame(time)] in a loop started by
    [runAnimation(frameFunc)], where [frameFunc] works on a state of
    type [S].  The result holds the new [lastTime] when [frame] has
    requested the next frame, and nothing when the loop has stopped. *)
Definition frame {S : Type} (frameFunc : num -> S -> Err + Ret * S)
    (lastTime : option num) (time : num) (s : S)
  : Err + option (option num) * S :=
  match lastTime with
  | Some t0 =>
      match frameFunc (timeStep_of t0 time) s with
      | inl e => inl e
      | inr (RFalse, s') => inr (None, s')
      | inr (RUndefined, s') => inr (Some (Some time), s')
      end
  | None => inr (Some (Some time), s)
  end.

(** ** [runLevel] *)

Inductive Running : Type := yes | pausing | no.

#[global] Instance Running_eq_dec : EqDecision Running.
Proof. solve_decision. Defined.

Section RunLevel.

Variable Math_sin : num -> num.

(** The display class passed to [runLevel]: its constructor and its
    methods [drawFrame] and [clear].  A display reads the level and does
    not change it. *)
Variable Display : Type.
Variable new_Display : State -> Err + Display.
Variable drawFrame : num -> State -> Display -> Err + Display.
Variable clear : Display -> Err + Display.

(** The variables of one call of [runLevel] and what the browser holds
    for it: [loops] has the [lastTime] of every loop of [runAnimation]
    whose next frame is requested, [escListener] and [arrowListeners]
    tell whether [handleEscKey] and the handler of [trackKeys] are
    registered, and [results] lists the calls of [andThen]. *)
Record Session : Type := mkSession {
  running : Running;
  loops : list (option num);
  escListener : bool;
  arrowListeners : bool;
  arrows : gmap string KeyVal;
  world : State;
  display : Display;
  results : list (option Status)
}.

Definition set_running (r : Running) (ss : Session) : Session :=
  mkSession r (loops ss) (escListener ss) (arrowListeners ss) (arrows ss)
    (world ss) (display ss) (results ss).

Definition set_loops (l : list (option num)) (ss : Session) : Session :=
  mkSession (running ss) l (escListener ss) (arrowListeners ss) (arrows ss)
    (world ss) (display ss) (results ss).

Definition set_arrows (p : gmap string KeyVal) (ss : Session) : Session :=
  mkSession (running ss) (loops ss) (escListener ss) (arrowListeners ss) p
    (world ss) (display ss) (results ss).

(** [runAnimation(animation)]: the first frame is requested, with
    [lastTime] null. *)
Definition runAnimation (ss : Session) : Session :=
  set_loops (loops ss ++ [None]) ss.

Definition handleEscKey (event : Event) (ss : Session) : Session :=
  if bool_decide (keyCode event = 27) then
    match running ss with
    | yes => set_running pausing ss
    | no => runAnimation (set_running yes ss)
    | pausing => set_running yes ss
    end
  else ss.

(** [arrows.unregister()] raises a [TypeError] when a key named
    [unregister] has put a boolean in the place of the function. *)
Definition unregister (ss : Session) : Err + Session :=
  match arrows ss !! "unregister" with
  | Some KFun =>
      inr (mkSession (running ss) (loops ss) (escListener ss) false (arrows ss)
             (world ss) (display ss) (results ss))
  | _ => inl TypeError
  end.

(** The frame function of [runLevel]; [andThen] is given. *)
Definition animation (fuel : nat) (step : num) (ss : Session)
  : Err + Ret * Session :=
  if bool_decide (running ss = pausing) then
    inr (RFalse, set_running no ss)
  else
    match Level_animate Math_sin fuel step (keys_of (arrows ss)) (world ss) with
    | inl e => inl e
    | inr (_, w) =>
        match drawFrame step w (display ss) with
        | inl e => inl e
        | inr d =>
            if Level_isFinished (level w) then
              match clear d with
              | inl e => inl e
              | inr d' =>
                  match
                    unregister
                      (mkSession (running ss) (loops ss) false
                         (arrowListeners ss) (arrows ss) w d' (results ss))
                  with
                  | inl e => inl e
                  | inr ss' =>
                      inr (RFalse,
                           mkSession (running ss') (loops ss') (escListener ss')
                             (arrowListeners ss') (arrows ss') (world ss')
                             (display ss')
                             (results ss' ++ [status (level w)]))
                  end
              end
            else
              inr (RUndefined,
                   mkSession (running ss) (loops ss) (escListener ss)
                     (arrowListeners ss) (arrows ss) w d (results ss))
        end
    end.

(** [runLevel(level, Display, andThen)] on the level of [w]. *)
Definition runLevel (w : State) : Err + Session :=
  match new_Display w with
  | inl e => inl e
  | inr d => inr (mkSession yes [None] true true trackKeys w d [])
  end.

(** What the browser does next: it dispatches a keyboard event, or it
    calls the frame requested by the [i]-th loop. *)
Inductive Input : Type :=
  | Key (event : Event)
  | AnimationFrame (i : nat) (time : num).

(** The listeners for [keydown] are called in the order of their
    registration: [handleEscKey], then the handler of [trackKeys], which
    is the only listener for [keyup]. *)
Definition dispatch (event : Event) (ss : Session) : Session :=
  let ss1 :=
    if escListener ss && bool_decide (type event = "keydown")
    then handleEscKey event ss else ss in
  if arrowListeners ss1
     && (bool_decide (type event = "keydown") || bool_decide (type event = "keyup"))
  then set_arrows (handler arrowCodes event (arrows ss1)).1 ss1
  else ss1.

Definition browser (fuel : nat) (input : Input) (ss : Session) : Err + Session :=
  match input with
  | Key event => inr (dispatch event ss)
  | AnimationFrame i time =>
      match loops ss !! i with
      | None => inr ss
      | Some lastTime =>
          match frame (animation fuel) lastTime time ss with
          | inl e => inl e
          | inr (Some lastTime', ss') =>
              inr (set_loops (<[i := lastTime']> (loops ss')) ss')
          | inr (None, ss') => inr (set_loops (delete i (loops ss')) ss')
          end
      end
  end.

(** The inputs [inputs], one after the other. *)
Fixpoint browse (fuel : nat) (inputs : list Input) (ss : Session)
  : Err + Session :=
  match inputs with
  | [] => inr ss
  | input :: rest =>
      match browser fuel input ss with
      | inl e => inl e
      | inr ss' => browse fuel rest ss'
      end
  end.

(** The level is being animated: the session has not ended and is not
    paused. *)
Definition animating (ss : Session) : bool :=
  escListener ss && negb (bool_decide (running ss = no)).

End RunLevel.

Arguments mkSession {Display}.
Arguments running {Display}.
Arguments loops {Display}.
Arguments escListener {Display}.
Arguments arrowListeners {Display}.
Arguments arrows {Display}.
Arguments world {Display}.
Arguments display {Display}.
Arguments results {Display}.
Arguments set_running {Display}.
Arguments set_loops {Display}.
Arguments set_arrows {Display}.
Arguments runAnimation {Display}.
Arguments handleEscKey {Display}.
Arguments unregister {Display}.
Arguments dispatch {Display}.
Arguments animating {Display}.

(** The user presses the escape key. *)
Definition esc : Event := mkEvent 27 "keydown".

(** A keyboard event that is not a press of the escape key. *)
Definition not_esc (event : Event) : Prop :=
  ~ (keyCode event = 27 /\ type event = "keydown").

(** ** [runGame] *)

(** The argument [lives] of [startLevel]: a number, or undefined when
    the call passes one argument. *)
Inductive Lives : Type := NoLives | HasLives (k : num).

(** [lives] as a number: undefined is NaN. *)
Definition lives_num (lives : Lives) : num :=
  match lives with
  | NoLives => S754_nan
  | HasLives k => k
  end.

(** The function that [startLevel(n, lives)] passes to [runLevel] as
    [andThen]: what it logs, and the arguments of the call of
    [startLevel] it makes, if any. *)
Definition andThen (plans : list (list string)) (n : nat) (lives : Lives)
    (status : option Status) : list string * option (nat * Lives) :=
  if bool_decide (status = Some lost) then
    if fgt (lives_num lives) zero
    then ([], Some (n, HasLives (fsub (lives_num lives) one)))
    else (["Game Over!"], Some (0%nat, HasLives (of_Z 3)))
  else if Z.of_nat n <? Z.of_nat (length plans) - 1 then
    ([], Some (S n, NoLives))
  else (["You win!"], None).

(** The game from [startLevel(n, lives)] on, for the statuses with which
    the levels played end, in order: the log, and the level that runs
    after them, if any. *)
Fixpoint play (plans : list (list string)) (n : nat) (lives : Lives)
    (ends : list (option Status)) : list string * option (nat * Lives) :=
  match ends with
  | [] => ([], Some (n, lives))
  | status :: rest =>
      match andThen plans n lives status with
      | (out, Some (n', lives')) =>
          let '(out', next) := play plans n' lives' rest in (out ++ out', next)
      | (out, None) => (out, None)
      end
  end.

(** [new Level(plans[n])], the level that [startLevel(n, lives)] runs:
    [plans[n]] is undefined past the end of [plans], and reading
    [plan[0]] of it raises a [TypeError]. *)
Definition level_of_plan (Math_random : nat -> num) (plans : list (list string))
    (n : nat) : M unit :=
  match plans !! n with
  | Some plan => new_Level Math_random plan
  | None => throw TypeError
  end.

(** ** Sessions that run

    The time of a frame is a double. *)
Definition timed (input : Input) : Prop :=
  match input with
  | Key _ => True
  | AnimationFrame _ time => valid time
  end.

(** The level has a player, which is stored. *)
Definition has_player (s : State) : Prop :=
  exists r : ref, player (level s) = Some r /\ is_Some (objs s !! r).

(** A session in which the level can be animated: the world is well
    formed and has a player, [unregister] is the function that
    [trackKeys] has stored, the times of the frames before are doubles,
    one loop is requested while the level is animated and none
    otherwise, and the display is one of [J], the displays that can be
    drawn on, until the level has ended. *)
Definition sound {Display : Type} (J : Display -> Prop) (ss : Session Display)
  : Prop :=
  well_formed (world ss)
  /\ has_player (world ss)
  /\ arrows ss !! "unregister" = Some KFun
  /\ Forall (fun lastTime => from_option valid True lastTime) (loops ss)
  /\ length (loops ss) = (if animating ss then 1%nat else 0%nat)
  /\ (escListener ss = true -> J (display ss)).

(** * Doubles in canonical form

    A mantissa and an exponent as [binary_round_aux] leaves them: the
    mantissa has 53 bits, or fewer at the least exponent. *)
Definition canonic (m e : Z) : Prop :=
  (2 ^ 52 <= m < 2 ^ 53 /\ -1074 <= e) \/ (0 <= m < 2 ^ 52 /\ e = -1074).

(** The double with the mantissa [m] and the exponent [e], as the last
    step of [binary_round_aux] makes it. *)
Definition pack (sx : bool) (m e : Z) : num :=
  match m with
  | Z0 => S754_zero sx
  | Zpos p => if e <=? 971 then S754_finite sx p e else S754_infinity sx
  | Zneg _ => S754_nan
  end.

(** ** Example sessions *)

(** A display that draws nothing, and the session that [runLevel]
    starts with it for the player standing on the floor. *)
Definition blank (w : State) : Err + unit := inr tt.
Definition blank_drawFrame (step : num) (w : State) (d : unit) : Err + unit :=
  inr tt.
Definition blank_clear (d : unit) : Err + unit := inr tt.

Definition session0 : Session unit :=
  mkSession yes [None] true true trackKeys standing_on_floor tt [].

(** The session after its first frame, at time [1000]. *)
Definition session1 : Session unit :=
  mkSession yes [Some (of_Z 1000)] true true trackKeys standing_on_floor tt [].

(** The right arrow is pressed and the left arrow is released. *)
Definition right_down : Event := mkEvent 39 "keydown".
Definition left_up : Event := mkEvent 37 "keyup".

(** The level of [sinking] a moment before it is finished. *)
Definition session_lost : Session unit :=
  mkSession yes [Some (of_Z 1000)] true true trackKeys
    (set_level (set_finish (Some lost) (Some (decimal 1 100))) sinking) tt [].

(** A game of two levels. *)
Definition two_plans : list (list string) :=
  [lava_then_coin; ["@o"; "xx"]].
(** * The display

    [DOMDisplay] shows a level with elements of the page.  An element is
    modelled by what this code gives it: its tag, its class name (the
    empty string until one is set), the texts assigned to properties of
    its [style], oldest first, and its children.  An element that is
    changed after it was appended is still the same child of its parent:
    the model appends it as it is when the function that builds it
    returns.  A display holds its level, the object that [animate]
    changes; its methods read it from the state. *)

#[warnings="-register-all"]
Inductive Element : Type :=
  mkElement (tagName className : string) (style : list (string * string))
            (children : list Element).

Definition tagName (e : Element) : string :=
  match e with mkElement t _ _ _ => t end.

Definition className (e : Element) : string :=
  match e with mkElement _ c _ _ => c end.

Definition style (e : Element) : list (string * string) :=
  match e with mkElement _ _ st _ => st end.

Definition children (e : Element) : list Element :=
  match e with mkElement _ _ _ ch => ch end.

(** [e.className = c], [e.style[property] = value] and
    [e.appendChild(child)] *)
Definition set_className (c : string) (e : Element) : Element :=
  mkElement (tagName e) c (style e) (children e).

Definition set_style (property value : string) (e : Element) : Element :=
  mkElement (tagName e) (className e) (style e ++ [(property, value)])
    (children e).

Definition appendChild (child : Element) (e : Element) : Element :=
  mkElement (tagName e) (className e) (style e) (children e ++ [child]).

(** [e.removeChild(child)] for the child at the index [i]; there is
    nothing to remove when [i] names no child. *)
Definition removeChild (i : nat) (e : Element) : option Element :=
  if bool_decide (i < length (children e))%nat
  then Some (mkElement (tagName e) (className e) (style e)
               (delete i (children e)))
  else None.

(** [elt(name, className)]: a class name that is undefined, null or
    empty is not set. *)
Definition elt (name : string) (class : option string) : Element :=
  let elt := mkElement name EmptyString [] [] in
  match class with
  | Some c => if bool_decide (c = EmptyString) then elt else set_className c elt
  | None => elt
  end.

Definition scale : num := Eval vm_compute in of_Z 20.

(** [level.status || ""] *)
Definition status_name (st : option Status) : string :=
  match st with
  | Some won => "won"
  | Some lost => "lost"
  | None => EmptyString
  end.

(** A display: [wrap]; whether [wrap] is still a child of the parent it
    was appended to; [actorLayer], which is null or the child of [wrap]
    at an index; and the scroll position of [wrap]. *)
Record DOMDisplay : Type := mkDOMDisplay {
  wrap : Element;
  attached : bool;
  actorLayer : option nat;
  scrollLeft : num;
  scrollTop : num
}.

Section Display.

(** The environment: how a number reads as text, the size of the
    viewport of [wrap], and what the page makes of a value assigned to
    [scrollLeft] and to [scrollTop]. *)
Variable Number_toString : num -> string.
Variables clientWidth clientHeight : num.
Variables constrain_left constrain_top : num -> num.

(** [n + "px"] *)
Definition px (n : num) : string := Number_toString n +:+ "px".

Definition drawBackground : M Element :=
  lv ← gets level;
  let table :=
    set_style "width" (px (fmul (of_nat (width lv)) scale))
      (elt "table" (Some "background")) in
  mret
    (foldl
       (fun table row =>
          let rowElt := set_style "height" (px scale) (elt "tr" None) in
          appendChild
            (foldl
               (fun rowElt type =>
                  appendChild (elt "td" (field_name <$> type)) rowElt)
               rowElt row)
            table)
       table (grid lv)).

(** The element that [drawActors] makes for one actor. *)
Definition rect_of (actor : ref) : M Element :=
  a ← this actor;
  let rect := elt "div" (Some ("actor " +:+ actor_type a)) in
  size ← read (actor_size a);
  let rect := set_style "width" (px (fmul (x size) scale)) rect in
  let rect := set_style "height" (px (fmul (y size) scale)) rect in
  pos ← read (actor_pos a);
  let rect := set_style "left" (px (fmul (x pos) scale)) rect in
  let rect := set_style "top" (px (fmul (y pos) scale)) rect in
  mret rect.

Fixpoint drawActors_from (l : list ref) (wrap : Element) : M Element :=
  match l with
  | [] => mret wrap
  | actor :: rest =>
      rect ← rect_of actor;
      drawActors_from rest (appendChild rect wrap)
  end.

Definition drawActors : M Element :=
  l ← gets (fun s => actors (level s));
  drawActors_from l (elt "div" None).

Definition set_scrollLeft (v : num) (d : DOMDisplay) : DOMDisplay :=
  mkDOMDisplay (wrap d) (attached d) (actorLayer d) (constrain_left v)
    (scrollTop d).

Definition set_scrollTop (v : num) (d : DOMDisplay) : DOMDisplay :=
  mkDOMDisplay (wrap d) (attached d) (actorLayer d) (scrollLeft d)
    (constrain_top v).

(** Reading [player.pos] raises a [TypeError] when the level has no
    player.  The three vectors made on the way to [center] are dropped
    when the method returns; only their values are computed here. *)
Definition scrollPlayerIntoView (d : DOMDisplay) : M DOMDisplay :=
  let width := clientWidth in
  let height := clientHeight in
  let margin := fdiv width (of_Z 3) in
  let left := scrollLeft d in
  let right := fadd left width in
  let top := scrollTop d in
  let bottom := fadd top height in
  player ← gets (fun s => player (level s));
  player ← lift TypeError player;
  a ← this player;
  pos ← read (actor_pos a);
  size ← read (actor_size a);
  let center := vtimes (vplus pos (vtimes size (decimal 5 10))) scale in
  let d :=
    if flt (x center) (fadd left margin)
    then set_scrollLeft (fsub (x center) margin) d
    else if fgt (x center) (fsub right margin)
    then set_scrollLeft (fsub (fadd (x center) margin) width) d
    else d in
  let d :=
    if flt (y center) (fadd top margin)
    then set_scrollTop (fsub (y center) margin) d
    else if fgt (y center) (fsub bottom margin)
    then set_scrollTop (fsub (fadd (y center) margin) height) d
    else d in
  mret d.

Definition DOMDisplay_drawFrame (d : DOMDisplay) : M DOMDisplay :=
  wrap1 ←
    match actorLayer d with
    | Some i => lift BadRef (removeChild i (wrap d))
    | None => mret (wrap d)
    end;
  layer ← drawActors;
  let wrap2 := appendChild layer wrap1 in
  st ← gets (fun s => status (level s));
  let wrap3 := set_className ("game " +:+ status_name st) wrap2 in
  scrollPlayerIntoView
    (mkDOMDisplay wrap3 (attached d) (Some (length (children wrap1)))
       (scrollLeft d) (scrollTop d)).

(** [new DOMDisplay(parent, level)] *)
Definition new_DOMDisplay : M DOMDisplay :=
  let wrap := elt "div" (Some "game") in
  background ← drawBackground;
  DOMDisplay_drawFrame
    (mkDOMDisplay (appendChild background wrap) true None zero zero).

(** [wrap.parentNode] is null once [wrap] has been removed. *)
Definition DOMDisplay_clear (d : DOMDisplay) : Err + DOMDisplay :=
  if attached d
  then inr (mkDOMDisplay (wrap d) false (actorLayer d) (scrollLeft d)
              (scrollTop d))
  else inl TypeError.

(** The display class as [runLevel] uses it.  The methods leave the
    state as it is. *)
Definition shows {A : Type} (m : M A) (w : State) : Err + A :=
  match m w with
  | inl e => inl e
  | inr (a, _) => inr a
  end.

Definition DOM_new (w : State) : Err + DOMDisplay := shows new_DOMDisplay w.

Definition DOM_drawFrame (step : num) (w : State) (d : DOMDisplay)
  : Err + DOMDisplay :=
  shows (DOMDisplay_drawFrame d) w.

(** [drawFrame], called once for each of the states [ws] that the level
    goes through, in order. *)
Fixpoint DOM_frames (ws : list State) (d : DOMDisplay) : Err + DOMDisplay :=
  match ws with
  | [] => inr d
  | w :: rest =>
      match DOM_drawFrame zero w d with
      | inl e => inl e
      | inr d' => DOM_frames rest d'
      end
  end.

(** What the display shows of the level: the table for its grid, the
    element for an actor with the position [pos] and the size [size],
    and the layer for the actors of its list. *)
Definition cell_of (type : option Field) : Element :=
  mkElement "td" (from_option field_name EmptyString type) [] [].

Definition row_of (row : list (option Field)) : Element :=
  mkElement "tr" EmptyString [("height", px scale)] (cell_of <$> row).

Definition table_of (lv : Level) : Element :=
  mkElement "table" "background"
    [("width", px (fmul (of_nat (width lv)) scale))]
    (row_of <$> grid lv).

Definition rect_at (type : string) (pos size : Vector) : Element :=
  mkElement "div" ("actor " +:+ type)
    [("width", px (fmul (x size) scale)); ("height", px (fmul (y size) scale));
     ("left", px (fmul (x pos) scale)); ("top", px (fmul (y pos) scale))]
    [].

Definition shown_as (s : State) (actor : ref) (rect : Element) : Prop :=
  exists a pos size,
    objs s !! actor = Some a
    /\ vecs s !! actor_pos a = Some pos
    /\ vecs s !! actor_size a = Some size
    /\ rect = rect_at (actor_type a) pos size.

Definition layer_of (rects : list Element) : Element :=
  mkElement "div" EmptyString [] rects.

(** The displays that [drawFrame] leaves: [wrap] has two children, the
    background and the actor layer, which [actorLayer] names; and those
    that can be cleared as well, [wrap] being on the page. *)
Definition drawn (background : Element) (d : DOMDisplay) : Prop :=
  actorLayer d = Some 1%nat
  /\ exists layer, children (wrap d) = [background; layer].

Definition on_page (d : DOMDisplay) : Prop :=
  attached d = true /\ exists background, drawn background d.

End Display.
(** * Properties *)

(** ** Running computations *)

Lemma run_bind {A B : Type} (m : M A) (k : A -> M B) (s : State) :
  (m ≫= k) s = match m s with inl e => inl e | inr (a, s') => k a s' end.
Proof. reflexivity. Qed.

Lemma run_bind_ok {A B : Type} (m : M A) (k : A -> M B) (s s' : State) (a : A) :
  m s = inr (a, s') -> (m ≫= k) s = k a s'.
Proof. intros H. rewrite run_bind, H. reflexivity. Qed.

Lemma run_bind_err {A B : Type} (m : M A) (k : A -> M B) (s : State) (e : Err) :
  m s = inl e -> (m ≫= k) s = inl e.
Proof. intros H. rewrite run_bind, H. reflexivity. Qed.

Lemma run_ret {A : Type} (a : A) (s : State) : (mret a : M A) s = inr (a, s).
Proof. reflexivity. Qed.

Lemma run_gets {A : Type} (f : State -> A) (s : State) : gets f s = inr (f s, s).
Proof. reflexivity. Qed.

Lemma run_modify (f : State -> State) (s : State) : modify f s = inr (tt, f s).
Proof. reflexivity. Qed.

Lemma run_read (l : loc) (v : Vector) (s : State) :
  vecs s !! l = Some v -> read l s = inr (v, s).
Proof. intros H. unfold read. rewrite run_bind, run_gets, H. reflexivity. Qed.

Lemma run_this (r : ref) (a : Actor) (s : State) :
  objs s !! r = Some a -> this r s = inr (a, s).
Proof. intros H. unfold this. rewrite run_bind, run_gets, H. reflexivity. Qed.

Lemma run_alloc (v : Vector) (s : State) :
  alloc v s = inr (length (vecs s), set_vecs (fun h => h ++ [v]) s).
Proof. reflexivity. Qed.

Lemma run_write (l : loc) (v w : Vector) (s : State) :
  vecs s !! l = Some w ->
  write l v s = inr (tt, set_vecs (fun h => <[l := v]> h) s).
Proof. intros H. unfold write. rewrite (run_bind_ok _ _ _ _ _ (run_read _ _ _ H)). reflexivity. Qed.

Lemma run_set_this (r : ref) (a b : Actor) (s : State) :
  objs s !! r = Some b ->
  set_this r a s = inr (tt, set_objs (fun h => <[r := a]> h) s).
Proof. intros H. unfold set_this. rewrite (run_bind_ok _ _ _ _ _ (run_this _ _ _ H)). reflexivity. Qed.

(** ** [playerTouched] *)

(** C4.  [playerTouched("lava", actor)] always returns; when [status] is
    [null] it sets [status] to ["lost"] and [finishDelay] to [1] and
    changes nothing else, and when [status] is already set the state
    after the call is the state before it: status, finishDelay, actors
    and all the rest are unchanged.  So it sets the two fields when and
    only when [status] is [null]. *)
Theorem playerTouched_lava_write_once (actor : option ref) (s : State) :
  Level_playerTouched "lava" actor s =
    inr (tt, match status (level s) with
             | None => set_level (set_finish (Some lost) (Some one)) s
             | Some _ => s
             end)
  /\ (forall s', Level_playerTouched "lava" actor s = inr (tt, s') ->
        vecs s' = vecs s /\ objs s' = objs s
        /\ actors (level s') = actors (level s)
        /\ (status (level s) = None ->
              status (level s') = Some lost /\ finishDelay (level s') = Some one)
        /\ (status (level s) <> None ->
              status (level s') = status (level s)
              /\ finishDelay (level s') = finishDelay (level s))).
Proof.
  assert (E : Level_playerTouched "lava" actor s =
    inr (tt, match status (level s) with
             | None => set_level (set_finish (Some lost) (Some one)) s
             | Some _ => s
             end)).
  { unfold Level_playerTouched. rewrite run_bind, run_gets.
    destruct (status (level s)) as [st|] eqn:Hst; reflexivity. }
  split; [exact E|].
  intros s' H. rewrite E in H. injection H as <-.
  destruct (status (level s)) as [st|] eqn:Hst; simpl.
  - rewrite Hst. repeat split; try reflexivity; intros; congruence.
  - repeat split; try reflexivity; intros; congruence.
Qed.

Lemma some_coin_spec (l : list ref) (s : State) :
  stored s l ->
  exists b, some_coin l s = inr (b, s)
            /\ (b = true <-> exists r, r ∈ l /\ is_coin s r).
Proof.
  induction 1 as [|r l [a Ha] Hl IH]; simpl.
  - exists false. split; [reflexivity|]. split; [discriminate|].
    intros (r & Hr & _). inversion Hr.
  - rewrite (run_bind_ok _ _ _ _ _ (run_this _ _ _ Ha)).
    destruct (decide (actor_type a = "coin")) as [Hc|Hc].
    + exists true. split; [reflexivity|]. split; [|reflexivity].
      intros _. exists r. split; [left|]. exists a. auto.
    + destruct IH as (b & Hb & Hiff). exists b. split; [exact Hb|].
      rewrite Hiff. split.
      * intros (r' & Hr' & Hcoin). exists r'. split; [right|]; assumption.
      * intros (r' & Hr' & Hcoin). apply elem_of_cons in Hr' as [->|Hr'].
        -- destruct Hcoin as (a' & Ha' & Hty). congruence.
        -- exists r'. auto.
Qed.

Lemma filter_remove_once (c : ref) (l1 l2 : list ref) :
  c ∉ l1 -> c ∉ l2 ->
  filter (fun other => Some other ≠ Some c) (l1 ++ c :: l2) = l1 ++ l2.
Proof.
  intros H1 H2. rewrite filter_app, filter_cons_False by (intros H; apply H; reflexivity).
  assert (K : forall l : list ref, c ∉ l ->
            filter (fun other => Some other ≠ Some c) l = l).
  { induction l as [|r l IH]; intros Hc; [reflexivity|].
    apply not_elem_of_cons in Hc as [Hne Hc].
    rewrite filter_cons_True by congruence. f_equal. auto. }
  rewrite !K by assumption. reflexivity.
Qed.

(** C3.  For a coin [c] among the actors of a level, [playerTouched("coin",
    c)] returns and touches no stored object; the new list of actors no
    longer holds [c], holds every other actor it held, in the same order
    (it is what is left of the old list when [c] is taken out); when no
    coin is left in it [status] is ["won"] and [finishDelay] is [1], and
    when a coin is left [status] and [finishDelay] are as before the call
    (so a [null] status stays [null]). *)
Theorem playerTouched_coin_removes (c : ref) (s : State) :
  c ∈ actors (level s) ->
  is_coin s c ->
  stored s (actors (level s)) ->
  exists s',
    Level_playerTouched "coin" (Some c) s = inr (tt, s')
    /\ vecs s' = vecs s /\ objs s' = objs s
    /\ (c ∉ actors (level s'))
    /\ (forall r, r <> c -> r ∈ actors (level s) -> r ∈ actors (level s'))
    /\ sublist (actors (level s')) (actors (level s))
    /\ (forall l1 l2, actors (level s) = l1 ++ c :: l2 -> c ∉ l1 -> c ∉ l2 ->
          actors (level s') = l1 ++ l2)
    /\ ((forall r, r ∈ actors (level s') -> ~ is_coin s' r) ->
          status (level s') = Some won /\ finishDelay (level s') = Some one)
    /\ ((exists r, r ∈ actors (level s') /\ is_coin s' r) ->
          status (level s') = status (level s)
          /\ finishDelay (level s') = finishDelay (level s)
          /\ (status (level s) = None -> status (level s') = None)).
Proof.
  intros Hin Hcoin Hst.
  set (l' := filter (fun other => Some other ≠ Some c) (actors (level s))).
  set (s1 := set_level (set_actors l') s).
  assert (Hst1 : stored s1 l').
  { unfold stored in *. rewrite Forall_forall in *. intros r Hr.
    apply list_elem_of_filter in Hr as [_ Hr]. exact (Hst r Hr). }
  destruct (some_coin_spec l' s1 Hst1) as (b & Hb & Hiff).
  assert (Hrun : Level_playerTouched "coin" (Some c) s =
                 inr (tt, if b then s1
                          else set_level (set_finish (Some won) (Some one)) s1)).
  { unfold Level_playerTouched.
    rewrite run_bind, run_gets. simpl.
    rewrite run_bind, run_modify. fold l'. fold s1.
    rewrite run_bind, run_gets. simpl. rewrite run_bind, Hb.
    destruct b; reflexivity. }
  assert (Hnotin : c ∉ l').
  { intros H. apply list_elem_of_filter in H as [H _]. apply H. reflexivity. }
  assert (Hkeep : forall r, r <> c -> r ∈ actors (level s) -> r ∈ l').
  { intros r Hne Hr. apply list_elem_of_filter. split; [congruence|exact Hr]. }
  assert (Hsub : sublist l' (actors (level s))) by apply sublist_filter.
  assert (Hsplit : forall l1 l2, actors (level s) = l1 ++ c :: l2 ->
                     c ∉ l1 -> c ∉ l2 -> l' = l1 ++ l2).
  { intros l1 l2 E H1 H2. unfold l'. rewrite E. apply filter_remove_once; assumption. }
  destruct b.
  - exists s1. split; [exact Hrun|]. simpl.
    split_and!; try assumption; try reflexivity.
    + intros Hnone. destruct (proj1 Hiff eq_refl) as (r & Hr & Hc).
      exfalso. exact (Hnone r Hr Hc).
    + intros _. split_and!; auto.
  - exists (set_level (set_finish (Some won) (Some one)) s1).
    split; [exact Hrun|]. simpl.
    split_and!; try assumption; try reflexivity.
    + intros _. split; reflexivity.
    + intros (r & Hr & Hc).
      assert (false = true) by (apply Hiff; exists r; auto). discriminate.
Qed.

Lemma playerTouched_coin_removes_witness :
  exists s',
    Level_playerTouched "coin" (Some 1%nat) two_coins = inr (tt, s')
    /\ actors (level s') = [0%nat; 2%nat]
    /\ status (level s') = None.
Proof.
  assert (Hin : 1%nat ∈ actors (level two_coins)) by (right; left).
  assert (Hcoin : is_coin two_coins 1%nat) by (eexists; split; reflexivity).
  assert (Hst : stored two_coins (actors (level two_coins)))
    by (repeat constructor; eexists; reflexivity).
  destruct (playerTouched_coin_removes 1%nat two_coins Hin Hcoin Hst)
    as (s' & Hrun & Hv & Ho & _ & _ & _ & Hsplit & _ & Hleft).
  exists s'. split; [exact Hrun|].
  assert (Ha : actors (level s') = [0%nat; 2%nat]).
  { apply (Hsplit [0%nat] [2%nat] eq_refl).
    - intros H. apply list_elem_of_singleton in H. discriminate H.
    - intros H. apply list_elem_of_singleton in H. discriminate H. }
  split; [exact Ha|].
  apply Hleft; [|reflexivity].
  exists 2%nat. rewrite Ha. split; [right; left|].
  eexists. rewrite Ho. split; reflexivity.
Defined.

Lemma some_coin_pure (l : list ref) (s s' : State) (b : bool) :
  some_coin l s = inr (b, s') -> s' = s.
Proof.
  induction l as [|r l IH]; simpl.
  - intros [= _ <-]. reflexivity.
  - rewrite run_bind. destruct (this r s) as [e|[a s1]] eqn:Et; [discriminate|].
    assert (s1 = s) as ->.
    { unfold this in Et. rewrite run_bind, run_gets in Et.
      destruct (objs s !! r); [|discriminate Et]. injection Et as _ <-.
      reflexivity. }
    destruct (decide (actor_type a = "coin")); [intros [= _ <-]; reflexivity|exact IH].
Qed.

(** A status that is set is never set back to [null] by [playerTouched],
    and ["won"] is never changed: the one change of a set status is from
    ["lost"] to ["won"]. *)
Lemma playerTouched_keeps_won
    (type : string) (actor : option ref) (s s' : State) :
  Level_playerTouched type actor s = inr (tt, s') ->
  (status (level s) <> None -> status (level s') <> None)
  /\ (status (level s) = Some won -> status (level s') = Some won).
Proof.
  unfold Level_playerTouched. rewrite run_bind, run_gets.
  destruct (bool_decide (type = "lava")) eqn:Hlava;
    [destruct (status (level s)) as [st|] eqn:Hst; simpl|simpl].
  - rewrite bool_decide_eq_false_2 by (intros ->; discriminate).
    intros [= <-]. rewrite Hst. auto.
  - intros [= <-]. simpl. split; [congruence|discriminate].
  - destruct (bool_decide (type = "coin")); [|intros [= <-]; auto].
    rewrite run_bind, run_modify, run_bind, run_gets, run_bind.
    destruct (some_coin _ _) as [e|[coins s1]] eqn:E; [discriminate|].
    apply some_coin_pure in E as ->.
    destruct coins; simpl; intros [= <-]; simpl; auto.
Qed.

Lemma playerTouched_keeps_won_witness :
  (status (level sinking) <> None -> status (level sinking) <> None)
  /\ (status (level sinking) = Some won -> status (level sinking) = Some won).
Proof. exact (playerTouched_keeps_won "lava" None sinking sinking eq_refl). Defined.

(** C1.  In the level of the plan [lava_then_coin] the player walks to
    the right into the lava, and the level is lost; it then walks to the
    left, [Player.act] finds the last coin under it and calls
    [playerTouched("coin", coin)], which, unlike the lava branch, does
    not look at [status]: the status of the lost level becomes ["won"]
    and [finishDelay] is set back to [1]. *)
Theorem lost_level_becomes_won :
  exists s0 s1 s2 s3,
    new_Level (fun _ => zero) lava_then_coin initial = inr (tt, s0)
    /\ status (level s0) = None
    /\ Player_act maxStep right_key 1%nat s0 = inr (tt, s1)
    /\ status (level s1) = Some lost
    /\ Player_act maxStep left_key 1%nat s1 = inr (tt, s2)
    /\ status (level s2) = Some won
    /\ finishDelay (level s2) = Some one
    /\ Level_playerTouched "coin" (Some 0%nat) s1 = inr (tt, s3)
    /\ status (level s3) = Some won.
Proof.
  eexists _, _, _, _. split_and!.
  - vm_compute. reflexivity.
  - reflexivity.
  - vm_compute. reflexivity.
  - reflexivity.
  - vm_compute. reflexivity.
  - reflexivity.
  - reflexivity.
  - vm_compute. reflexivity.
  - reflexivity.
Qed.

(** ** [obstacleAt] *)

Lemma scan_x_spec (lv : Level) (row x0 n : nat) :
  (row < length (grid lv))%nat ->
  scan_x (grid lv) row x0 n
  = inr (first_nonempty (map (square lv row) (seq x0 n))).
Proof.
  intros Hrow. apply lookup_lt_is_Some in Hrow as [line Hline].
  revert x0. induction n as [|n IH]; intros x0; simpl; [reflexivity|].
  rewrite Hline. unfold square at 1. rewrite Hline.
  destruct (line !! x0) as [[f|]|]; auto.
Qed.

Lemma first_nonempty_app (l1 l2 : list (option Field)) :
  first_nonempty (l1 ++ l2)
  = match first_nonempty l1 with Some f => Some f | None => first_nonempty l2 end.
Proof. induction l1 as [|[f|] l1 IH]; simpl; auto. Qed.

Lemma scan_y_spec (lv : Level) (y0 n x0 nx : nat) :
  (n <> 0 -> y0 + n <= length (grid lv))%nat ->
  scan_y (grid lv) y0 n x0 nx
  = inr (first_nonempty
           (row ← seq y0 n; col ← seq x0 nx; [square lv row col])).
Proof.
  revert y0. induction n as [|n IH]; intros y0 Hlen; simpl; [reflexivity|].
  specialize (Hlen (Nat.neq_succ_0 n)).
  rewrite scan_x_spec by lia.
  rewrite first_nonempty_app.
  assert (E : (seq x0 nx ≫= fun col => [square lv y0 col])
              = map (square lv y0) (seq x0 nx)).
  { generalize (seq x0 nx). intros l. induction l; simpl; f_equal; auto. }
  rewrite E.
  destruct (first_nonempty (map (square lv y0) (seq x0 nx))); [reflexivity|].
  apply IH. lia.
Qed.

Lemma first_nonempty_all_empty (l : list (option Field)) :
  Forall (fun f => f = None) l -> first_nonempty l = None.
Proof. induction 1 as [|f l -> _ IH]; simpl; auto. Qed.





(** ** Stored vectors *)

Lemma lookup_snoc_new {A : Type} (h : list A) (v : A) :
  (h ++ [v]) !! length h = Some v.
Proof. apply list_lookup_middle. reflexivity. Qed.

Lemma run_Vector_times (l : loc) (f : num) (v : Vector) (s : State) :
  vecs s !! l = Some v ->
  Vector_times l f s
  = inr (length (vecs s), set_vecs (fun h => h ++ [vtimes v f]) s).
Proof.
  intros H. unfold Vector_times.
  rewrite (run_bind_ok _ _ _ _ _ (run_read _ _ _ H)). reflexivity.
Qed.

Lemma run_Vector_plus (a b : loc) (va vb : Vector) (s : State) :
  vecs s !! a = Some va -> vecs s !! b = Some vb ->
  Vector_plus a b s
  = inr (length (vecs s), set_vecs (fun h => h ++ [vplus va vb]) s).
Proof.
  intros Ha Hb. unfold Vector_plus.
  rewrite (run_bind_ok _ _ _ _ _ (run_read _ _ _ Ha)).
  rewrite (run_bind_ok _ _ _ _ _ (run_read _ _ _ Hb)). reflexivity.
Qed.

Lemma run_obstacleAt (pos size : loc) (p sz : Vector) (s : State) :
  vecs s !! pos = Some p -> vecs s !! size = Some sz ->
  Level_obstacleAt pos size s
  = match obstacleAt (level s) p sz with
    | inl e => inl e
    | inr o => inr (o, s)
    end.
Proof.
  intros Hp Hs. unfold Level_obstacleAt.
  rewrite (run_bind_ok _ _ _ _ _ (run_read _ _ _ Hp)).
  rewrite (run_bind_ok _ _ _ _ _ (run_read _ _ _ Hs)).
  rewrite run_bind, run_gets. destruct (obstacleAt (level s) p sz); reflexivity.
Qed.

Lemma run_set_pos (r : ref) (p : loc) (a : Actor) (s : State) :
  objs s !! r = Some a ->
  set_pos r p s = inr (tt, set_objs (fun h => <[r := with_pos p a]> h) s).
Proof.
  intros H. unfold set_pos.
  rewrite (run_bind_ok _ _ _ _ _ (run_this _ _ _ H)).
  apply (run_set_this _ _ _ _ H).
Qed.

Lemma run_set_speed (r : ref) (sp : loc) (a : Actor) (s : State) :
  objs s !! r = Some a ->
  set_speed r sp s = inr (tt, set_objs (fun h => <[r := with_speed sp a]> h) s).
Proof.
  intros H. unfold set_speed.
  rewrite (run_bind_ok _ _ _ _ _ (run_this _ _ _ H)).
  apply (run_set_this _ _ _ _ H).
Qed.

(** ** [Lava.act] *)

(** C6.  [Lava.act] computes the tentative position [pos + speed * step].
    If [obstacleAt] finds nothing there the lava moves to it; if it finds
    something and the lava remembers [repeatPos], the lava's position
    becomes the remembered vector; otherwise the position stays as it is
    and the speed becomes [speed * -1].  In the first two cases the speed
    is unchanged.  Size, [repeatPos] and the level are never changed. *)
Theorem Lava_act_moves_resets_or_bounces
    (step : num) (r : ref) (s : State)
    (P Sz V : loc) (R : option loc) (p sz v : Vector) :
  objs s !! r = Some (Lava P Sz (Some V) R) ->
  vecs s !! P = Some p -> vecs s !! Sz = Some sz -> vecs s !! V = Some v ->
  let newPos := vplus p (vtimes v step) in
  match obstacleAt (level s) newPos sz with
  | inl e => Lava_act step r s = inl e
  | inr obstacle =>
      exists (s' : State) (P' V' : loc),
        Lava_act step r s = inr (tt, s')
        /\ level s' = level s
        /\ objs s' !! r = Some (Lava P' Sz (Some V') R)
        /\ vecs s' !! Sz = Some sz
        /\ match obstacle, R with
           | None, _ =>
               vecs s' !! P' = Some newPos /\ vecs s' !! V' = Some v
           | Some _, Some repeatPos =>
               P' = repeatPos
               /\ (forall q, vecs s !! repeatPos = Some q ->
                     vecs s' !! P' = Some q)
               /\ vecs s' !! V' = Some v
           | Some _, None =>
               vecs s' !! P' = Some p
               /\ vecs s' !! V' = Some (vtimes v (of_Z (-1)))
           end
  end.
Proof.
  intros Hr HP HS HV newPos.
  set (s1 := set_vecs (fun h => h ++ [vtimes v step]) s).
  set (s2 := set_vecs (fun h => h ++ [newPos]) s1).
  assert (Hrun : Lava_act step r s =
    (obstacle ← Level_obstacleAt (S (length (vecs s))) Sz;
     match obstacle with
     | None => set_pos r (S (length (vecs s)))
     | Some _ =>
         match R with
         | Some repeatPos => set_pos r repeatPos
         | None => sp' ← Vector_times V (of_Z (-1)); set_speed r sp'
         end
     end) s2).
  { unfold Lava_act.
    rewrite (run_bind_ok _ _ _ _ _ (run_this _ _ _ Hr)). simpl get_speed.
    rewrite run_bind, run_ret.
    rewrite (run_bind_ok _ _ _ _ _ (run_Vector_times _ _ _ _ HV)). fold s1.
    assert (HP1 : vecs s1 !! P = Some p) by (apply lookup_app_l_Some, HP).
    assert (Hm : vecs s1 !! length (vecs s) = Some (vtimes v step))
      by apply lookup_snoc_new.
    simpl actor_pos.
    rewrite (run_bind_ok _ _ _ _ _ (run_Vector_plus _ _ _ _ _ HP1 Hm)).
    replace (length (vecs s1)) with (S (length (vecs s)))
      by (simpl; rewrite length_app; simpl; lia).
    reflexivity. }
  assert (Hlen2 : length (vecs s2) = S (S (length (vecs s))))
    by (simpl; rewrite !length_app; simpl; lia).
  assert (old : forall l q, vecs s !! l = Some q -> vecs s2 !! l = Some q).
  { intros l q H. simpl. apply lookup_app_l_Some, lookup_app_l_Some, H. }
  assert (Hnew : vecs s2 !! S (length (vecs s)) = Some newPos).
  { simpl. replace (S (length (vecs s))) with (length (vecs s ++ [vtimes v step]))
      by (rewrite length_app; simpl; lia).
    apply lookup_snoc_new. }
  rewrite Hrun, run_bind, (run_obstacleAt _ _ _ _ _ Hnew (old _ _ HS)).
  change (level s2) with (level s).
  destruct (obstacleAt (level s) newPos sz) as [e|[f|]]; [reflexivity| |].
  - destruct R as [repeatPos|].
    + eexists _, repeatPos, V. split; [apply (run_set_pos _ _ _ s2 Hr)|].
      simpl. split_and!; auto.
      apply list_lookup_insert_eq. eapply lookup_lt_Some, Hr.
    + rewrite (run_bind_ok _ _ _ _ _ (run_Vector_times _ _ _ _ (old _ _ HV))).
      eexists _, P, (length (vecs s2)).
      split; [apply run_set_speed; exact Hr|].
      simpl. split_and!; auto.
      * apply list_lookup_insert_eq. eapply lookup_lt_Some, Hr.
      * apply lookup_app_l_Some, (old _ _ HS).
      * apply lookup_app_l_Some, (old _ _ HP).
      * apply (lookup_snoc_new ((vecs s ++ [vtimes v step]) ++ [newPos])).
  - eexists _, (S (length (vecs s))), V.
    split; [apply (run_set_pos _ _ _ s2 Hr)|].
    simpl. split_and!; auto.
    apply list_lookup_insert_eq. eapply lookup_lt_Some, Hr.
Qed.

Lemma Lava_act_moves_resets_or_bounces_witness :
  exists s',
    Lava_act maxStep 0%nat lava_above_floor = inr (tt, s')
    /\ pos_of s' 0%nat = Some (mkVector one zero)
    /\ speed_of s' 0%nat = Some (mkVector zero (of_Z 3)).
Proof.
  pose proof (Lava_act_moves_resets_or_bounces maxStep 0%nat lava_above_floor
                1%nat 2%nat 3%nat (Some 0%nat) _ _ _
                eq_refl eq_refl eq_refl eq_refl) as H.
  vm_compute in H.
  destruct H as (s' & P' & V' & Hrun & _).
  exists s'. split; [exact Hrun|].
  injection Hrun as <-. split; reflexivity.
Defined.

(** ** [Player.moveY] *)

(** A square of the background touches the level only: ["wall"] changes
    nothing, and ["lava"] loses a level in progress. *)
Lemma run_playerTouched_field (f : Field) (s : State) :
  exists s', Level_playerTouched (field_name f) None s = inr (tt, s')
             /\ vecs s' = vecs s /\ objs s' = objs s
             /\ level s' = (if bool_decide (f = lava)
                                && bool_decide (status (level s) = None)
                            then set_finish (Some lost) (Some one) (level s)
                            else level s).
Proof.
  unfold Level_playerTouched. rewrite run_bind, run_gets.
  destruct f; simpl.
  - exists s. auto.
  - destruct (status (level s)); simpl; eexists; (split; [reflexivity|]); auto.
Qed.



(** ** [actorAt] *)

Lemma flt_irrefl (a : num) : flt a a = false.
Proof.
  unfold flt, SFltb, SFcompare.
  destruct a as [s|[]| |[] m e]; try reflexivity;
    rewrite Z.compare_refl, Pos.compare_cont_refl; reflexivity.
Qed.

(** Boxes whose edges only touch do not overlap. *)
Lemma overlaps_needs_more_than_an_edge (ap asz op osz : Vector) :
  fadd (x ap) (x asz) = x op \/ x ap = fadd (x op) (x osz)
  \/ fadd (y ap) (y asz) = y op \/ y ap = fadd (y op) (y osz) ->
  overlaps ap asz op osz = false.
Proof.
  unfold overlaps, fgt.
  intros [-> | [-> | [-> | ->]]]; rewrite flt_irrefl;
    rewrite ?andb_false_r; reflexivity.
Qed.

(** [actorAt(actor)] returns the first actor of the list, other than
    [actor], whose box overlaps the box of [actor], and nothing when
    there is none; it changes nothing. *)
Lemma actorAt_first_overlap (actor : ref) (s : State) :
  is_Some (box_of s actor) ->
  Forall (fun r => is_Some (box_of s r)) (actors (level s)) ->
  Level_actorAt actor s
  = inr (head (filter (fun other => other <> actor /\ touches s actor other = true)
                 (actors (level s))), s).
Proof.
  intros [[ap asz] Hbox] Hall. unfold Level_actorAt.
  rewrite run_bind, run_gets. cbn beta iota.
  induction Hall as [|other rest [[op osz] Hob] _ IH]; [reflexivity|].
  cbn [actorAt_from].
  destruct (decide (other = actor)) as [->|Hne].
  - rewrite filter_cons_False by (intros [H _]; congruence). exact IH.
  - unfold box_of in Hbox, Hob.
    destruct (objs s !! actor) as [a|] eqn:Ha; [|discriminate].
    destruct (objs s !! other) as [o|] eqn:Ho; [|discriminate].
    cbn in Hbox, Hob.
    destruct (vecs s !! actor_pos a) as [ap'|] eqn:Hap; [|discriminate].
    destruct (vecs s !! actor_size a) as [asz'|] eqn:Has; [|discriminate].
    destruct (vecs s !! actor_pos o) as [op'|] eqn:Hop; [|discriminate].
    destruct (vecs s !! actor_size o) as [osz'|] eqn:Hos; [|discriminate].
    cbn in Hbox, Hob. injection Hbox as -> ->. injection Hob as -> ->.
    rewrite (run_bind_ok _ _ _ _ _ (run_this _ _ _ Ha)).
    rewrite (run_bind_ok _ _ _ _ _ (run_this _ _ _ Ho)).
    rewrite (run_bind_ok _ _ _ _ _ (run_read _ _ _ Hap)).
    rewrite (run_bind_ok _ _ _ _ _ (run_read _ _ _ Has)).
    rewrite (run_bind_ok _ _ _ _ _ (run_read _ _ _ Hop)).
    rewrite (run_bind_ok _ _ _ _ _ (run_read _ _ _ Hos)).
    assert (Et : touches s actor other = overlaps ap asz op osz).
    { unfold touches, box_of. rewrite Ha, Ho. cbn. rewrite Hap, Has, Hop, Hos.
      reflexivity. }
    destruct (overlaps ap asz op osz) eqn:Eo.
    + rewrite filter_cons_True by (split; assumption). reflexivity.
    + rewrite filter_cons_False by (intros [_ H]; congruence). exact IH.
Qed.

Lemma actorAt_first_overlap_witness :
  Level_actorAt 0%nat two_coins = inr (Some 1%nat, two_coins).
Proof.
  rewrite (actorAt_first_overlap 0%nat two_coins).
  - reflexivity.
  - eexists. reflexivity.
  - repeat constructor; eexists; reflexivity.
Defined.

(** ** [Player.moveX] *)

(** [Player.moveX] sets the horizontal speed to [0], minus
    [playerXSpeed] when [left] is held, plus [playerXSpeed] when [right]
    is held, and tries the position [pos + (speed.x * step, 0)].  On an
    obstacle the position stays as it is and the level is what
    [playerTouched(obstacle)] makes of it; otherwise the position becomes
    the tentative one, a new vector, and the level is unchanged.  The
    vertical speed is not changed. *)
Lemma Player_moveX_walk_or_stop
    (step : num) (keys : Keys) (r : ref) (s : State)
    (P Sz V : loc) (p sz v : Vector) :
  objs s !! r = Some (Player P Sz V) ->
  vecs s !! P = Some p -> vecs s !! Sz = Some sz -> vecs s !! V = Some v ->
  V <> P -> V <> Sz ->
  let vx := walking_speed keys in
  let newPos := vplus p (mkVector (fmul vx step) zero) in
  match obstacleAt (level s) newPos sz with
  | inl e => Player_moveX step keys r s = inl e
  | inr (Some f) =>
      exists s' s_touched : State,
        Player_moveX step keys r s = inr (tt, s')
        /\ objs s' = objs s
        /\ vecs s' !! P = Some p
        /\ vecs s' !! Sz = Some sz
        /\ vecs s' !! V = Some (mkVector vx (y v))
        /\ Level_playerTouched (field_name f) None s = inr (tt, s_touched)
        /\ level s' = level s_touched
  | inr None =>
      exists (s' : State) (P' : loc),
        Player_moveX step keys r s = inr (tt, s')
        /\ objs s' !! r = Some (Player P' Sz V)
        /\ vecs s !! P' = None
        /\ vecs s' !! P' = Some newPos
        /\ vecs s' !! Sz = Some sz
        /\ vecs s' !! V = Some (mkVector vx (y v))
        /\ level s' = level s
  end.
Proof.
  intros Hr HP HS HV HVP HVS vx newPos.
  set (v' := mkVector vx (y v)).
  assert (HVlt : (V < length (vecs s))%nat) by (eapply lookup_lt_Some, HV).
  (* the three assignments to [speed.x] *)
  assert (Hspeed : exists s1,
            (update_x V (fun _ => zero);;
             when (left keys) (update_x V (fun w => fsub w playerXSpeed));;
             when (right keys) (update_x V (fun w => fadd w playerXSpeed))) s
            = inr (tt, s1)
            /\ vecs s1 = <[V := v']> (vecs s) /\ objs s1 = objs s
            /\ level s1 = level s).
  { assert (U : forall (f : num -> num) (t : State) (w : Vector),
              vecs t !! V = Some w ->
              update_x V f t
              = inr (tt, set_vecs (fun h => <[V := mkVector (f (x w)) (y w)]> h) t)).
    { intros f t w Hw. unfold update_x.
      rewrite (run_bind_ok _ _ _ _ _ (run_read _ _ _ Hw)).
      apply (run_write _ _ _ _ Hw). }
    rewrite (run_bind_ok _ _ _ _ _ (U _ _ _ HV)).
    set (t1 := set_vecs _ s).
    assert (H1 : vecs t1 !! V = Some (mkVector zero (y v)))
      by (apply list_lookup_insert_eq, HVlt).
    unfold v', vx, walking_speed.
    destruct (left keys), (right keys); cbn [when].
    - rewrite (run_bind_ok _ _ _ _ _ (U _ _ _ H1)).
      set (t2 := set_vecs _ t1).
      assert (H2 : vecs t2 !! V = Some (mkVector (fsub zero playerXSpeed) (y v))).
      { apply list_lookup_insert_eq. simpl. rewrite length_insert. exact HVlt. }
      rewrite (U _ _ _ H2). eexists. split; [reflexivity|].
      simpl. rewrite !list_insert_insert_eq. auto.
    - rewrite (run_bind_ok _ _ _ _ _ (U _ _ _ H1)).
      rewrite run_ret. eexists. split; [reflexivity|].
      simpl. rewrite !list_insert_insert_eq. auto.
    - rewrite run_bind, run_ret.
      rewrite (U _ _ _ H1). eexists. split; [reflexivity|].
      simpl. rewrite !list_insert_insert_eq. auto.
    - rewrite run_bind, run_ret, run_ret. eexists. split; [reflexivity|].
      simpl. auto. }
  destruct Hspeed as (s1 & Hs1 & Hv1 & Ho1 & Hl1).
  set (s2 := set_vecs (fun h => h ++ [mkVector (fmul vx step) zero]) s1).
  set (s3 := set_vecs (fun h => h ++ [newPos]) s2).
  assert (H1V : vecs s1 !! V = Some v')
    by (rewrite Hv1; apply list_lookup_insert_eq, HVlt).
  assert (H1 : forall l q, l <> V -> vecs s !! l = Some q -> vecs s1 !! l = Some q).
  { intros l q Hne H. rewrite Hv1, list_lookup_insert_ne by congruence. exact H. }
  assert (Hlen1 : length (vecs s1) = length (vecs s))
    by (rewrite Hv1; apply length_insert).
  assert (H3 : forall l q, vecs s1 !! l = Some q -> vecs s3 !! l = Some q).
  { intros l q H. simpl. apply lookup_app_l_Some, lookup_app_l_Some, H. }
  assert (Hnew : vecs s3 !! S (length (vecs s)) = Some newPos).
  { simpl. rewrite <- Hlen1.
    replace (S (length (vecs s1)))
      with (length (vecs s1 ++ [mkVector (fmul vx step) zero]))
      by (rewrite length_app; simpl; lia).
    apply lookup_snoc_new. }
  assert (Hr3 : objs s3 !! r = Some (Player P Sz V)) by (simpl; rewrite Ho1; exact Hr).
  assert (Hrun : Player_moveX step keys r s =
    (obstacle ← Level_obstacleAt (S (length (vecs s))) Sz;
     match obstacle with
     | Some f => Level_playerTouched (field_name f) None
     | None => set_pos r (S (length (vecs s)))
     end) s3).
  { unfold Player_moveX.
    rewrite (run_bind_ok _ _ _ _ _ (run_this _ _ _ Hr)). simpl get_speed.
    rewrite run_bind, run_ret.
    rewrite run_bind. rewrite run_bind in Hs1.
    destruct (update_x V (fun _ => zero) s) as [e|[[] t1]]; [discriminate Hs1|].
    rewrite run_bind. rewrite run_bind in Hs1.
    destruct (when (left keys) _ t1) as [e|[[] t2]]; [discriminate Hs1|].
    rewrite run_bind, Hs1.
    rewrite (run_bind_ok _ _ _ _ _ (run_read _ _ _ H1V)).
    unfold new_Vector. rewrite run_bind, run_alloc. fold s2. simpl actor_pos.
    assert (HP2 : vecs s2 !! P = Some p) by (apply lookup_app_l_Some, H1; auto).
    assert (Hm : vecs s2 !! length (vecs s1) = Some (mkVector (fmul vx step) zero))
      by apply lookup_snoc_new.
    rewrite (run_bind_ok _ _ _ _ _ (run_Vector_plus _ _ _ _ _ HP2 Hm)).
    replace (length (vecs s2)) with (S (length (vecs s)))
      by (simpl; rewrite length_app, Hlen1; simpl; lia).
    reflexivity. }
  rewrite Hrun, run_bind.
  rewrite (run_obstacleAt _ _ _ _ _ Hnew (H3 _ _ (H1 _ _ (not_eq_sym HVS) HS))).
  change (level s3) with (level s1). rewrite Hl1.
  destruct (obstacleAt (level s) newPos sz) as [e|[f|]]; [reflexivity| |].
  - destruct (run_playerTouched_field f s3) as (s4 & Ht & Hv4 & Ho4 & Hl4).
    destruct (run_playerTouched_field f s) as (s_t & Hts & _ & _ & Hlt).
    exists s4, s_t. split; [exact Ht|]. split_and!.
    + rewrite Ho4. simpl. exact Ho1.
    + rewrite Hv4. apply H3, H1; auto.
    + rewrite Hv4. apply H3, H1; auto.
    + rewrite Hv4. apply H3, H1V.
    + exact Hts.
    + rewrite Hl4, Hlt. change (level s3) with (level s1). rewrite Hl1. reflexivity.
  - eexists _, (S (length (vecs s))).
    split; [apply (run_set_pos _ _ _ s3 Hr3)|]. simpl.
    split_and!.
    + rewrite Ho1. apply list_lookup_insert_eq. eapply lookup_lt_Some, Hr.
    + apply lookup_ge_None_2. lia.
    + exact Hnew.
    + apply (H3 _ _ (H1 _ _ (not_eq_sym HVS) HS)).
    + apply (H3 _ _ H1V).
    + exact Hl1.
Qed.

Lemma Player_moveX_walk_or_stop_witness :
  exists s',
    Player_moveX maxStep right_key 0%nat standing_on_floor = inr (tt, s')
    /\ pos_of s' 0%nat
       = Some (mkVector (fadd one (fmul playerXSpeed maxStep)) (decimal 5 10))
    /\ speed_of s' 0%nat = Some (mkVector playerXSpeed zero).
Proof.
  pose proof (Player_moveX_walk_or_stop maxStep right_key 0%nat
                standing_on_floor 0%nat 1%nat 2%nat _ _ _
                eq_refl eq_refl eq_refl eq_refl) as H.
  assert (H20 : 2%nat <> 0%nat) by discriminate.
  assert (H21 : 2%nat <> 1%nat) by discriminate.
  specialize (H H20 H21).
  vm_compute in H.
  destruct H as (s' & P' & Hrun & _).
  exists s'. split; [exact Hrun|].
  injection Hrun as <-. split; reflexivity.
Defined.

(** ** Which stored vectors a method overwrites *)

Section FrameRules.

Variables (n : nat) (L : list loc) (self : ref) (fields : Actor -> list loc).

Local Abbreviation owned := (owned n L).
Local Abbreviation inv := (inv n L self fields).
Local Abbreviation keeps := (keeps n L).
Local Abbreviation frames := (frames n L self fields).

Lemma keeps_refl (s : State) : keeps s s.
Proof. intros l v _ _ H. exact H. Qed.

Lemma keeps_trans (s1 s2 s3 : State) : keeps s1 s2 -> keeps s2 s3 -> keeps s1 s3.
Proof. intros H12 H23 l v Hl Hn H. apply H23, H12; assumption. Qed.

(** A computation that leaves the state as it is. *)
Lemma frames_pure {A : Type} (m : M A) :
  (forall s a s', m s = inr (a, s') -> s' = s) -> frames m.
Proof.
  intros Hm s a s' Hinv H. apply Hm in H as ->. split; [exact Hinv|apply keeps_refl].
Qed.

Lemma frames_ret {A : Type} (a : A) : frames (mret a).
Proof. apply frames_pure. intros s b s' H. injection H as _ <-. reflexivity. Qed.

Lemma frames_throw {A : Type} (e : Err) : frames (throw e : M A).
Proof. intros s a s' _ H. discriminate H. Qed.

Lemma frames_gets {A : Type} (f : State -> A) : frames (gets f).
Proof. apply frames_pure. intros s b s' H. injection H as _ <-. reflexivity. Qed.

(** The rule for [x ← m; k x], where [Q] holds of what [m] returns. *)
Lemma frames_bind {A B : Type} (Q : A -> Prop) (m : M A) (k : A -> M B) :
  frames m ->
  (forall s a s', inv s -> m s = inr (a, s') -> Q a) ->
  (forall a, Q a -> frames (k a)) ->
  frames (m ≫= k).
Proof.
  intros Hm HQ Hk s b s' Hinv H. rewrite run_bind in H.
  destruct (m s) as [e|[a s1]] eqn:E; [discriminate H|].
  destruct (Hm _ _ _ Hinv E) as [Hinv1 K1].
  destruct (Hk a (HQ _ _ _ Hinv E) _ _ _ Hinv1 H) as [Hinv2 K2].
  split; [exact Hinv2|]. exact (keeps_trans _ _ _ K1 K2).
Qed.

Lemma frames_seq {A B : Type} (m : M A) (k : A -> M B) :
  frames m -> (forall a, frames (k a)) -> frames (m ≫= k).
Proof. intros Hm Hk. apply (frames_bind (fun _ => True)); auto. Qed.

Lemma frames_when (b : bool) (m : M unit) : frames m -> frames (when b m).
Proof. destruct b; [auto|intros _; apply frames_ret]. Qed.

Lemma frames_read (l : loc) : frames (read l).
Proof.
  apply frames_pure. intros s v s' H. unfold read in H.
  rewrite run_bind, run_gets in H. destruct (vecs s !! l); [|discriminate H].
  injection H as _ <-. reflexivity.
Qed.

Lemma frames_this (r : ref) : frames (this r).
Proof.
  apply frames_pure. intros s v s' H. unfold this in H.
  rewrite run_bind, run_gets in H. destruct (objs s !! r); [|discriminate H].
  injection H as _ <-. reflexivity.
Qed.

Lemma this_self_owned (s : State) (a : Actor) (s' : State) :
  inv s -> this self s = inr (a, s') -> Forall owned (fields a).
Proof.
  intros [_ Hinv] H. apply Hinv. unfold this in H.
  rewrite run_bind, run_gets in H. destruct (objs s !! self); [|discriminate H].
  injection H as <- _. reflexivity.
Qed.

(** A change of the level touches neither store. *)
Lemma frames_set_level (f : Level -> Level) : frames (modify (set_level f)).
Proof.
  intros s a s' [Hn Hinv] H. injection H as _ <-.
  split; [split; assumption|]. intros l v _ _ Hl. exact Hl.
Qed.

(** A new vector is owned. *)
Lemma frames_alloc (v : Vector) : frames (alloc v).
Proof.
  intros s l s' [Hn Hinv] H. rewrite run_alloc in H. injection H as _ <-.
  split; [split|].
  - simpl. rewrite length_app. lia.
  - exact Hinv.
  - intros l' v' _ _ Hl. simpl. apply lookup_app_l_Some, Hl.
Qed.

Lemma alloc_owned (v : Vector) (s : State) (l : loc) (s' : State) :
  inv s -> alloc v s = inr (l, s') -> owned l.
Proof.
  intros [Hn _] H. rewrite run_alloc in H. injection H as <- _. right. exact Hn.
Qed.

Lemma frames_Vector_plus (a b : loc) : frames (Vector_plus a b).
Proof.
  unfold Vector_plus. apply frames_seq; [apply frames_read|intros va].
  apply frames_seq; [apply frames_read|intros vb]. apply frames_alloc.
Qed.

Lemma frames_Vector_times (a : loc) (f : num) : frames (Vector_times a f).
Proof.
  unfold Vector_times. apply frames_seq; [apply frames_read|intros va].
  apply frames_alloc.
Qed.

Lemma bind_read_result {A : Type} (l : loc) (k : Vector -> M A)
    (s s' : State) (a : A) :
  (read l ≫= k) s = inr (a, s') ->
  exists v, vecs s !! l = Some v /\ k v s = inr (a, s').
Proof.
  intros H. rewrite run_bind in H. unfold read in H.
  rewrite run_bind, run_gets in H.
  destruct (vecs s !! l) as [v|]; [|discriminate H]. exists v. auto.
Qed.

Lemma Vector_plus_owned (a b : loc) (s : State) (l : loc) (s' : State) :
  inv s -> Vector_plus a b s = inr (l, s') -> owned l.
Proof.
  intros Hinv H. unfold Vector_plus in H.
  apply bind_read_result in H as (va & _ & H).
  apply bind_read_result in H as (vb & _ & H).
  exact (alloc_owned _ _ _ _ Hinv H).
Qed.

Lemma Vector_times_owned (a : loc) (f : num) (s : State) (l : loc) (s' : State) :
  inv s -> Vector_times a f s = inr (l, s') -> owned l.
Proof.
  intros Hinv H. unfold Vector_times in H.
  apply bind_read_result in H as (va & _ & H).
  exact (alloc_owned _ _ _ _ Hinv H).
Qed.

(** Only an owned vector may be overwritten. *)
Lemma frames_write (l : loc) (v : Vector) : owned l -> frames (write l v).
Proof.
  intros Hl s a s' [Hn Hinv] H. unfold write in H.
  apply bind_read_result in H as (w & Hw & H). injection H as _ <-.
  split; [split|].
  - simpl. rewrite length_insert. exact Hn.
  - exact Hinv.
  - intros l' v' Hl' Hlt H'. simpl. rewrite list_lookup_insert_ne; [exact H'|].
    intros ->. destruct Hl as [Hl|Hl]; [exact (Hl' Hl)|lia].
Qed.

Lemma frames_update_x (l : loc) (f : num -> num) : owned l -> frames (update_x l f).
Proof.
  intros Hl. unfold update_x. apply frames_seq; [apply frames_read|intros v].
  apply frames_write, Hl.
Qed.

Lemma frames_update_y (l : loc) (f : num -> num) : owned l -> frames (update_y l f).
Proof.
  intros Hl. unfold update_y. apply frames_seq; [apply frames_read|intros v].
  apply frames_write, Hl.
Qed.

(** A field of [self] may only come to name owned vectors. *)
Lemma frames_set_this (r : ref) (a : Actor) :
  (r = self -> Forall owned (fields a)) -> frames (set_this r a).
Proof.
  intros Ha s u s' [Hn Hinv] H. unfold set_this in H.
  rewrite run_bind in H. destruct (this r s) as [e|[b s1]] eqn:E; [discriminate H|].
  unfold this in E. rewrite run_bind, run_gets in E.
  destruct (objs s !! r) as [b'|] eqn:Hr; [|discriminate E].
  injection E as <- <-. injection H as _ <-.
  split; [split|intros l v _ _ Hl; exact Hl].
  - exact Hn.
  - intros a'. simpl. destruct (decide (r = self)) as [->|Hne].
    + rewrite list_lookup_insert_eq by (eapply lookup_lt_Some, Hr).
      intros [= <-]. auto.
    + rewrite list_lookup_insert_ne by exact Hne. apply Hinv.
Qed.

Lemma frames_obstacleAt (pos size : loc) : frames (Level_obstacleAt pos size).
Proof.
  unfold Level_obstacleAt.
  apply frames_seq; [apply frames_read|intros p].
  apply frames_seq; [apply frames_read|intros sz].
  apply frames_seq; [apply frames_gets|intros lv].
  destruct (obstacleAt lv p sz); [apply frames_throw|apply frames_ret].
Qed.

Lemma frames_some_coin (l : list ref) : frames (some_coin l).
Proof.
  induction l as [|r l IH]; simpl; [apply frames_ret|].
  apply frames_seq; [apply frames_this|intros a].
  destruct (decide (actor_type a = "coin")); [apply frames_ret|exact IH].
Qed.

Lemma frames_playerTouched (type : string) (actor : option ref) :
  frames (Level_playerTouched type actor).
Proof.
  unfold Level_playerTouched.
  apply frames_seq; [apply frames_gets|intros lv].
  destruct (bool_decide (type = "lava") && bool_decide (status lv = None));
    [apply frames_set_level|].
  destruct (bool_decide (type = "coin")); [|apply frames_ret].
  apply frames_seq; [apply frames_set_level|intros _].
  apply frames_seq; [apply frames_gets|intros l].
  apply frames_seq; [apply frames_some_coin|intros coins].
  apply frames_when, frames_set_level.
Qed.

Lemma frames_actorAt_from (actor : ref) (others : list ref) :
  frames (actorAt_from actor others).
Proof.
  induction others as [|other rest IH]; simpl; [apply frames_ret|].
  destruct (decide (other = actor)); [exact IH|].
  do 2 (apply frames_seq; [apply frames_this|intros ?]).
  do 4 (apply frames_seq; [apply frames_read|intros ?]).
  destruct (overlaps _ _ _ _); [apply frames_ret|exact IH].
Qed.

Lemma frames_actorAt (actor : ref) : frames (Level_actorAt actor).
Proof.
  unfold Level_actorAt. apply frames_seq; [apply frames_gets|intros l].
  apply frames_actorAt_from.
Qed.

Lemma frames_touch (other : option ref) : frames (touch other).
Proof.
  destruct other as [other|]; simpl; [|apply frames_ret].
  apply frames_seq; [apply frames_this|intros o]. apply frames_playerTouched.
Qed.

Lemma this_owned (r : ref) (s : State) (a : Actor) (s' : State) :
  inv s -> this r s = inr (a, s') -> r = self -> Forall owned (fields a).
Proof. intros Hinv H ->. exact (this_self_owned _ _ _ Hinv H). Qed.

Lemma frames_set_pos (r : ref) (p : loc) :
  (forall a, Forall owned (fields a) -> Forall owned (fields (with_pos p a))) ->
  frames (set_pos r p).
Proof.
  intros Hp. unfold set_pos.
  apply (frames_bind (fun a => r = self -> Forall owned (fields a)));
    [apply frames_this|apply this_owned|].
  intros a Ha. apply frames_set_this. auto.
Qed.

Lemma frames_set_speed (r : ref) (sp : loc) :
  (forall a, Forall owned (fields a) -> Forall owned (fields (with_speed sp a))) ->
  frames (set_speed r sp).
Proof.
  intros Hp. unfold set_speed.
  apply (frames_bind (fun a => r = self -> Forall owned (fields a)));
    [apply frames_this|apply this_owned|].
  intros a Ha. apply frames_set_this. auto.
Qed.

(** [moveX] and [moveY] overwrite the speed of [self] and give it a
    new position. *)
Hypothesis fields_speed : forall a sp, sp ∈ speed_field a -> sp ∈ fields a.
Hypothesis fields_pos : forall a p,
  owned p -> Forall owned (fields a) -> Forall owned (fields (with_pos p a)).

Lemma get_speed_owned (a : Actor) (s : State) (sp : loc) (s' : State) :
  Forall owned (fields a) -> get_speed a s = inr (sp, s') -> owned sp.
Proof.
  intros Ha H. rewrite Forall_forall in Ha. apply Ha, fields_speed.
  destruct a as [? ? sp'|? ? [sp'|] ?|]; try discriminate H;
    injection H as <- _; left.
Qed.

Lemma frames_get_speed (a : Actor) : frames (get_speed a).
Proof.
  destruct a as [? ? sp'|? ? [sp'|] ?|]; simpl;
    first [apply frames_ret|apply frames_throw].
Qed.

Lemma frames_moveX (step : num) (keys : Keys) : frames (Player_moveX step keys self).
Proof.
  unfold Player_moveX.
  apply (frames_bind (fun a => Forall owned (fields a)));
    [apply frames_this|apply this_self_owned|intros a Ha].
  apply (frames_bind owned);
    [apply frames_get_speed|intros ? ? ? _; apply get_speed_owned, Ha|intros sp Hsp].
  apply frames_seq; [apply frames_update_x, Hsp|intros _].
  apply frames_seq; [apply frames_when, frames_update_x, Hsp|intros _].
  apply frames_seq; [apply frames_when, frames_update_x, Hsp|intros _].
  apply frames_seq; [apply frames_read|intros v].
  apply frames_seq; [apply frames_alloc|intros motion].
  apply (frames_bind owned);
    [apply frames_Vector_plus|apply Vector_plus_owned|intros newPos Hnew].
  apply frames_seq; [apply frames_obstacleAt|intros [f|]].
  - apply frames_playerTouched.
  - apply frames_set_pos. intros b. apply fields_pos, Hnew.
Qed.

Lemma frames_moveY (step : num) (keys : Keys) : frames (Player_moveY step keys self).
Proof.
  unfold Player_moveY.
  apply (frames_bind (fun a => Forall owned (fields a)));
    [apply frames_this|apply this_self_owned|intros a Ha].
  apply (frames_bind owned);
    [apply frames_get_speed|intros ? ? ? _; apply get_speed_owned, Ha|intros sp Hsp].
  apply frames_seq; [apply frames_update_y, Hsp|intros _].
  apply frames_seq; [apply frames_read|intros v].
  apply frames_seq; [apply frames_alloc|intros motion].
  apply (frames_bind owned);
    [apply frames_Vector_plus|apply Vector_plus_owned|intros newPos Hnew].
  apply frames_seq; [apply frames_obstacleAt|intros [f|]].
  - apply frames_seq; [apply frames_playerTouched|intros _].
    apply frames_seq; [apply frames_read|intros w].
    destruct (up keys && fgt (y w) zero); apply frames_update_y, Hsp.
  - apply frames_set_pos. intros b. apply fields_pos, Hnew.
Qed.

(** [act] also overwrites the position and the size of [self]. *)
Hypothesis fields_all : forall a, actor_pos a ∈ fields a /\ actor_size a ∈ fields a.

Lemma frames_Player_act (step : num) (keys : Keys) :
  frames (Player_act step keys self).
Proof.
  unfold Player_act.
  apply frames_seq; [apply frames_moveX|intros _].
  apply frames_seq; [apply frames_moveY|intros _].
  apply frames_seq; [apply frames_actorAt|intros other].
  apply frames_seq; [apply frames_touch|intros _].
  apply frames_seq; [apply frames_gets|intros lv].
  apply frames_when.
  apply (frames_bind (fun a => Forall owned (fields a)));
    [apply frames_this|apply this_self_owned|intros a Ha].
  rewrite Forall_forall in Ha. destruct (fields_all a) as [Hp Hs].
  apply frames_seq; [apply frames_update_y; auto|intros _].
  apply frames_update_y; auto.
Qed.

End FrameRules.

(** What [frames] gives for a method started in [s]. *)
Lemma frames_keeps_vectors {A : Type} (L : list loc) (self : ref)
    (fields : Actor -> list loc) (m : M A) (s s' : State) (a : A) :
  frames (length (vecs s)) L self fields m ->
  (forall b, objs s !! self = Some b -> Forall (fun l => l ∈ L) (fields b)) ->
  m s = inr (a, s') ->
  keeps_vectors_except L s s'.
Proof.
  intros Hm Hself Hrun l v Hl Hv.
  assert (Hinv : inv (length (vecs s)) L self fields s).
  { split; [reflexivity|]. intros b Hb. specialize (Hself b Hb).
    rewrite Forall_forall in *. intros l' Hl'. left. auto. }
  destruct (Hm _ _ _ Hinv Hrun) as [_ K].
  apply K; [exact Hl| |exact Hv]. eapply lookup_lt_Some, Hv.
Qed.

Lemma frames_Lava_act (n : nat) (self : ref) (step : num) :
  frames n [] self no_field (Lava_act step self).
Proof.
  unfold Lava_act.
  apply frames_seq; [apply frames_this|intros a].
  apply frames_seq;
    [destruct a as [? ? ?|? ? [?|] ?|]; simpl;
       first [apply frames_ret|apply frames_throw]|intros sp].
  apply frames_seq; [apply frames_Vector_times|intros motion].
  apply frames_seq; [apply frames_Vector_plus|intros newPos].
  apply frames_seq; [apply frames_obstacleAt|intros [f|]].
  - destruct (get_repeatPos a) as [rp|].
    + apply frames_set_pos. intros; constructor.
    + apply frames_seq; [apply frames_Vector_times|intros sp'].
      apply frames_set_speed. intros; constructor.
  - apply frames_set_pos. intros; constructor.
Qed.

Lemma frames_Coin_act (Math_sin : num -> num) (n : nat) (self : ref) (step : num) :
  frames n [] self no_field (Coin_act Math_sin step self).
Proof.
  unfold Coin_act.
  apply frames_seq; [apply frames_this|intros a].
  destruct a as [| |basePos pos size wobble]; try apply frames_throw.
  apply frames_seq; [apply frames_alloc|intros off].
  apply frames_seq; [apply frames_Vector_plus|intros pos'].
  apply frames_set_this. intros; constructor.
Qed.

Lemma speed_field_with_pos (p : loc) (a : Actor) :
  speed_field (with_pos p a) = speed_field a.
Proof. destruct a as [? ? ?|? ? [?|] ?|]; reflexivity. Qed.

Lemma all_fields_with_pos (n : nat) (L : list loc) (a : Actor) (p : loc) :
  owned n L p -> Forall (owned n L) (all_fields a) ->
  Forall (owned n L) (all_fields (with_pos p a)).
Proof.
  intros Hp Ha. unfold all_fields in *. rewrite speed_field_with_pos.
  inversion Ha as [|? ? _ Ha']. inversion Ha' as [|? ? Hs Hsp]. subst.
  destruct a; (constructor; [exact Hp|]); (constructor; [exact Hs|exact Hsp]).
Qed.

(** C9, as the code has it.  [plus] and [times] return a vector that
    was not stored before and overwrite no stored vector, and so do
    [Lava.act] and [Coin.act]; [Player.moveX] and [Player.moveY]
    overwrite no stored vector but the one that holds the player's
    speed, and [Player.act] none but the player's position, size and
    speed.  So a position is replaced by a new vector everywhere but in
    the losing animation of [Player.act], and the player's speed is
    updated in place. *)
Theorem vectors_overwritten_only_by_player :
  (forall a b s l s',
     Vector_plus a b s = inr (l, s') ->
     vecs s !! l = None /\ keeps_vectors_except [] s s'
     /\ forall va vb, vecs s !! a = Some va -> vecs s !! b = Some vb ->
          vecs s' !! l = Some (vplus va vb))
  /\ (forall a f s l s',
        Vector_times a f s = inr (l, s') ->
        vecs s !! l = None /\ keeps_vectors_except [] s s'
        /\ forall va, vecs s !! a = Some va -> vecs s' !! l = Some (vtimes va f))
  /\ (forall step r s s',
        Lava_act step r s = inr (tt, s') -> keeps_vectors_except [] s s')
  /\ (forall Math_sin step r s s',
        Coin_act Math_sin step r s = inr (tt, s') -> keeps_vectors_except [] s s')
  /\ (forall step keys r s s' a,
        objs s !! r = Some a ->
        Player_moveX step keys r s = inr (tt, s') ->
        keeps_vectors_except (speed_field a) s s')
  /\ (forall step keys r s s' a,
        objs s !! r = Some a ->
        Player_moveY step keys r s = inr (tt, s') ->
        keeps_vectors_except (speed_field a) s s')
  /\ (forall step keys r s s' a,
        objs s !! r = Some a ->
        Player_act step keys r s = inr (tt, s') ->
        keeps_vectors_except (all_fields a) s s').
Proof.
  assert (self_fields : forall (fields : Actor -> list loc) r s a,
            objs s !! r = Some a ->
            forall b, objs s !! r = Some b ->
              Forall (fun l => l ∈ fields a) (fields b)).
  { intros fields r s a Ha b Hb. assert (b = a) as -> by congruence.
    apply Forall_forall. auto. }
  split_and!.
  - intros a b s l s' H. unfold Vector_plus in H.
    apply bind_read_result in H as (va & Ha & H).
    apply bind_read_result in H as (vb & Hb & H).
    unfold new_Vector in H. rewrite run_alloc in H. injection H as <- <-. split_and!.
    + apply lookup_ge_None_2. reflexivity.
    + intros l v _ Hl. simpl. apply lookup_app_l_Some, Hl.
    + intros va' vb' Ha' Hb'. simpl.
      assert (va' = va) as -> by congruence. assert (vb' = vb) as -> by congruence.
      apply lookup_snoc_new.
  - intros a f s l s' H. unfold Vector_times in H.
    apply bind_read_result in H as (va & Ha & H).
    unfold new_Vector in H. rewrite run_alloc in H. injection H as <- <-. split_and!.
    + apply lookup_ge_None_2. reflexivity.
    + intros l v _ Hl. simpl. apply lookup_app_l_Some, Hl.
    + intros va' Ha'. simpl. assert (va' = va) as -> by congruence.
      apply lookup_snoc_new.
  - intros step r s s' H.
    apply (frames_keeps_vectors [] r no_field _ _ _ tt
             (frames_Lava_act _ r step)); [|exact H].
    intros; constructor.
  - intros Math_sin step r s s' H.
    apply (frames_keeps_vectors [] r no_field _ _ _ tt
             (frames_Coin_act Math_sin _ r step)); [|exact H].
    intros; constructor.
  - intros step keys r s s' a Ha H.
    refine (frames_keeps_vectors (speed_field a) r speed_field _ _ _ tt
              (frames_moveX _ _ _ _ _ _ step keys) (self_fields _ _ _ _ Ha) H).
    + auto.
    + intros b p _ Hb. rewrite speed_field_with_pos. exact Hb.
  - intros step keys r s s' a Ha H.
    refine (frames_keeps_vectors (speed_field a) r speed_field _ _ _ tt
              (frames_moveY _ _ _ _ _ _ step keys) (self_fields _ _ _ _ Ha) H).
    + auto.
    + intros b p _ Hb. rewrite speed_field_with_pos. exact Hb.
  - intros step keys r s s' a Ha H.
    refine (frames_keeps_vectors (all_fields a) r all_fields _ _ _ tt
              (frames_Player_act _ _ _ _ _ _ _ step keys) (self_fields _ _ _ _ Ha) H).
    + intros b sp Hsp. right. right. exact Hsp.
    + intros b p. apply all_fields_with_pos.
    + intros b. split; [left|right; left].
Qed.

(** C9, as it is stated, fails.  With the right key held, [moveX] turns
    the stored speed [(0, 0)] of the player into [(7, 0)] by assigning to
    its [x]; and while the player of a lost level sinks, [act] assigns to
    the [y] of its stored position and size. *)
Lemma player_overwrites_vectors_in_place :
  (exists s',
     Player_moveX maxStep right_key 0%nat standing_on_floor = inr (tt, s')
     /\ objs s' !! 0%nat = Some (Player 4%nat 1%nat 2%nat)
     /\ vecs standing_on_floor !! 2%nat = Some (mkVector zero zero)
     /\ vecs s' !! 2%nat = Some (mkVector playerXSpeed zero))
  /\ (exists s',
        Player_act maxStep no_keys 0%nat sinking = inr (tt, s')
        /\ objs s' !! 0%nat = Some (Player 0%nat 1%nat 2%nat)
        /\ vecs sinking !! 0%nat = Some (mkVector one (fneg (decimal 5 10)))
        /\ vecs s' !! 0%nat = Some (mkVector one (fneg (decimal 45 100)))
        /\ vecs sinking !! 1%nat = Some (mkVector (decimal 8 10) (decimal 15 10))
        /\ vecs s' !! 1%nat = Some (mkVector (decimal 8 10) (decimal 145 100)))
  /\ ~ (forall step keys r s s',
          Player_moveX step keys r s = inr (tt, s') ->
          keeps_vectors_except [] s s').
Proof.
  split_and!.
  - eexists. split; [vm_compute; reflexivity|]. split_and!; reflexivity.
  - eexists. split; [vm_compute; reflexivity|]. split_and!; reflexivity.
  - intros H.
    assert (E : exists s', Player_moveX maxStep right_key 0%nat standing_on_floor
                           = inr (tt, s')
                           /\ vecs s' !! 2%nat = Some (mkVector playerXSpeed zero)).
    { eexists. split; [vm_compute; reflexivity|reflexivity]. }
    destruct E as (s' & Hrun & Hv).
    assert (K : vecs s' !! 2%nat = Some (mkVector zero zero))
      by exact (H _ _ _ _ _ Hrun 2%nat (mkVector zero zero)
                  (not_elem_of_nil _) eq_refl).
    rewrite Hv in K. discriminate K.
Qed.

(** ** Construction of a level *)

Section Construction.

Variable Math_random : nat -> num.

(** What is known of the actors that are created: every actor that is
    not a player has the property [P]. *)
Variable P : Actor -> Prop.
Hypothesis P_others : forall a, not_player a -> P a.

Local Abbreviation created := (created P).

Lemma created_nothing (s : State) : created s s [].
Proof.
  exists []. rewrite app_nil_r. split_and!; auto.
Qed.

Lemma created_vector (v : Vector) (s : State) :
  created s (set_vecs (fun h => h ++ [v]) s) [].
Proof.
  exists []. simpl. rewrite app_nil_r, length_app. split_and!; auto. lia.
Qed.

Lemma created_app (s1 s2 s3 : State) (n1 n2 : list ref) :
  created s1 s2 n1 -> created s2 s3 n2 -> created s1 s3 (n1 ++ n2).
Proof.
  intros (a1 & E1 & -> & F1 & L1 & V1) (a2 & E2 & -> & F2 & L2 & V2).
  exists (a1 ++ a2). split_and!.
  - rewrite E2, E1, app_assoc. reflexivity.
  - rewrite E1, !length_app, seq_app. reflexivity.
  - apply Forall_app. auto.
  - lia.
  - congruence.
Qed.

Lemma created_actor (a : Actor) (s : State) :
  P a ->
  exists s', new_actor a s = inr (length (objs s), s')
             /\ created s s' [length (objs s)].
Proof.
  intros Ha. eexists. split; [reflexivity|].
  exists [a]. simpl. split_and!; auto.
Qed.

Lemma new_Player_created (pos : loc) (s : State) :
  (forall a, P a) ->
  is_Some (vecs s !! pos) ->
  exists r s', new_Player pos s = inr (r, s') /\ created s s' [r].
Proof.
  intros HP [v Hv]. unfold new_Player, new_Vector.
  rewrite run_bind, run_alloc.
  set (s1 := set_vecs _ s).
  assert (H1 : vecs s1 !! pos = Some v) by (apply lookup_app_l_Some, Hv).
  assert (H2 : vecs s1 !! length (vecs s)
               = Some (mkVector zero (fneg (decimal 5 10))))
    by apply lookup_snoc_new.
  rewrite (run_bind_ok _ _ _ _ _ (run_Vector_plus _ _ _ _ _ H1 H2)).
  set (s2 := set_vecs _ s1).
  rewrite run_bind, run_alloc. set (s3 := set_vecs _ s2).
  rewrite run_bind, run_alloc. set (s4 := set_vecs _ s3).
  set (p := Player _ _ _).
  destruct (created_actor p s4 (HP p)) as (s5 & E & C).
  exists (length (objs s4)), s5. split; [exact E|].
  change [length (objs s4)] with ([] ++ [length (objs s4)]).
  refine (created_app s s4 s5 _ _ _ C).
  exists []. simpl. rewrite app_nil_r, !length_app. split_and!; auto. lia.
Qed.

Lemma new_Coin_created (pos : loc) (s : State) :
  is_Some (vecs s !! pos) ->
  exists r s', new_Coin Math_random pos s = inr (r, s') /\ created s s' [r].
Proof.
  intros [v Hv]. unfold new_Coin, new_Vector.
  rewrite run_bind, run_alloc.
  set (s1 := set_vecs _ s).
  assert (H1 : vecs s1 !! pos = Some v) by (apply lookup_app_l_Some, Hv).
  assert (H2 : vecs s1 !! length (vecs s) = Some (mkVector (decimal 2 10) (decimal 1 10)))
    by apply lookup_snoc_new.
  rewrite (run_bind_ok _ _ _ _ _ (run_Vector_plus _ _ _ _ _ H1 H2)).
  set (s2 := set_vecs _ s1).
  rewrite run_bind, run_alloc. set (s3 := set_vecs _ s2).
  rewrite run_bind, run_gets, run_bind, run_modify.
  set (s4 := mkState _ _ _ _).
  set (c := Coin _ _ _ _).
  destruct (created_actor c s4) as (s5 & E & C); [apply P_others; discriminate|].
  exists (length (objs s4)), s5. split; [exact E|].
  change [length (objs s4)] with ([] ++ [length (objs s4)]).
  refine (created_app s s4 s5 _ _ _ C).
  exists []. simpl. rewrite app_nil_r, !length_app. split_and!; auto. lia.
Qed.

Lemma new_Lava_created (pos : loc) (ch : ascii) (s : State) :
  exists r s', new_Lava pos ch s = inr (r, s') /\ created s s' [r].
Proof.
  unfold new_Lava, new_Vector. rewrite run_bind, run_alloc.
  set (s1 := set_vecs _ s).
  assert (C1 : created s s1 []) by apply created_vector.
  assert (K : forall (v : Vector) (rp : option loc),
            exists r s', (sp ← alloc v; new_actor (Lava pos (length (vecs s)) (Some sp) rp)) s1
                         = inr (r, s') /\ created s s' [r]).
  { intros v rp. rewrite run_bind, run_alloc. set (s2 := set_vecs _ s1).
    destruct (created_actor (Lava pos (length (vecs s)) (Some (length (vecs s1))) rp) s2)
      as (s3 & E & C); [apply P_others; discriminate|].
    exists (length (objs s2)), s3. split; [exact E|].
    change [length (objs s2)] with (([] ++ []) ++ [length (objs s2)]).
    refine (created_app _ _ _ _ _ (created_app _ _ _ _ _ C1 _) C).
    apply created_vector. }
  repeat case_bool_decide; try apply K.
  destruct (created_actor (Lava pos (length (vecs s)) None None) s1)
    as (s3 & E & C); [apply P_others; discriminate|].
  exists (length (objs s1)), s3. split; [exact E|].
  change [length (objs s1)] with ([] ++ [length (objs s1)]).
  exact (created_app _ _ _ _ _ C1 C).
Qed.

(** The character [@] may stand in the plan only when players have the
    property [P] as well. *)
Lemma build_square_created (line : string) (x0 y0 : nat) (s : State) :
  (String.get x0 line = Some "@"%char -> forall a, P a) ->
  exists f new s',
    build_square Math_random line x0 y0 s = inr ((f, new), s')
    /\ created s s' new.
Proof.
  intros Hat. unfold build_square.
  destruct (String.get x0 line) as [ch|];
    [|exists None, [], s; split; [reflexivity|apply created_nothing]].
  assert (K : forall c, (c = CPlayer -> forall a, P a) ->
            exists f new s',
              (pos ← new_Vector (of_nat x0) (of_nat y0);
               r ← new_Actor Math_random c pos ch;
               mret (None : option Field, [r])) s = inr ((f, new), s')
              /\ created s s' new).
  { intros c Hc. unfold new_Vector. rewrite run_bind, run_alloc.
    set (s1 := set_vecs _ s).
    assert (Hpos : is_Some (vecs s1 !! length (vecs s)))
      by (eexists; apply lookup_snoc_new).
    assert (C1 : created s s1 []) by apply created_vector.
    destruct c; simpl.
    - destruct (new_Player_created _ s1 (Hc eq_refl) Hpos) as (r & s2 & E & C).
      rewrite (run_bind_ok _ _ _ _ _ E).
      exists None, [r], s2. split; [reflexivity|].
      exact (created_app _ _ _ [] [r] C1 C).
    - destruct (new_Coin_created _ s1 Hpos) as (r & s2 & E & C).
      rewrite (run_bind_ok _ _ _ _ _ E).
      exists None, [r], s2. split; [reflexivity|].
      exact (created_app _ _ _ [] [r] C1 C).
    - destruct (new_Lava_created (length (vecs s)) ch s1) as (r & s2 & E & C).
      rewrite (run_bind_ok _ _ _ _ _ E).
      exists None, [r], s2. split; [reflexivity|].
      exact (created_app _ _ _ [] [r] C1 C). }
  unfold actorChars.
  repeat case_bool_decide; try (apply K; discriminate);
    try (apply K; intros _; apply Hat; congruence);
    eexists _, [], s; (split; [reflexivity|apply created_nothing]).
Qed.

Lemma build_line_created (line : string) (y0 n x0 : nat) (s : State) :
  (forall i, String.get i line = Some "@"%char -> forall a, P a) ->
  exists gridLine new s',
    build_line Math_random line y0 x0 n s = inr ((gridLine, new), s')
    /\ created s s' new /\ length gridLine = n.
Proof.
  intros Hat. revert x0 s. induction n as [|n IH]; intros x0 s; simpl.
  - exists [], [], s. split_and!; [reflexivity|apply created_nothing|reflexivity].
  - destruct (build_square_created line x0 y0 s (Hat x0)) as (f & n1 & s1 & E1 & C1).
    rewrite (run_bind_ok _ _ _ _ _ E1).
    destruct (IH (S x0) s1) as (gl & n2 & s2 & E2 & C2 & Hlen).
    rewrite (run_bind_ok _ _ _ _ _ E2).
    exists (f :: gl), (n1 ++ n2), s2.
    split_and!; [reflexivity|exact (created_app _ _ _ _ _ C1 C2)|simpl; congruence].
Qed.

Lemma build_grid_created (lines : list string) (y0 w : nat) (s : State) :
  (forall line i, line ∈ lines -> String.get i line = Some "@"%char ->
     forall a, P a) ->
  exists g new s',
    build_grid Math_random lines y0 w s = inr ((g, new), s')
    /\ created s s' new
    /\ length g = length lines /\ Forall (fun row => length row = w) g.
Proof.
  revert y0 s. induction lines as [|line lines IH]; intros y0 s Hat; simpl.
  - exists [], [], s. split_and!; [reflexivity|apply created_nothing|reflexivity|constructor].
  - destruct (build_line_created line y0 w 0 s) as (gl & n1 & s1 & E1 & C1 & Hw).
    { intros i. apply Hat. left. }
    rewrite (run_bind_ok _ _ _ _ _ E1).
    destruct (IH (S y0) s1) as (g & n2 & s2 & E2 & C2 & Hlen & Hrows).
    { intros l i Hl. apply Hat. right. exact Hl. }
    rewrite (run_bind_ok _ _ _ _ _ E2).
    exists (gl :: g), (n1 ++ n2), s2.
    split_and!; [reflexivity|exact (created_app _ _ _ _ _ C1 C2)|simpl; congruence|].
    constructor; assumption.
Qed.

Lemma created_have (s s' : State) (new : list ref) :
  created s s' new ->
  Forall (fun r => exists a, objs s' !! r = Some a /\ P a) new.
Proof.
  intros (added & E & -> & F & _). apply Forall_forall. intros r Hr.
  apply elem_of_seq in Hr as [Hlo Hhi].
  destruct (lookup_lt_is_Some_2 added (r - length (objs s))) as [a Ha]; [lia|].
  exists a. split.
  - rewrite E, lookup_app_r by lia. exact Ha.
  - rewrite Forall_forall in F. apply F. eapply list_elem_of_lookup_2, Ha.
Qed.

End Construction.

Lemma players_none (l : list ref) (s : State) :
  Forall (fun r => exists a, objs s !! r = Some a /\ not_player a) l ->
  players l s = inr ([], s).
Proof.
  induction 1 as [|r l (a & Ha & Hty) _ IH]; simpl; [reflexivity|].
  rewrite (run_bind_ok _ _ _ _ _ (run_this _ _ _ Ha)).
  rewrite (run_bind_ok _ _ _ _ _ IH).
  rewrite bool_decide_eq_false_2 by exact Hty. reflexivity.
Qed.

Lemma players_some (l : list ref) (s : State) :
  Forall (fun r => exists a, objs s !! r = Some a /\ True) l ->
  exists ps, players l s = inr (ps, s).
Proof.
  induction 1 as [|r l (a & Ha & _) _ [ps IH]]; simpl; [exists []; reflexivity|].
  rewrite (run_bind_ok _ _ _ _ _ (run_this _ _ _ Ha)).
  rewrite (run_bind_ok _ _ _ _ _ IH). eexists. reflexivity.
Qed.

(** C8, as the code has it.  [new Level(plan)] checks nothing: for a plan
    of at least one line and without any [@] it returns a level, of the
    height of the plan and the width of its first line, with a
    rectangular grid, whose [player] is undefined and whose [status] and
    [finishDelay] are [null]. *)
Theorem new_Level_without_player
    (Math_random : nat -> num) (plan : list string) (s : State) :
  plan <> [] ->
  no_player_char plan ->
  exists s',
    new_Level Math_random plan s = inr (tt, s')
    /\ player (level s') = None
    /\ status (level s') = None
    /\ finishDelay (level s') = None
    /\ height (level s') = length plan
    /\ Some (width (level s')) = String.length <$> head plan
    /\ rectangular (level s').
Proof.
  intros Hne Hat. destruct plan as [|line0 rest]; [congruence|].
  unfold new_Level.
  destruct (build_grid_created Math_random not_player (fun a H => H)
              (line0 :: rest) 0 (String.length line0) s)
    as (g & acts & s1 & E & C & Hlen & Hrows).
  { intros line i Hl Hi. destruct (Hat line i Hl Hi). }
  rewrite (run_bind_ok _ _ _ _ _ E).
  rewrite (run_bind_ok _ _ _ _ _
             (players_none _ _ (created_have _ _ _ _ C))).
  eexists. split; [reflexivity|]. simpl.
  split_and!; try reflexivity. split; assumption.
Qed.

Lemma new_Level_without_player_witness :
  exists s',
    new_Level (fun _ => zero) ["x o x"; "xxxxx"] initial = inr (tt, s')
    /\ player (level s') = None
    /\ status (level s') = None.
Proof.
  destruct (new_Level_without_player (fun _ => zero) ["x o x"; "xxxxx"] initial)
    as (s' & E & Hp & Hs & _).
  - discriminate.
  - intros line i Hl.
    apply elem_of_cons in Hl as [->|Hl];
      [|apply list_elem_of_singleton in Hl as ->];
      do 6 (destruct i as [|i]; [discriminate|]); discriminate.
  - exists s'. auto.
Defined.

(** Construction never fails on a plan of at least one line, whatever
    its characters and the lengths of its lines: past the end of a short
    line the squares are empty, and of a long line the rest is not
    read.  The grid is rectangular all the same. *)
Lemma new_Level_total
    (Math_random : nat -> num) (plan : list string) (s : State) :
  plan <> [] ->
  exists s',
    new_Level Math_random plan s = inr (tt, s')
    /\ status (level s') = None
    /\ finishDelay (level s') = None
    /\ height (level s') = length plan
    /\ Some (width (level s')) = String.length <$> head plan
    /\ rectangular (level s')
    /\ stored s' (actors (level s')).
Proof.
  intros Hne. destruct plan as [|line0 rest]; [congruence|].
  unfold new_Level.
  destruct (build_grid_created Math_random (fun _ => True) (fun _ _ => I)
              (line0 :: rest) 0 (String.length line0) s)
    as (g & acts & s1 & E & C & Hlen & Hrows); [auto|].
  rewrite (run_bind_ok _ _ _ _ _ E).
  pose proof (created_have _ _ _ _ C) as Hacts.
  destruct (players_some _ _ Hacts) as [ps Hps].
  rewrite (run_bind_ok _ _ _ _ _ Hps).
  eexists. split; [reflexivity|]. simpl.
  split_and!; try reflexivity; [split; assumption|].
  unfold stored. simpl. eapply Forall_impl; [exact Hacts|].
  intros r (a & Ha & _). exists a. exact Ha.
Qed.

Lemma new_Level_total_witness :
  exists s',
    new_Level (fun _ => zero) ["@"; "xxx"; EmptyString] initial = inr (tt, s')
    /\ grid (level s') = [[None]; [Some wall]; [None]].
Proof.
  destruct (new_Level_total (fun _ => zero) ["@"; "xxx"; EmptyString] initial)
    as (s' & E & _); [discriminate|].
  exists s'. split; [exact E|].
  vm_compute in E. injection E as <-. reflexivity.
Defined.

(** C8, as it is stated, fails: construction from a plan without [@]
    does not end in an error. *)
Lemma new_Level_without_player_is_no_error :
  ~ (forall (Math_random : nat -> num) (plan : list string) (s : State),
       no_player_char plan ->
       exists e, new_Level Math_random plan s = inl e).
Proof.
  intros H.
  destruct (H (fun _ => zero) ["x o x"; "xxxxx"] initial) as [e He].
  - intros line i Hl.
    apply elem_of_cons in Hl as [->|Hl];
      [|apply list_elem_of_singleton in Hl as ->];
      do 6 (destruct i as [|i]; [discriminate|]); discriminate.
  - vm_compute in He. discriminate He.
Qed.

(** ** Doubles near [maxStep] *)

Lemma fsub_diag (s : bool) (m : positive) (e : Z) :
  fsub (S754_finite s m e) (S754_finite s m e) = zero.
Proof.
  unfold fsub, SFsub. rewrite Z.min_id. unfold shl_align. rewrite Z.sub_diag.
  reflexivity.
Qed.

Lemma digits2_pos_iter_xO (z k : positive) :
  digits2_pos (Pos.iter xO z k) = (digits2_pos z + k)%positive.
Proof.
  induction k as [|k IH] using Pos.peano_ind.
  - simpl. lia.
  - rewrite Pos.iter_succ. simpl. rewrite IH. lia.
Qed.

Lemma binary_round_aux_canonical (m : positive) (e : Z) :
  Zpos (digits2_pos m) = 53 -> -1074 <= e <= 971 ->
  binary_round_aux prec emax false (Zpos m) e loc_Exact = S754_finite false m e.
Proof.
  intros Hd He. unfold binary_round_aux.
  assert (E : shr_fexp prec emax (Zpos m) e loc_Exact
              = (Build_shr_record (Zpos m) false false, e)).
  { unfold shr_fexp, fexp, emin, prec, emax. simpl Zdigits2. rewrite Hd.
    replace (Z.max (53 + e - 53) (3 - 1024 - 53) - e) with 0 by lia. reflexivity. }
  rewrite E. simpl. rewrite E. simpl.
  destruct (Z.leb_spec e (emax - prec)); [reflexivity|unfold emax, prec in *; lia].
Qed.

Lemma binary_round_exact (z : positive) (e : Z) :
  let d := Zpos (digits2_pos z) in
  d <= 53 -> -1074 <= d + e - 53 <= 971 ->
  exists m', binary_round prec emax false z e = S754_finite false m' (d + e - 53)
             /\ Zpos (digits2_pos m') = 53
             /\ Zpos m' = Zpos z * 2 ^ (53 - d).
Proof.
  intros d Hd He. unfold binary_round.
  assert (F : fexp prec emax (Zpos (digits2_pos z) + e) = d + e - 53).
  { unfold fexp, emin, prec, emax. fold d. lia. }
  rewrite F. unfold shl_align.
  replace (d + e - 53 - e) with (d - 53) by lia.
  destruct (d - 53) as [|p|p] eqn:Hp; try lia.
  - exists z. replace (d + e - 53) with e by lia. split_and!.
    + apply binary_round_aux_canonical; [fold d|]; lia.
    + fold d. lia.
    + replace (53 - d) with 0 by lia. lia.
  - exists (Pos.iter xO z p). split_and!.
    + apply binary_round_aux_canonical; [|lia].
      rewrite digits2_pos_iter_xO. fold d. lia.
    + rewrite digits2_pos_iter_xO. fold d. lia.
    + replace (53 - d) with (Zpos p) by lia.
      clear. induction p as [|p IH] using Pos.peano_ind.
      * simpl. lia.
      * rewrite Pos.iter_succ, Pos2Z.inj_succ, Z.pow_succ_r by lia.
        rewrite Pos2Z.inj_xO, IH. lia.
Qed.

Lemma Zpos_iter_xO (z k : positive) : Zpos (Pos.iter xO z k) = Zpos z * 2 ^ Zpos k.
Proof.
  induction k as [|k IH] using Pos.peano_ind.
  - simpl. lia.
  - rewrite Pos.iter_succ, Pos2Z.inj_succ, Z.pow_succ_r by lia.
    rewrite Pos2Z.inj_xO, IH. lia.
Qed.

Ltac pow_atoms :=
  repeat match goal with
         | |- context [2 ^ ?a] =>
             let p := fresh "pw" in set (p := 2 ^ a) in *; clearbody p
         | H : context [2 ^ ?a] |- _ =>
             let p := fresh "pw" in set (p := 2 ^ a) in *; clearbody p
         end.

Lemma digits2_pos_bounds (p : positive) :
  2 ^ (Zpos (digits2_pos p) - 1) <= Zpos p < 2 ^ Zpos (digits2_pos p).
Proof.
  induction p as [p IH|p IH|]; simpl digits2_pos.
  - rewrite Pos2Z.inj_succ. change (Zpos p~1) with (2 * Zpos p + 1).
    replace (Z.succ (Zpos (digits2_pos p)) - 1) with (Z.succ (Zpos (digits2_pos p) - 1)) by lia.
    rewrite !Z.pow_succ_r by lia. pow_atoms. lia.
  - rewrite Pos2Z.inj_succ. change (Zpos p~0) with (2 * Zpos p).
    replace (Z.succ (Zpos (digits2_pos p)) - 1) with (Z.succ (Zpos (digits2_pos p) - 1)) by lia.
    rewrite !Z.pow_succ_r by lia. pow_atoms. lia.
  - split; [vm_compute; discriminate|reflexivity].
Qed.

Lemma digits2_pos_le (p : positive) (d : Z) :
  0 <= d -> Zpos p < 2 ^ d -> Zpos (digits2_pos p) <= d.
Proof.
  intros Hd Hp. destruct (digits2_pos_bounds p) as [Hlo _].
  destruct (Z.le_gt_cases (Zpos (digits2_pos p)) d) as [H|H]; [exact H|].
  assert (2 ^ d <= 2 ^ (Zpos (digits2_pos p) - 1)) by (apply Z.pow_le_mono_r; lia).
  pow_atoms. lia.
Qed.

Lemma digits2_pos_eq (p : positive) (d : Z) :
  2 ^ (d - 1) <= Zpos p < 2 ^ d -> Zpos (digits2_pos p) = d.
Proof.
  intros [Hlo Hhi]. destruct (digits2_pos_bounds p) as [Hlo' Hhi'].
  assert (0 < d).
  { destruct (Z.lt_ge_cases 0 d); [assumption|].
    destruct (Z.eq_dec d 0) as [->|]; [simpl in Hhi; lia|].
    rewrite (Z.pow_neg_r 2 d) in Hhi by lia. lia. }
  destruct (Z.lt_trichotomy (Zpos (digits2_pos p)) d) as [H1|[H1|H1]]; [|exact H1|].
  - assert (2 ^ Zpos (digits2_pos p) <= 2 ^ (d - 1)) by (apply Z.pow_le_mono_r; lia).
    pow_atoms. lia.
  - assert (2 ^ d <= 2 ^ (Zpos (digits2_pos p) - 1)) by (apply Z.pow_le_mono_r; lia).
    pow_atoms. lia.
Qed.



Lemma iter_pos_Pos_iter {A : Type} (f : A -> A) (p : positive) (a : A) :
  SpecFloat.iter_pos f p a = Pos.iter f a p.
Proof.
  revert a. induction p as [p IH|p IH|]; intros a; simpl.
  - rewrite !IH, !Pos.iter_swap. reflexivity.
  - rewrite !IH. reflexivity.
  - reflexivity.
Qed.

Lemma shr_trailing_zeros (M p : positive) :
  SpecFloat.iter_pos shr_1 p (Build_shr_record (Zpos (Pos.iter xO M p)) false false)
  = Build_shr_record (Zpos M) false false.
Proof.
  rewrite iter_pos_Pos_iter.
  induction p as [|p IH] using Pos.peano_ind; [reflexivity|].
  rewrite Pos.iter_succ_r, Pos.iter_succ. exact IH.
Qed.

(** A value [M * 2^j] with a mantissa [M] of 53 bits is rounded to itself. *)
Lemma binary_round_shifted (M S : positive) (j e : Z) :
  0 <= j -> Zpos S = Zpos M * 2 ^ j -> Zpos (digits2_pos M) = 53 ->
  -1074 <= e + j <= 971 ->
  binary_round prec emax false S e = S754_finite false M (e + j).
Proof.
  intros Hj HS HM He.
  assert (HdS : Zpos (digits2_pos S) = 53 + j).
  { apply digits2_pos_eq. rewrite HS.
    pose proof (digits2_pos_bounds M) as HB. rewrite HM in HB.
    replace (53 + j - 1) with (52 + j) by lia.
    rewrite !Z.pow_add_r by lia. change (53 - 1) with 52 in HB.
    assert (0 < 2 ^ j) by (apply Z.pow_pos_nonneg; lia).
    split; [apply Z.mul_le_mono_nonneg_r; lia|apply Z.mul_lt_mono_pos_r; lia]. }
  unfold binary_round.
  assert (F : fexp prec emax (Zpos (digits2_pos S) + e) = e + j).
  { unfold fexp, emin, prec, emax. lia. }
  rewrite F. unfold shl_align. replace (e + j - e) with j by lia.
  assert (E : (let '(m, e0) := match j with Zneg d => (Pos.iter xO S d, e + j) | _ => (S, e) end in
               binary_round_aux prec emax false (Zpos m) e0 loc_Exact)
              = binary_round_aux prec emax false (Zpos S) e loc_Exact)
    by (destruct j; [reflexivity|reflexivity|lia]).
  rewrite E. clear E.
  unfold binary_round_aux.
  assert (E1 : shr_fexp prec emax (Zpos S) e loc_Exact
               = (Build_shr_record (Zpos M) false false, e + j)).
  { unfold shr_fexp. simpl Zdigits2. rewrite F. replace (e + j - e) with j by lia.
    unfold shr, shr_record_of_loc. destruct j as [|p|p]; [| |lia].
    - rewrite Z.add_0_r. f_equal. f_equal. rewrite Z.pow_0_r in HS. lia.
    - f_equal. rewrite <- (shr_trailing_zeros M p). f_equal. f_equal.
      rewrite <- Zpos_iter_xO in HS. exact HS. }
  rewrite E1. cbn [shr_m loc_of_shr_record round_nearest_even].
  assert (E2 : shr_fexp prec emax (Zpos M) (e + j) loc_Exact
               = (Build_shr_record (Zpos M) false false, e + j)).
  { unfold shr_fexp, fexp, emin, prec, emax. simpl Zdigits2. rewrite HM.
    replace (Z.max (53 + (e + j) - 53) (3 - 1024 - 53) - (e + j)) with 0 by lia.
    reflexivity. }
  rewrite E2. cbn [shr_m].
  destruct (Z.leb_spec (e + j) (emax - prec)); [reflexivity|unfold emax, prec in *; lia].
Qed.

Section Step.

(** [maxStep] is [c * 2^-57] and [frameCap] is [c * 2^-56] for a mantissa
    [c] of 53 bits; the lemmas hold for every such [c]. *)
Variable c : positive.
Hypothesis c_digits : Zpos (digits2_pos c) = 53.

Local Abbreviation step0 := (S754_finite false c (-57)).
Local Abbreviation cap := (S754_finite false c (-56)).
Local Abbreviation small := (small c).

Lemma small_spec (a : num) : fgt a zero = true -> fle a step0 = true -> small a.
Proof.
  intros Hpos Hle. destruct a as [s|s| |s m e]; try discriminate.
  - destruct s; discriminate.
  - destruct s; [discriminate|]. exists m, e. split; [reflexivity|].
    unfold fle, SFleb, SFcompare in Hle.
    destruct (Z.compare_spec e (-57)) as [->|H|H]; [right|left; lia|discriminate].
    split; [reflexivity|].
    rewrite Pos.compare_cont_spec in Hle. unfold Pos.switch_Eq in Hle.
    rewrite Pos2Z.inj_compare in Hle.
    destruct (Z.compare_spec (Zpos m) (Zpos c)) as [H|H|H];
      [lia|lia|discriminate].
Qed.

Lemma Math_min_small (a : num) : small a -> Math_min a step0 = a.
Proof.
  intros (m & e & -> & H). unfold Math_min, flt, SFltb, SFcompare.
  destruct (Z.compare_spec e (-57)) as [->|He|He].
  - destruct H as [H|[_ H]]; [lia|].
    rewrite !Pos.compare_cont_spec. unfold Pos.switch_Eq.
    rewrite !Pos2Z.inj_compare.
    rewrite (Z.compare_antisym (Zpos m) (Zpos c)).
    destruct (Z.compare_spec (Zpos m) (Zpos c)) as [Hm|Hm|Hm];
      try reflexivity; [|lia].
    injection Hm as ->. reflexivity.
  - reflexivity.
  - destruct H as [H|[H _]]; lia.
Qed.

Lemma small_step (a : num) :
  small a -> fgt a zero = true /\ fsub a (Math_min a step0) = zero.
Proof.
  intros Ha. rewrite (Math_min_small a Ha).
  destruct Ha as (m & e & -> & _). split; [reflexivity|apply fsub_diag].
Qed.

Lemma c_bounds : 2 ^ 52 <= Zpos c < 2 * 2 ^ 52.
Proof.
  pose proof (digits2_pos_bounds c) as H. rewrite c_digits in H.
  change (53 - 1) with 52 in H. change 53 with (Z.succ 52) in H.
  rewrite Z.pow_succ_r in H by lia. exact H.
Qed.

(** The doubles in [(maxStep, 2 * maxStep]]. *)
Lemma range_spec (a : num) :
  valid a -> fgt a step0 = true -> fle a cap = true ->
  exists m e, a = S754_finite false m e
    /\ 2 ^ 52 <= Zpos m < 2 * 2 ^ 52
    /\ ((e = -57 /\ Zpos c < Zpos m) \/ (e = -56 /\ Zpos m <= Zpos c)).
Proof.
  intros Hv Hgt Hle. destruct a as [s|s| |s m e]; try discriminate.
  - destruct s; discriminate.
  - destruct s; [discriminate|]. exists m, e. split; [reflexivity|].
    unfold fgt, SFltb, SFcompare in Hgt.
    unfold fle, SFleb, SFcompare in Hle.
    rewrite Pos.compare_cont_spec in Hgt, Hle. unfold Pos.switch_Eq in Hgt, Hle.
    rewrite Pos2Z.inj_compare in Hgt, Hle.
    assert (He : (e = -57 /\ Zpos c < Zpos m) \/ (e = -56 /\ Zpos m <= Zpos c)).
    { destruct (Z.compare_spec (-57) e) as [<-|H1|H1]; [left|right|discriminate].
      - split; [reflexivity|].
        destruct (Z.compare_spec (Zpos c) (Zpos m)); [discriminate|assumption|discriminate].
      - destruct (Z.compare_spec e (-56)) as [->|H2|H2]; [|lia|discriminate].
        split; [reflexivity|].
        destruct (Z.compare_spec (Zpos m) (Zpos c)); [lia|lia|discriminate]. }
    split; [|exact He].
    unfold valid, valid_binary, bounded, canonical_mantissa, fexp, emin, prec, emax in Hv.
    apply andb_prop in Hv as [Hc _]. apply Z.eqb_eq in Hc.
    assert (Hd : Zpos (digits2_pos m) = 53) by lia.
    pose proof (digits2_pos_bounds m) as H. rewrite Hd in H.
    change (53 - 1) with 52 in H. change 53 with (Z.succ 52) in H.
    rewrite Z.pow_succ_r in H by lia. exact H.
Qed.

(** [maxStep + r] for a double [r] of 53 bits below it whose exact sum
    with [maxStep] is [M * 2^j]. *)
Lemma fadd_step0_exact (m' M : positive) (e' j : Z) :
  e' <= -57 -> 0 <= j ->
  Zpos c * 2 ^ (-57 - e') + Zpos m' = Zpos M * 2 ^ j ->
  Zpos (digits2_pos M) = 53 -> -1074 <= e' + j <= 971 ->
  fadd step0 (S754_finite false m' e') = S754_finite false M (e' + j).
Proof.
  intros He' Hj Hsum HM Hrange. unfold fadd, SFadd.
  rewrite (Z.min_r (-57) e') by exact He'. unfold shl_align.
  rewrite Z.sub_diag. cbn [fst cond_Zopp].
  assert (E : exists c', fst (match e' - -57 with
                              | Zneg d => (Pos.iter xO c d, e')
                              | _ => (c, -57)
                              end) = c'
                         /\ Zpos c' = Zpos c * 2 ^ (-57 - e')).
  { destruct (e' - -57) as [|p|p] eqn:Hp; [|lia|].
    - exists c. split; [reflexivity|]. replace (-57 - e') with 0 by lia. lia.
    - exists (Pos.iter xO c p). split; [reflexivity|].
      rewrite Zpos_iter_xO. replace (-57 - e') with (Zpos p) by lia. reflexivity. }
  destruct E as (c' & -> & Hc').
  change (Zpos c' + Zpos m') with (Zpos (c' + m')).
  unfold binary_normalize.
  apply binary_round_shifted; try assumption.
  rewrite Pos2Z.inj_add, Hc'. exact Hsum.
Qed.

Lemma fsub_step0 (m : positive) (e : Z) :
  2 ^ 52 <= Zpos m < 2 * 2 ^ 52 ->
  (e = -57 /\ Zpos c < Zpos m) \/ (e = -56 /\ Zpos m <= Zpos c) ->
  exists m' e',
    fsub (S754_finite false m e) step0 = S754_finite false m' e'
    /\ Zpos (digits2_pos m') = 53
    /\ -110 < e' <= -57
    /\ (e' = -57 -> Zpos m' <= Zpos c)
    /\ Zpos c * 2 ^ (-57 - e') + Zpos m' = Zpos m * 2 ^ (e - e').
Proof.
  intros Hm He. pose proof c_bounds as Hc.
  assert (Hz : exists z, fsub (S754_finite false m e) step0
                         = binary_round prec emax false z (-57)
                         /\ Zpos z = Zpos m * 2 ^ (e + 57) - Zpos c).
  { destruct He as [[-> H]|[-> H]]; unfold fsub, SFsub.
    - rewrite Z.min_id. unfold shl_align. rewrite Z.sub_diag. cbn [fst cond_Zopp].
      destruct (Zpos m - Zpos c) as [|z|z] eqn:Hz; [lia| |lia].
      exists z. split; [reflexivity|]. change (-57 + 57) with 0. lia.
    - change (Z.min (-56) (-57)) with (-57). unfold shl_align.
      change (-57 - -56) with (Zneg 1). rewrite Z.sub_diag. cbn [fst cond_Zopp Pos.iter].
      destruct (Zpos m~0 - Zpos c) as [|z|z] eqn:Hz; [lia| |lia].
      exists z. split; [reflexivity|]. change (-56 + 57) with 1. lia. }
  destruct Hz as (z & -> & Hz).
  assert (Hzc : 0 < Zpos z <= Zpos c).
  { destruct He as [[-> H]|[-> H]]; [change (-57 + 57) with 0 in Hz
                                    |change (-56 + 57) with 1 in Hz]; lia. }
  assert (Hz52 : e = -57 -> Zpos z < 2 ^ 52).
  { intros ->. change (-57 + 57) with 0 in Hz. lia. }
  set (d := Zpos (digits2_pos z)).
  assert (Hd : d <= 53).
  { apply digits2_pos_le; [lia|]. change 53 with (Z.succ 52).
    rewrite Z.pow_succ_r by lia. lia. }
  destruct (binary_round_exact z (-57)) as (m' & -> & Hd' & Hm'); fold d; [lia|lia|].
  fold d in Hm'.
  exists m', (d + -57 - 53). split_and!; try lia; [reflexivity| |].
  - intros E. replace (53 - d) with 0 in Hm' by lia. rewrite Z.pow_0_r in Hm'. lia.
  - replace (-57 - (d + -57 - 53)) with (53 - d) by lia.
    replace (e - (d + -57 - 53)) with ((e + 57) + (53 - d)) by lia.
    rewrite Z.pow_add_r by lia. rewrite Hm', Hz. ring.
Qed.

Lemma big_step (a : num) :
  valid a -> fgt a step0 = true -> fle a cap = true ->
  Math_min a step0 = step0 /\ small (fsub a step0)
  /\ fadd step0 (fsub a step0) = a.
Proof.
  intros Hv Hgt Hle.
  destruct (range_spec a Hv Hgt Hle) as (m & e & -> & Hm & He).
  pose proof c_bounds as Hc.
  assert (Hdm : Zpos (digits2_pos m) = 53).
  { apply digits2_pos_eq. change (53 - 1) with 52. change 53 with (Z.succ 52).
    rewrite Z.pow_succ_r by lia. exact Hm. }
  destruct (fsub_step0 m e Hm He) as (m' & e' & Hsub & Hd' & He' & Hle' & Hsum).
  split_and!.
  - unfold Math_min, flt. unfold fgt in Hgt. rewrite Hgt.
    unfold SFltb, SFcompare.
    rewrite Pos.compare_cont_spec. unfold Pos.switch_Eq. rewrite Pos2Z.inj_compare.
    destruct He as [[-> H]|[-> H]]; [|reflexivity].
    change (-57 ?= -57) with Eq. cbv iota.
    destruct (Z.compare_spec (Zpos m) (Zpos c)); [lia|lia|reflexivity].
  - rewrite Hsub. exists m', e'. split; [reflexivity|].
    destruct (Z.eq_dec e' (-57)) as [E|E]; [right; auto|left; lia].
  - rewrite Hsub.
    rewrite (fadd_step0_exact m' m e' (e - e')); try assumption; try lia.
    all: try (destruct He as [[-> _]|[-> _]]; lia).
    f_equal. lia.
Qed.

End Step.

(** ** The steps of [animate] *)

Lemma maxStep_digits : Zpos (digits2_pos 7205759403792794) = 53.
Proof. reflexivity. Qed.

Lemma substeps_done (fuel : nat) (step : num) :
  fgt step zero = false -> substeps fuel step = Some [].
Proof. intros H. destruct fuel; simpl; rewrite H; reflexivity. Qed.

Lemma substeps_step (fuel : nat) (step : num) :
  fgt step zero = true ->
  substeps (S fuel) step
  = cons (Math_min step maxStep)
      <$> substeps fuel (fsub step (Math_min step maxStep)).
Proof. intros H. simpl. rewrite H. reflexivity. Qed.

Lemma substeps_small (fuel : nat) (step : num) :
  small 7205759403792794 step -> substeps (S fuel) step = Some [step].
Proof.
  intros Hs.
  destruct (small_step _ step Hs) as [Hpos Hsub].
  rewrite substeps_step by exact Hpos. unfold maxStep. rewrite Hsub.
  rewrite substeps_done by reflexivity.
  rewrite (Math_min_small _ step Hs). reflexivity.
Qed.

(** The loop of [animate] runs the sub-steps of [substeps], one after
    the other. *)
Lemma animate_loop_substeps (Math_sin : num -> num) (keys : Keys)
    (fuel : nat) (step : num) (s : State) :
  match substeps fuel step with
  | Some l =>
      animate_loop Math_sin fuel step keys s
      = forEach (fun thisStep => sub_step Math_sin thisStep keys) l s
  | None => exists e, animate_loop Math_sin fuel step keys s = inl e
  end.
Proof.
  revert step s. induction fuel as [|fuel IH]; intros step s; simpl.
  - destruct (fgt step zero); [exists OutOfFuel|]; reflexivity.
  - destruct (fgt step zero); [|reflexivity].
    set (t := Math_min step maxStep).
    rewrite run_bind.
    destruct (sub_step Math_sin t keys s) as [e|[[] s1]] eqn:E.
    + destruct (substeps fuel (fsub step t)); simpl.
      * rewrite run_bind, E. reflexivity.
      * exists e. reflexivity.
    + specialize (IH (fsub step t) s1).
      destruct (substeps fuel (fsub step t)); simpl.
      * rewrite run_bind, E. exact IH.
      * exact IH.
Qed.

(** The sub-steps are the minimum of [maxStep] and of the time that
    remains, as long as time remains. *)
Lemma substeps_remaining (fuel : nat) (step : num) (l : list num) :
  substeps fuel step = Some l ->
  (forall i, (i < length l)%nat ->
     fgt (remaining step i) zero = true
     /\ l !! i = Some (Math_min (remaining step i) maxStep))
  /\ fgt (remaining step (length l)) zero = false.
Proof.
  revert step l. induction fuel as [|fuel IH]; intros step l; simpl.
  - destruct (fgt step zero) eqn:E; [discriminate|]. intros [= <-].
    split; [intros i Hi; inversion Hi|exact E].
  - destruct (fgt step zero) eqn:E.
    + destruct (substeps fuel (fsub step (Math_min step maxStep))) as [l'|] eqn:El;
        [|discriminate].
      intros [= <-]. destruct (IH _ _ El) as [H1 H2]. split; [|exact H2].
      intros [|i] Hi; [split; [exact E|reflexivity]|].
      apply H1. simpl in Hi. lia.
    + intros [= <-]. split; [intros i Hi; inversion Hi|exact E].
Qed.

(** C10, as the code has it.  [animate] counts [finishDelay] down and
    then runs the sub-steps of [substeps], in each of which every actor
    of the current list acts once, in order; each sub-step is the minimum
    of [maxStep] and of the time that remains.  For a step that is not
    positive there is no sub-step; for [0 < step <= 0.05] there is one,
    of size [step]; for a double [0.05 < step <= 0.1] there are two, of
    sizes [0.05] and [step - 0.05], whose sum is [step] exactly.  When
    [fuel] iterations do not bring the remaining time to zero, the run
    has not returned. *)
Theorem animate_sub_steps
    (Math_sin : num -> num) (keys : Keys) (s : State) (fuel : nat) (dt : num) :
  match substeps fuel dt with
  | Some l =>
      Level_animate Math_sin fuel dt keys s
      = (countdown dt;;
         forEach (fun thisStep => sub_step Math_sin thisStep keys) l) s
      /\ (forall i, (i < length l)%nat ->
            fgt (remaining dt i) zero = true
            /\ l !! i = Some (Math_min (remaining dt i) maxStep))
      /\ fgt (remaining dt (length l)) zero = false
  | None => exists e, Level_animate Math_sin fuel dt keys s = inl e
  end
  /\ (fgt dt zero = false -> substeps fuel dt = Some [])
  /\ (fgt dt zero = true -> fle dt maxStep = true ->
      substeps (S fuel) dt = Some [dt])
  /\ (valid dt -> fgt dt maxStep = true -> fle dt frameCap = true ->
      substeps (S (S fuel)) dt = Some [maxStep; fsub dt maxStep]
      /\ fadd maxStep (fsub dt maxStep) = dt).
Proof.
  split_and!.
  - unfold Level_animate.
    destruct (substeps fuel dt) as [l|] eqn:El.
    + split; [|exact (substeps_remaining _ _ _ El)].
      rewrite !run_bind. destruct (countdown dt s) as [e|[[] s1]]; [reflexivity|].
      pose proof (animate_loop_substeps Math_sin keys fuel dt s1) as H.
      rewrite El in H. exact H.
    + rewrite run_bind. destruct (countdown dt s) as [e|[[] s1]]; [exists e; reflexivity|].
      pose proof (animate_loop_substeps Math_sin keys fuel dt s1) as H.
      rewrite El in H. exact H.
  - apply substeps_done.
  - intros Hpos Hle. apply substeps_small.
    exact (small_spec _ dt Hpos Hle).
  - intros Hv Hgt Hle.
    destruct (big_step _ maxStep_digits dt Hv Hgt Hle) as (Hmin & Hs & Hsum).
    split; [|exact Hsum].
    assert (Hpos : fgt dt zero = true).
    { destruct dt as [[]|[]| |[] m e]; try discriminate; reflexivity. }
    rewrite substeps_step by exact Hpos. unfold maxStep at 1 2. rewrite Hmin.
    rewrite substeps_small by exact Hs. reflexivity.
Qed.

(** C10, as it is stated, fails on doubles.  For the step [0.2] the
    loop makes five iterations (four of [0.05] and one of [2^-56], what
    rounding has left of the time), while [ceil(0.2 / 0.05)] is 4; and
    for the step [1e16], which [1e16 - 0.05] rounds back to, the time
    that remains never changes: no amount of fuel lets the loop, or
    [animate] on the empty level, return. *)
Lemma animate_steps_are_not_the_ceiling :
  substeps 5 fifth
  = Some [maxStep; maxStep; maxStep; maxStep;
          S754_finite false 4503599627370496 (-108)]
  /\ Math_ceil (fdiv fifth maxStep) = JInt 4
  /\ fsub huge (Math_min huge maxStep) = huge
  /\ ~ (exists fuel l, substeps fuel huge = Some l)
  /\ ~ (exists fuel r,
          Level_animate (fun a => a) fuel huge no_keys initial = inr r).
Proof.
  assert (Hstay : fsub huge (Math_min huge maxStep) = huge)
    by (vm_compute; reflexivity).
  assert (Hnone : forall fuel, substeps fuel huge = None).
  { induction fuel as [|fuel IH]; [reflexivity|].
    rewrite substeps_step by reflexivity. rewrite Hstay, IH. reflexivity. }
  split_and!.
  - vm_compute. reflexivity.
  - vm_compute. reflexivity.
  - exact Hstay.
  - intros (fuel & l & H). rewrite Hnone in H. discriminate H.
  - intros (fuel & r & H). unfold Level_animate in H. rewrite run_bind in H.
    destruct (countdown huge initial) as [e|[[] s1]]; [discriminate H|].
    pose proof (animate_loop_substeps (fun a => a) no_keys fuel huge s1) as K.
    rewrite Hnone in K. destruct K as [e K]. rewrite K in H. discriminate H.
Qed.

Lemma animate_sub_steps_witness :
  substeps 2 (decimal 7 100) = Some [maxStep; fsub (decimal 7 100) maxStep]
  /\ fadd maxStep (fsub (decimal 7 100) maxStep) = decimal 7 100.
Proof.
  destruct (animate_sub_steps (fun a => a) no_keys initial 0 (decimal 7 100))
    as (_ & _ & _ & H).
  apply H; reflexivity.
Defined.

(** * Properties of the constructor of a level *)

Section Building.

Variable Math_random : nat -> num.


Lemma lookup_app_plus {A : Type} (l1 l2 : list A) (i : nat) :
  (l1 ++ l2) !! (length l1 + i)%nat = l2 !! i.
Proof. rewrite lookup_app_r by lia. f_equal. lia. Qed.

Lemma spawned_more (vs extra : list Vector) (cell : nat * nat * ascii)
    (a : Actor) :
  spawned Math_random vs cell a -> spawned Math_random (vs ++ extra) cell a.
Proof.
  destruct cell as [[x0 y0] ch]. unfold spawned.
  destruct (actorChars ch) as [[| |]|]; [| | |auto].
  - intros (p & sz & sp & -> & Hp & Hsz & Hsp & N1 & N2 & N3).
    exists p, sz, sp. split_and!; auto using lookup_app_l_Some.
  - intros (p & sz & k & -> & Hp & Hsz).
    exists p, sz, k. split_and!; auto using lookup_app_l_Some.
  - intros (p & sz & sp & -> & Hp & Hsz & Hsp).
    exists p, sz, sp. split_and!; auto using lookup_app_l_Some.
Qed.

Lemma built_nothing (s : State) : built Math_random s s [] [].
Proof.
  exists [], []. rewrite !app_nil_r. split_and!; first [reflexivity|constructor].
Qed.

Lemma built_app (s1 s2 s3 : State) (c1 c2 : list (nat * nat * ascii))
    (n1 n2 : list ref) :
  built Math_random s1 s2 c1 n1 -> built Math_random s2 s3 c2 n2 ->
  built Math_random s1 s3 (c1 ++ c2) (n1 ++ n2).
Proof.
  intros (a1 & e1 & O1 & -> & V1 & F1 & L1) (a2 & e2 & O2 & -> & V2 & F2 & L2).
  exists (a1 ++ a2), (e1 ++ e2). split_and!.
  - rewrite O2, O1, app_assoc. reflexivity.
  - rewrite O1, !length_app, seq_app. reflexivity.
  - rewrite V2, V1, app_assoc. reflexivity.
  - apply Forall2_app; [|exact F2].
    rewrite V2. eapply Forall2_impl; [exact F1|].
    intros cell a. apply spawned_more.
  - congruence.
Qed.

(** The actor for one character, from the state [s] in which the
    vector [(x0, y0)] has just been stored. *)
Lemma new_Actor_built (c : Constructor) (ch : ascii) (x0 y0 : nat) (s : State) :
  actorChars ch = Some c ->
  let s1 := set_vecs (fun h => h ++ [mkVector (of_nat x0) (of_nat y0)]) s in
  exists r s',
    new_Actor Math_random c (length (vecs s)) ch s1 = inr (r, s')
    /\ built Math_random s s' [(x0, y0, ch)] [r].
Proof.
  intros Hc s1.
  set (here := mkVector (of_nat x0) (of_nat y0)).
  assert (Hhere : vecs s1 !! length (vecs s) = Some here) by apply lookup_snoc_new.
  assert (Hlen1 : length (vecs s1) = S (length (vecs s)))
    by (simpl; rewrite length_app; simpl; lia).
  destruct c; cbn [new_Actor].
  - (* Player *)
    unfold new_Player, new_Vector. rewrite run_bind, run_alloc.
    set (off := mkVector zero (fneg (decimal 5 10))).
    set (s2 := set_vecs _ s1).
    assert (H1 : vecs s2 !! length (vecs s) = Some here)
      by (apply lookup_app_l_Some, Hhere).
    assert (H2 : vecs s2 !! length (vecs s1) = Some off) by apply lookup_snoc_new.
    rewrite (run_bind_ok _ _ _ _ _ (run_Vector_plus _ _ _ _ _ H1 H2)).
    rewrite run_bind, run_alloc, run_bind, run_alloc.
    unfold new_actor. rewrite run_bind, run_gets, run_bind, run_modify, run_ret.
    eexists _, _. split; [reflexivity|].
    eexists [_], [here; off; vplus here off;
                  mkVector (decimal 8 10) (decimal 15 10); mkVector zero zero].
    subst s2 s1. cbn [vecs objs level set_vecs set_objs length].
    rewrite <- !app_assoc. cbn [app]. split_and!; try reflexivity.
    constructor; [|constructor].
    unfold spawned. rewrite Hc.
    rewrite !length_app. cbn [length].
    eexists _, _, _. split; [reflexivity|].
    split_and!; try lia.
    + replace (length (vecs s) + 1 + 1)%nat with (length (vecs s) + 2)%nat by lia.
      rewrite lookup_app_plus. reflexivity.
    + replace (length (vecs s) + 1 + 1 + 1)%nat with (length (vecs s) + 3)%nat by lia.
      rewrite lookup_app_plus. reflexivity.
    + replace (length (vecs s) + 1 + 1 + 1 + 1)%nat
        with (length (vecs s) + 4)%nat by lia.
      rewrite lookup_app_plus. reflexivity.
  - (* Coin *)
    unfold new_Coin, new_Vector. rewrite run_bind, run_alloc.
    set (off := mkVector (decimal 2 10) (decimal 1 10)).
    set (s2 := set_vecs _ s1).
    assert (H1 : vecs s2 !! length (vecs s) = Some here)
      by (apply lookup_app_l_Some, Hhere).
    assert (H2 : vecs s2 !! length (vecs s1) = Some off) by apply lookup_snoc_new.
    rewrite (run_bind_ok _ _ _ _ _ (run_Vector_plus _ _ _ _ _ H1 H2)).
    rewrite run_bind, run_alloc, run_bind, run_gets, run_bind, run_modify.
    unfold new_actor. rewrite run_bind, run_gets, run_bind, run_modify, run_ret.
    eexists _, _. split; [reflexivity|].
    eexists [_], [here; off; vplus here off; mkVector (decimal 6 10) (decimal 6 10)].
    subst s2 s1. cbn [vecs objs level set_vecs set_objs length].
    rewrite <- !app_assoc. cbn [app]. split_and!; try reflexivity.
    constructor; [|constructor].
    unfold spawned. rewrite Hc.
    rewrite !length_app. cbn [length].
    eexists _, _, _. split; [reflexivity|].
    split_and!.
    + replace (length (vecs s) + 1 + 1)%nat with (length (vecs s) + 2)%nat by lia.
      rewrite lookup_app_plus. reflexivity.
    + replace (length (vecs s) + 1 + 1 + 1)%nat with (length (vecs s) + 3)%nat by lia.
      rewrite lookup_app_plus. reflexivity.
  - (* Lava *)
    assert (Hch : ch = "="%char \/ ch = "|"%char \/ ch = "v"%char).
    { unfold actorChars in Hc. repeat case_bool_decide; auto; discriminate Hc. }
    unfold new_Lava, new_Vector. rewrite run_bind, run_alloc.
    assert (K : forall rp : option loc,
              rp = (if bool_decide (ch = "v"%char)
                    then Some (length (vecs s)) else None) ->
              exists r s',
                (sp ← alloc (lava_speed ch);
                 new_actor (Lava (length (vecs s)) (length (vecs s1)) (Some sp) rp))
                  (set_vecs (fun h => h ++ [mkVector one one]) s1) = inr (r, s')
                /\ built Math_random s s' [(x0, y0, ch)] [r]).
    { intros rp ->. rewrite run_bind, run_alloc.
      unfold new_actor. rewrite run_bind, run_gets, run_bind, run_modify, run_ret.
      eexists _, _. split; [reflexivity|].
      eexists [_], [here; mkVector one one; lava_speed ch].
      subst s1. cbn [vecs objs level set_vecs set_objs length].
      rewrite <- !app_assoc. cbn [app]. split_and!; try reflexivity.
      constructor; [|constructor].
      unfold spawned. rewrite Hc.
      rewrite !length_app. cbn [length].
      eexists _, _, _. split; [reflexivity|].
      split_and!.
      - apply list_lookup_middle. reflexivity.
      - rewrite lookup_app_plus. reflexivity.
      - replace (length (vecs s) + 1 + 1)%nat with (length (vecs s) + 2)%nat by lia.
        rewrite lookup_app_plus. reflexivity. }
    unfold lava_speed in K.
    destruct Hch as [->|[->| ->]];
      rewrite ?bool_decide_eq_true_2 by reflexivity;
      rewrite ?bool_decide_eq_false_2 by discriminate;
      rewrite ?bool_decide_eq_true_2 by reflexivity;
      rewrite ?bool_decide_eq_false_2 by discriminate;
      rewrite ?bool_decide_eq_true_2 by reflexivity;
      apply K; reflexivity.
Qed.

Lemma build_square_built (line : string) (x0 y0 : nat) (s : State) :
  exists new s',
    build_square Math_random line x0 y0 s
    = inr ((ground (String.get x0 line), new), s')
    /\ built Math_random s s' (actor_at line y0 x0) new.
Proof.
  unfold build_square, actor_at, ground.
  destruct (String.get x0 line) as [ch|];
    [|exists [], s; split; [reflexivity|apply built_nothing]].
  destruct (actorChars ch) as [c|] eqn:Hc.
  - unfold new_Vector. rewrite run_bind, run_alloc.
    destruct (new_Actor_built c ch x0 y0 s Hc) as (r & s' & E & B).
    rewrite (run_bind_ok _ _ _ _ _ E).
    exists [r], s'. split; [|exact B].
    unfold actorChars in Hc.
    repeat case_bool_decide; try discriminate Hc; try reflexivity;
      subst; discriminate.
  - exists [], s. split; [|apply built_nothing].
    repeat case_bool_decide; reflexivity.
Qed.

Lemma build_line_built (line : string) (y0 n x0 : nat) (s : State) :
  exists new s',
    build_line Math_random line y0 x0 n s
    = inr ((map (fun x1 => ground (String.get x1 line)) (seq x0 n), new), s')
    /\ built Math_random s s' (x1 ← seq x0 n; actor_at line y0 x1) new.
Proof.
  revert x0 s. induction n as [|n IH]; intros x0 s; simpl.
  - exists [], s. split; [reflexivity|apply built_nothing].
  - destruct (build_square_built line x0 y0 s) as (n1 & s1 & E1 & B1).
    rewrite (run_bind_ok _ _ _ _ _ E1).
    destruct (IH (S x0) s1) as (n2 & s2 & E2 & B2).
    rewrite (run_bind_ok _ _ _ _ _ E2).
    exists (n1 ++ n2), s2. split; [reflexivity|].
    exact (built_app _ _ _ _ _ _ _ B1 B2).
Qed.

Lemma build_grid_built (lines : list string) (y0 w : nat) (s : State) :
  exists new s',
    build_grid Math_random lines y0 w s = inr ((ground_of lines w, new), s')
    /\ built Math_random s s' (actors_of lines y0 w) new.
Proof.
  revert y0 s. induction lines as [|line lines IH]; intros y0 s; simpl.
  - exists [], s. split; [reflexivity|apply built_nothing].
  - destruct (build_line_built line y0 w 0 s) as (n1 & s1 & E1 & B1).
    rewrite (run_bind_ok _ _ _ _ _ E1).
    destruct (IH (S y0) s1) as (n2 & s2 & E2 & B2).
    rewrite (run_bind_ok _ _ _ _ _ E2).
    exists (n1 ++ n2), s2. split; [reflexivity|].
    exact (built_app _ _ _ _ _ _ _ B1 B2).
Qed.

Lemma players_spec (l : list ref) (s : State) :
  stored s l ->
  players l s
  = inr (filter (fun r => actor_type <$> objs s !! r = Some "player") l, s).
Proof.
  induction 1 as [|r l [a Ha] _ IH]; simpl; [reflexivity|].
  rewrite (run_bind_ok _ _ _ _ _ (run_this _ _ _ Ha)).
  rewrite (run_bind_ok _ _ _ _ _ IH). rewrite run_ret.
  case_bool_decide as Hty.
  - rewrite filter_cons_True by (rewrite Ha; simpl; congruence). reflexivity.
  - rewrite filter_cons_False by (rewrite Ha; simpl; congruence). reflexivity.
Qed.

Lemma spawned_player (vs : list Vector) (cell : nat * nat * ascii) (a : Actor) :
  spawned Math_random vs cell a ->
  (actor_type a = "player" <-> cell.2 = "@"%char).
Proof.
  destruct cell as [[x0 y0] ch]. unfold spawned. simpl.
  unfold actorChars. repeat case_bool_decide; subst;
    try (intros (? & ? & ? & -> & _); simpl; split; congruence);
    try (intros []).
Qed.

(** The first player among the actors created is the one of the first
    [@]. *)
Lemma head_players (vs : list Vector) (objects : list Actor)
    (cells : list (nat * nat * ascii)) (added : list Actor) (base : nat) :
  Forall2 (spawned Math_random vs) cells added ->
  (forall i a, added !! i = Some a -> objects !! (base + i)%nat = Some a) ->
  head (filter (fun r : ref => actor_type <$> objects !! r = Some "player")
          (seq base (length added)))
  = (fun i => (base + i)%nat) <$> first_player cells.
Proof.
  intros F. revert base. unfold first_player.
  induction F as [|cell a cells added Hs _ IH]; intros base Hobj; [reflexivity|].
  cbn [length seq list_find].
  pose proof (Hobj 0%nat a eq_refl) as H0. rewrite Nat.add_0_r in H0.
  apply spawned_player in Hs.
  case_decide as Hat.
  - rewrite filter_cons_True
      by (unfold ref; rewrite H0; simpl; f_equal; apply Hs, Hat).
    simpl. f_equal. lia.
  - rewrite filter_cons_False
      by (unfold ref; rewrite H0; simpl; intros [= E]; apply Hat, Hs, E).
    etrans; [apply (IH (S base))|].
    + intros i b Hb. replace (S base + i)%nat with (base + S i)%nat by lia.
      apply Hobj. exact Hb.
    + destruct (list_find _ cells) as [[i c]|]; simpl; [f_equal; lia|reflexivity].
Qed.

Lemma ground_of_square (lines : list string) (w row col : nat) (line : string)
    (lv : Level) :
  grid lv = ground_of lines w ->
  lines !! row = Some line -> (col < w)%nat ->
  square lv row col = ground (String.get col line).
Proof.
  intros Hg Hrow Hcol. unfold square. rewrite Hg. unfold ground_of.
  rewrite list_lookup_fmap, Hrow. simpl.
  rewrite list_lookup_fmap, lookup_seq_lt by exact Hcol. reflexivity.
Qed.

End Building.

(** The grid of a new level is the plan, square by square: a square is
    ["wall"] where the plan has [x], ["lava"] where it has [!], and
    [null] everywhere else, also where the plan has the character of an
    actor and where its line has ended.  The level is as wide as the
    first line and as high as the plan. *)
Theorem new_Level_grid_is_the_plan
    (Math_random : nat -> num) (line0 : string) (rest : list string) (s : State) :
  let plan := line0 :: rest in
  exists s',
    new_Level Math_random plan s = inr (tt, s')
    /\ width (level s') = String.length line0
    /\ height (level s') = length plan
    /\ grid (level s') = ground_of plan (String.length line0)
    /\ forall row col line,
         plan !! row = Some line -> (col < String.length line0)%nat ->
         square (level s') row col = ground (String.get col line).
Proof.
  intros plan. unfold new_Level, plan.
  destruct (build_grid_built Math_random (line0 :: rest) 0 (String.length line0) s)
    as (acts & s1 & E & B).
  rewrite (run_bind_ok _ _ _ _ _ E).
  destruct B as (added & extra & Ho & -> & Hv & F & Hl).
  assert (Hst : stored s1 (seq (length (objs s)) (length added))).
  { apply Forall_forall. intros r Hr. apply elem_of_seq in Hr.
    apply lookup_lt_is_Some_2. rewrite Ho, length_app. lia. }
  rewrite (run_bind_ok _ _ _ _ _ (players_spec _ _ Hst)).
  rewrite run_modify. eexists. split; [reflexivity|]. simpl.
  split_and!; try reflexivity.
  intros row col line Hrow Hcol.
  apply (ground_of_square (line0 :: rest) (String.length line0) row col line);
    [reflexivity|exact Hrow|exact Hcol].
Qed.

(** The actors of a new level: one for each of the characters [@], [o],
    [=], [|] and [v] among the first [width] characters of the lines, in
    reading order, each as its constructor makes it for the column and
    the row of the character; they are stored after the actors that
    were stored before, and no stored vector is changed.  [player] is
    the actor of the first [@], and is undefined when there is none. *)
Theorem new_Level_actors_in_reading_order
    (Math_random : nat -> num) (line0 : string) (rest : list string) (s : State) :
  let plan := line0 :: rest in
  let cells := actors_of plan 0 (String.length line0) in
  exists s' added extra,
    new_Level Math_random plan s = inr (tt, s')
    /\ objs s' = objs s ++ added
    /\ vecs s' = vecs s ++ extra
    /\ actors (level s') = seq (length (objs s)) (length added)
    /\ Forall2 (spawned Math_random (vecs s')) cells added
    /\ player (level s')
       = (fun i => (length (objs s) + i)%nat) <$> first_player cells.
Proof.
  intros plan cells. unfold new_Level, plan.
  destruct (build_grid_built Math_random (line0 :: rest) 0 (String.length line0) s)
    as (acts & s1 & E & B).
  rewrite (run_bind_ok _ _ _ _ _ E).
  destruct B as (added & extra & Ho & -> & Hv & F & Hl).
  assert (Hst : stored s1 (seq (length (objs s)) (length added))).
  { apply Forall_forall. intros r Hr. apply elem_of_seq in Hr.
    apply lookup_lt_is_Some_2. rewrite Ho, length_app. lia. }
  rewrite (run_bind_ok _ _ _ _ _ (players_spec _ _ Hst)).
  rewrite run_modify. exists (set_level
    (fun _ => mkLevel (String.length line0) (length (line0 :: rest))
                (ground_of (line0 :: rest) (String.length line0))
                (seq (length (objs s)) (length added))
                (head (filter (fun r => actor_type <$> objs s1 !! r = Some "player")
                         (seq (length (objs s)) (length added))))
                None None) s1), added, extra.
  split; [reflexivity|]. simpl. split_and!; try assumption; try reflexivity.
  apply (head_players Math_random (vecs s1) (objs s1) _ added _ F).
  intros i a Ha. rewrite Ho. rewrite lookup_app_plus. exact Ha.
Qed.

(** * Properties of the simulation as a whole *)

(** ** What the methods may change *)

(** The parts of [evolves] that hold because nothing has changed. *)
Ltac evolves_same :=
  unfold evolves, same_ground; simpl; split_and!;
  try reflexivity;
  try (intros ? ? ?; contradiction);
  try (let a := fresh "a" in let H := fresh "H" in
       intros ? a H; exists a; split; [exact H|reflexivity]).

Lemma evolves_refl (s : State) : evolves s s.
Proof.
  unfold evolves, same_ground, finish_step. split_and!; auto.
  - intros r H1 H2. contradiction.
  - intros r a Ha. exists a. auto.
Qed.

(** A change of the stored vectors only. *)
Lemma evolves_vecs (s s' : State) :
  objs s' = objs s -> level s' = level s -> evolves s s'.
Proof.
  intros Ho Hl. unfold evolves, same_ground, finish_step. rewrite Ho, Hl.
  split_and!; auto.
  - intros r H1 H2. contradiction.
  - intros r a Ha. exists a. auto.
Qed.

Lemma evolves_trans (s1 s2 s3 : State) :
  evolves s1 s2 -> evolves s2 s3 -> evolves s1 s3.
Proof.
  intros ((W1 & H1 & G1 & P1) & F1 & S1 & C1 & L1 & T1)
         ((W2 & H2 & G2 & P2) & F2 & S2 & C2 & L2 & T2).
  unfold evolves, same_ground. split_and!; try congruence.
  - destruct F1 as [[E1 D1]|(D1 & N1 & K1)], F2 as [[E2 D2]|(D2 & N2 & K2)].
    + left. split; congruence.
    + right. split_and!; [assumption|assumption|]. intros H. rewrite <- E1. auto.
    + right. split_and!; [congruence|congruence|]. intros H. apply K1. congruence.
    + right. split_and!; [assumption|assumption|]. intros H. destruct N1. auto.
  - etrans; eassumption.
  - intros r Hr Hn. destruct (decide (r ∈ actors (level s2))) as [Hin|Hout].
    + destruct (C2 r Hin Hn) as (a2 & Ha2 & Hty).
      assert (Hlt : (r < length (objs s1))%nat).
      { rewrite <- L1. eapply lookup_lt_Some, Ha2. }
      destruct (lookup_lt_is_Some_2 _ _ Hlt) as [a1 Ha1].
      destruct (T1 r a1 Ha1) as (a2' & Ha2' & Hty').
      exists a1. split; [exact Ha1|].
      rewrite Ha2 in Ha2'. injection Ha2' as <-. rewrite <- Hty'. exact Hty.
    + exact (C1 r Hr Hout).
  - intros r a Ha. destruct (T1 r a Ha) as (a2 & Ha2 & Hty2).
    destruct (T2 r a2 Ha2) as (a3 & Ha3 & Hty3).
    exists a3. split; [exact Ha3|congruence].
Qed.

Lemma guar_ret {A : Type} (a : A) : guar (mret a).
Proof. intros s b s' [= _ <-]. apply evolves_refl. Qed.

Lemma guar_throw {A : Type} (e : Err) : guar (throw e : M A).
Proof. intros s a s' H. discriminate H. Qed.

Lemma guar_gets {A : Type} (f : State -> A) : guar (gets f).
Proof. intros s b s' [= _ <-]. apply evolves_refl. Qed.

Lemma guar_bind {A B : Type} (m : M A) (k : A -> M B) :
  guar m -> (forall a, guar (k a)) -> guar (m ≫= k).
Proof.
  intros Hm Hk s b s' H. rewrite run_bind in H.
  destruct (m s) as [e|[a s1]] eqn:E; [discriminate H|].
  exact (evolves_trans _ _ _ (Hm _ _ _ E) (Hk a _ _ _ H)).
Qed.

Lemma guar_when (b : bool) (m : M unit) : guar m -> guar (when b m).
Proof. destruct b; [auto|intros _; apply guar_ret]. Qed.

Lemma guar_lift {A : Type} (e : Err) (o : option A) : guar (lift e o).
Proof. destruct o; [apply guar_ret|apply guar_throw]. Qed.

Lemma guar_read (l : loc) : guar (read l).
Proof. apply guar_bind; [apply guar_gets|intros v; apply guar_lift]. Qed.

Lemma guar_this (r : ref) : guar (this r).
Proof. apply guar_bind; [apply guar_gets|intros v; apply guar_lift]. Qed.

Lemma guar_set_vecs (f : list Vector -> list Vector) : guar (modify (set_vecs f)).
Proof. intros s [] s' [= <-]. apply evolves_vecs; reflexivity. Qed.

Lemma guar_alloc (v : Vector) : guar (alloc v).
Proof.
  unfold alloc. apply guar_bind; [apply guar_gets|intros l].
  apply guar_bind; [apply guar_set_vecs|intros _; apply guar_ret].
Qed.

Lemma guar_write (l : loc) (v : Vector) : guar (write l v).
Proof. apply guar_bind; [apply guar_read|intros _; apply guar_set_vecs]. Qed.

Lemma guar_Vector_plus (a b : loc) : guar (Vector_plus a b).
Proof.
  unfold Vector_plus. apply guar_bind; [apply guar_read|intros va].
  apply guar_bind; [apply guar_read|intros vb]. apply guar_alloc.
Qed.

Lemma guar_Vector_times (a : loc) (f : num) : guar (Vector_times a f).
Proof.
  unfold Vector_times. apply guar_bind; [apply guar_read|intros va]. apply guar_alloc.
Qed.

Lemma guar_update_x (l : loc) (f : num -> num) : guar (update_x l f).
Proof. apply guar_bind; [apply guar_read|intros v; apply guar_write]. Qed.

Lemma guar_update_y (l : loc) (f : num -> num) : guar (update_y l f).
Proof. apply guar_bind; [apply guar_read|intros v; apply guar_write]. Qed.

Lemma guar_get_speed (a : Actor) : guar (get_speed a).
Proof.
  destruct a as [? ? ?|? ? [?|] ?|]; simpl; first [apply guar_ret|apply guar_throw].
Qed.

Lemma guar_obstacleAt (pos size : loc) : guar (Level_obstacleAt pos size).
Proof.
  unfold Level_obstacleAt. apply guar_bind; [apply guar_read|intros p].
  apply guar_bind; [apply guar_read|intros sz].
  apply guar_bind; [apply guar_gets|intros lv].
  destruct (obstacleAt lv p sz); [apply guar_throw|apply guar_ret].
Qed.

Lemma guar_actorAt (actor : ref) : guar (Level_actorAt actor).
Proof.
  unfold Level_actorAt. apply guar_bind; [apply guar_gets|intros l].
  induction l as [|other rest IH]; simpl; [apply guar_ret|].
  destruct (decide (other = actor)); [exact IH|].
  apply guar_bind; [apply guar_this|intros a].
  apply guar_bind; [apply guar_this|intros o].
  apply guar_bind; [apply guar_read|intros ap].
  apply guar_bind; [apply guar_read|intros asz].
  apply guar_bind; [apply guar_read|intros op].
  apply guar_bind; [apply guar_read|intros osz].
  destruct (overlaps ap asz op osz); [apply guar_ret|exact IH].
Qed.

(** Replacing a stored actor by one of its class. *)
Lemma evolves_set_this (r : ref) (a b : Actor) (s : State) :
  objs s !! r = Some a -> actor_type b = actor_type a ->
  evolves s (set_objs (fun h => <[r := b]> h) s).
Proof.
  intros Ha Hty. unfold evolves, same_ground, finish_step. simpl.
  split_and!; auto.
  - intros r' H1 H2. contradiction.
  - apply length_insert.
  - intros r' a' Ha'. destruct (decide (r' = r)) as [->|Hne].
    + exists b. split; [|congruence].
      apply list_lookup_insert_eq. eapply lookup_lt_Some, Ha.
    + exists a'. split; [|reflexivity].
      rewrite list_lookup_insert_ne by congruence. exact Ha'.
Qed.

Lemma guar_set_field (r : ref) (f : Actor -> Actor) :
  (forall a, actor_type (f a) = actor_type a) ->
  guar (a ← this r; set_this r (f a)).
Proof.
  intros Hf s [] s' H.
  unfold this in H. rewrite !run_bind, run_gets in H.
  destruct (objs s !! r) as [a|] eqn:Ha; [|discriminate H].
  simpl in H. unfold set_this, this in H. rewrite !run_bind, run_gets, Ha in H.
  simpl in H. injection H as <-.
  exact (evolves_set_this r a (f a) s Ha (Hf a)).
Qed.

Lemma guar_set_pos (r : ref) (p : loc) : guar (set_pos r p).
Proof. apply guar_set_field. intros []; reflexivity. Qed.

Lemma guar_set_speed (r : ref) (sp : loc) : guar (set_speed r sp).
Proof. apply guar_set_field. intros []; reflexivity. Qed.

Lemma guar_some_coin (l : list ref) : guar (some_coin l).
Proof.
  induction l as [|r l IH]; simpl; [apply guar_ret|].
  apply guar_bind; [apply guar_this|intros a].
  destruct (decide (actor_type a = "coin")); [apply guar_ret|exact IH].
Qed.

(** [playerTouched] removes [actor] when [type] is ["coin"]: the callers
    pass ["coin"] only together with a coin. *)
Lemma evolves_playerTouched (type : string) (actor : option ref) (s s' : State) :
  (type = "coin" -> forall r, actor = Some r -> is_coin s r) ->
  Level_playerTouched type actor s = inr (tt, s') ->
  evolves s s'.
Proof.
  intros Hcoin. unfold Level_playerTouched. rewrite run_bind, run_gets.
  destruct (bool_decide (type = "lava") && bool_decide (status (level s) = None))
    eqn:Hl.
  - rewrite run_modify. intros [= <-]. apply andb_true_iff in Hl as [_ Hst].
    apply bool_decide_eq_true in Hst.
    evolves_same.
    right. split_and!; [reflexivity|discriminate|auto].
  - destruct (decide (type = "coin")) as [Hc|Hc];
      [rewrite (bool_decide_eq_true_2 _ Hc)
      |rewrite (bool_decide_eq_false_2 _ Hc); exact (guar_ret tt s tt s')].
    rewrite run_bind, run_modify.
    set (l' := filter _ (actors (level s))).
    set (s1 := set_level (set_actors l') s).
    assert (E1 : evolves s s1).
    { evolves_same.
      - left. auto.
      - apply sublist_filter.
      - intros r H1 H2.
        destruct (decide (Some r = actor)) as [Ha|Ha].
        + apply (Hcoin Hc). auto.
        + destruct H2. apply list_elem_of_filter. auto. }
    rewrite run_bind, run_gets. rewrite run_bind.
    destruct (some_coin _ s1) as [e|[coins s2]] eqn:Es; [discriminate|].
    pose proof (guar_some_coin _ _ _ _ Es) as E2.
    destruct coins; simpl.
    + intros [= <-]. exact (evolves_trans _ _ _ E1 E2).
    + rewrite run_modify. intros [= <-].
      refine (evolves_trans _ _ _ (evolves_trans _ _ _ E1 E2) _).
      evolves_same.
      right. split_and!; [reflexivity|discriminate|discriminate].
Qed.

Lemma guar_playerTouched_field (f : Field) :
  guar (Level_playerTouched (field_name f) None).
Proof.
  intros s [] s' H. refine (evolves_playerTouched _ _ _ _ _ H).
  intros Hf. destruct f; discriminate Hf.
Qed.

Lemma guar_touch (other : option ref) : guar (touch other).
Proof.
  destruct other as [other|]; simpl; [|apply guar_ret].
  intros s [] s' H. unfold this in H. rewrite !run_bind, run_gets in H.
  destruct (objs s !! other) as [o|] eqn:Ho; [|discriminate H].
  simpl in H. refine (evolves_playerTouched _ _ _ _ _ H).
  intros Hty r [= <-]. exists o. auto.
Qed.

Lemma guar_moveX (step : num) (keys : Keys) (self : ref) :
  guar (Player_moveX step keys self).
Proof.
  unfold Player_moveX.
  apply guar_bind; [apply guar_this|intros a].
  apply guar_bind; [apply guar_get_speed|intros sp].
  apply guar_bind; [apply guar_update_x|intros _].
  apply guar_bind; [apply guar_when, guar_update_x|intros _].
  apply guar_bind; [apply guar_when, guar_update_x|intros _].
  apply guar_bind; [apply guar_read|intros v].
  apply guar_bind; [apply guar_alloc|intros motion].
  apply guar_bind; [apply guar_Vector_plus|intros newPos].
  apply guar_bind; [apply guar_obstacleAt|intros [f|]].
  - apply guar_playerTouched_field.
  - apply guar_set_pos.
Qed.

Lemma guar_moveY (step : num) (keys : Keys) (self : ref) :
  guar (Player_moveY step keys self).
Proof.
  unfold Player_moveY.
  apply guar_bind; [apply guar_this|intros a].
  apply guar_bind; [apply guar_get_speed|intros sp].
  apply guar_bind; [apply guar_update_y|intros _].
  apply guar_bind; [apply guar_read|intros v].
  apply guar_bind; [apply guar_alloc|intros motion].
  apply guar_bind; [apply guar_Vector_plus|intros newPos].
  apply guar_bind; [apply guar_obstacleAt|intros [f|]].
  - apply guar_bind; [apply guar_playerTouched_field|intros _].
    apply guar_bind; [apply guar_read|intros w].
    destruct (up keys && fgt (y w) zero); apply guar_update_y.
  - apply guar_set_pos.
Qed.

Lemma guar_Player_act (step : num) (keys : Keys) (self : ref) :
  guar (Player_act step keys self).
Proof.
  unfold Player_act.
  apply guar_bind; [apply guar_moveX|intros _].
  apply guar_bind; [apply guar_moveY|intros _].
  apply guar_bind; [apply guar_actorAt|intros other].
  apply guar_bind; [apply guar_touch|intros _].
  apply guar_bind; [apply guar_gets|intros lv].
  apply guar_when.
  apply guar_bind; [apply guar_this|intros a].
  apply guar_bind; [apply guar_update_y|intros _]. apply guar_update_y.
Qed.

Lemma guar_Lava_act (step : num) (self : ref) : guar (Lava_act step self).
Proof.
  unfold Lava_act.
  apply guar_bind; [apply guar_this|intros a].
  apply guar_bind; [apply guar_get_speed|intros sp].
  apply guar_bind; [apply guar_Vector_times|intros motion].
  apply guar_bind; [apply guar_Vector_plus|intros newPos].
  apply guar_bind; [apply guar_obstacleAt|intros [f|]].
  - destruct (get_repeatPos a) as [rp|]; [apply guar_set_pos|].
    apply guar_bind; [apply guar_Vector_times|intros sp']. apply guar_set_speed.
  - apply guar_set_pos.
Qed.

Lemma guar_Coin_act (Math_sin : num -> num) (step : num) (self : ref) :
  guar (Coin_act Math_sin step self).
Proof.
  intros s [] s' H. unfold Coin_act in H.
  unfold this in H. rewrite !run_bind, run_gets in H.
  destruct (objs s !! self) as [a|] eqn:Ha; [|discriminate H].
  simpl in H. destruct a as [| |basePos pos size wobble]; try discriminate H.
  unfold new_Vector in H. rewrite run_bind, run_alloc in H.
  set (s1 := set_vecs _ s) in H.
  rewrite run_bind in H.
  destruct (Vector_plus _ _ s1) as [e|[pos' s2]] eqn:Ep; [discriminate H|].
  assert (Ho : objs s2 = objs s).
  { unfold Vector_plus in Ep.
    apply bind_read_result in Ep as (va & _ & Ep).
    apply bind_read_result in Ep as (vb & _ & Ep).
    unfold new_Vector in Ep. rewrite run_alloc in Ep.
    injection Ep as _ <-. reflexivity. }
  assert (E12 : evolves s s2).
  { refine (evolves_trans _ s1 _ _ (guar_Vector_plus _ _ _ _ _ Ep)).
    apply evolves_vecs; reflexivity. }
  unfold set_this, this in H. rewrite !run_bind, run_gets, Ho, Ha in H.
  simpl in H. injection H as <-.
  refine (evolves_trans _ _ _ E12 _).
  apply (evolves_set_this self (Coin basePos pos size wobble)); [|reflexivity].
  rewrite Ho. exact Ha.
Qed.

Lemma guar_act (Math_sin : num -> num) (step : num) (keys : Keys) (actor : ref) :
  guar (act Math_sin step keys actor).
Proof.
  unfold act. apply guar_bind; [apply guar_this|intros a].
  destruct a; [apply guar_Player_act|apply guar_Lava_act|apply guar_Coin_act].
Qed.

Lemma guar_forEach {A : Type} (f : A -> M unit) (xs : list A) :
  (forall a, guar (f a)) -> guar (forEach f xs).
Proof.
  intros Hf. induction xs as [|a xs IH]; simpl; [apply guar_ret|].
  apply guar_bind; [apply Hf|intros _; exact IH].
Qed.

Lemma guar_sub_step (Math_sin : num -> num) (thisStep : num) (keys : Keys) :
  guar (sub_step Math_sin thisStep keys).
Proof.
  unfold sub_step. apply guar_bind; [apply guar_gets|intros l].
  apply guar_forEach. intros r. apply guar_act.
Qed.

Lemma guar_animate_loop (Math_sin : num -> num) (fuel : nat) (step : num)
    (keys : Keys) :
  guar (animate_loop Math_sin fuel step keys).
Proof.
  revert step. induction fuel as [|fuel IH]; intros step; simpl.
  - destruct (fgt step zero); [apply guar_throw|apply guar_ret].
  - destruct (fgt step zero); [|apply guar_ret].
    apply guar_bind; [apply guar_sub_step|intros _; apply IH].
Qed.

(** [animate] first counts [finishDelay] down, which changes nothing
    else, and then lets the actors act. *)
Lemma animate_evolves (Math_sin : num -> num) (fuel : nat) (step : num)
    (keys : Keys) (s s' : State) :
  Level_animate Math_sin fuel step keys s = inr (tt, s') ->
  exists s1,
    countdown step s = inr (tt, s1)
    /\ vecs s1 = vecs s /\ objs s1 = objs s
    /\ same_ground (level s) (level s1)
    /\ actors (level s1) = actors (level s)
    /\ status (level s1) = status (level s)
    /\ finishDelay (level s1)
       = match status (level s) with
         | Some _ => Some (fsub (to_num (finishDelay (level s))) step)
         | None => finishDelay (level s)
         end
    /\ evolves s1 s'.
Proof.
  unfold Level_animate. rewrite run_bind.
  destruct (countdown step s) as [e|[[] s1]] eqn:E; [discriminate|].
  intros H. exists s1. split; [reflexivity|].
  apply guar_animate_loop in H.
  unfold countdown in E. rewrite run_bind, run_gets in E.
  destruct (status (level s)) as [st|] eqn:Hst.
  - rewrite bool_decide_eq_true_2 in E by discriminate.
    simpl in E. rewrite run_modify in E. injection E as <-.
    unfold same_ground. simpl. split_and!; auto.
  - rewrite bool_decide_eq_false_2 in E by (intros K; apply K; reflexivity).
    injection E as <-. unfold same_ground. split_and!; auto.
Qed.

(** Whatever happens in a call of [animate], the level keeps its size,
    its grid and its player; no actor is added to the list of actors and
    those that stay keep their order; the only actors that leave the
    list are coins, so the player and the lava never do; and every
    stored actor stays where it is stored and stays of its class. *)
Theorem animate_keeps_ground_and_cast
    (Math_sin : num -> num) (fuel : nat) (step : num) (keys : Keys)
    (s s' : State) :
  Level_animate Math_sin fuel step keys s = inr (tt, s') ->
  width (level s') = width (level s)
  /\ height (level s') = height (level s)
  /\ grid (level s') = grid (level s)
  /\ player (level s') = player (level s)
  /\ sublist (actors (level s')) (actors (level s))
  /\ (forall r, r ∈ actors (level s) -> r ∉ actors (level s') -> is_coin s r)
  /\ length (objs s') = length (objs s)
  /\ (forall (r : ref) a, objs s !! r = Some a ->
        exists a', objs s' !! r = Some a' /\ actor_type a' = actor_type a).
Proof.
  intros H.
  destruct (animate_evolves _ _ _ _ _ _ H)
    as (s1 & _ & _ & Ho & (W & Hh & G & P) & Ha & _ & _ & E).
  destruct E as ((W' & Hh' & G' & P') & _ & Sub & Coins & Len & Ty).
  unfold is_coin in *. rewrite Ha, Ho in *.
  split_and!; try congruence; assumption.
Qed.

Lemma animate_keeps_ground_and_cast_witness :
  exists s',
    Level_animate (fun a => a) 3 maxStep no_keys two_coins = inr (tt, s')
    /\ actors (level two_coins) = [0; 1; 2]%nat
    /\ actors (level s') = [0; 2]%nat
    /\ grid (level s') = empty3.
Proof.
  destruct (Level_animate (fun a => a) 3 maxStep no_keys two_coins)
    as [e|[[] s']] eqn:E; [vm_compute in E; discriminate E|].
  exists s'. split; [reflexivity|].
  destruct (animate_keeps_ground_and_cast _ _ _ _ _ _ E)
    as (_ & _ & G & _).
  rewrite G. vm_compute in E. injection E as <-. split_and!; reflexivity.
Defined.

(** A call of [animate] never takes a status back: a status that is set
    stays set, and ["won"] stays ["won"].  While the status stays
    [null], [finishDelay] is not touched. *)
Theorem animate_keeps_status_set
    (Math_sin : num -> num) (fuel : nat) (step : num) (keys : Keys)
    (s s' : State) :
  Level_animate Math_sin fuel step keys s = inr (tt, s') ->
  (status (level s) <> None -> status (level s') <> None)
  /\ (status (level s) = Some won -> status (level s') = Some won)
  /\ (status (level s') = None ->
        status (level s) = None
        /\ finishDelay (level s') = finishDelay (level s)).
Proof.
  intros H.
  destruct (animate_evolves _ _ _ _ _ _ H)
    as (s1 & _ & _ & _ & _ & _ & Hst & Hfd & (_ & F & _)).
  rewrite <- Hst.
  destruct F as [[E D]|(D & N & K)].
  - rewrite E. split_and!; auto.
    intros Hn. split; [exact Hn|]. rewrite D, Hfd, <- Hst, Hn. reflexivity.
  - split_and!.
    + intros _. exact N.
    + intros Hw.
      destruct (status (level s')) as [[|]|] eqn:Es; [reflexivity| |congruence].
      rewrite (K eq_refl) in Hw. discriminate Hw.
    + intros Hn. congruence.
Qed.

Lemma animate_keeps_status_set_witness :
  exists s',
    Level_animate (fun a => a) 3 maxStep no_keys
      (set_level (set_finish (Some won) (Some one)) two_coins) = inr (tt, s')
    /\ status (level s') = Some won.
Proof.
  destruct (Level_animate (fun a => a) 3 maxStep no_keys
              (set_level (set_finish (Some won) (Some one)) two_coins))
    as [e|[[] s']] eqn:E; [vm_compute in E; discriminate E|].
  exists s'. split; [reflexivity|].
  apply (animate_keeps_status_set _ _ _ _ _ _ E). reflexivity.
Defined.

(** A level is finished after a call of [animate] only if its status
    was set before the call and the countdown at the start of the call
    took [finishDelay] below zero.  What the actors do in the call never
    finishes the level: when the player wins or loses in it, the level
    is not finished before a later call. *)
Theorem animate_finishes_by_countdown_only
    (Math_sin : num -> num) (fuel : nat) (step : num) (keys : Keys)
    (s s' : State) :
  Level_animate Math_sin fuel step keys s = inr (tt, s') ->
  Level_isFinished (level s') = true ->
  status (level s) <> None
  /\ flt (fsub (to_num (finishDelay (level s))) step) zero = true.
Proof.
  intros H Hfin.
  destruct (animate_evolves _ _ _ _ _ _ H)
    as (s1 & _ & _ & _ & _ & _ & Hst & Hfd & (_ & F & _)).
  unfold Level_isFinished in Hfin. apply andb_true_iff in Hfin as [Hs Hd].
  apply bool_decide_eq_true in Hs.
  destruct F as [[E D]|(D & _)]; [|rewrite D in Hd; discriminate Hd].
  rewrite E, Hst in Hs. split; [exact Hs|].
  rewrite D, Hfd in Hd. destruct (status (level s)); [exact Hd|congruence].
Qed.

Lemma animate_finishes_by_countdown_only_witness :
  exists s',
    Level_animate (fun a => a) 3 maxStep no_keys
      (set_level (set_finish (Some lost) (Some (decimal 1 100))) sinking)
    = inr (tt, s')
    /\ Level_isFinished (level s') = true
    /\ flt (fsub (decimal 1 100) maxStep) zero = true.
Proof.
  destruct (Level_animate (fun a => a) 3 maxStep no_keys
              (set_level (set_finish (Some lost) (Some (decimal 1 100))) sinking))
    as [e|[[] s']] eqn:E; [vm_compute in E; discriminate E|].
  exists s'. split; [reflexivity|].
  assert (Hfin : Level_isFinished (level s') = true).
  { vm_compute in E. injection E as <-. reflexivity. }
  split; [exact Hfin|].
  apply (animate_finishes_by_countdown_only _ _ _ _ _ _ E Hfin).
Defined.

(** ** [obstacleAt] as a test of free space *)

Lemma first_nonempty_None (l : list (option Field)) :
  first_nonempty l = None <-> Forall (fun f => f = None) l.
Proof.
  split; [|apply first_nonempty_all_empty].
  induction l as [|[f|] l IH]; simpl; [constructor|discriminate|].
  intros H. constructor; auto.
Qed.

(** When the grid has a row for every [y] below [height], [obstacleAt]
    raises no error, whatever the numbers are. *)
Lemma obstacleAt_total (lv : Level) (p sz : Vector) :
  length (grid lv) = height lv ->
  exists o, obstacleAt lv p sz = inr o.
Proof.
  intros Hrows. unfold obstacleAt.
  destruct (jlt (xStart_of p) 0 || jgt (xEnd_of p sz) (Z.of_nat (width lv))
            || jlt (yStart_of p) 0) eqn:G1; [eauto|].
  destruct (jgt (yEnd_of p sz) (Z.of_nat (height lv))) eqn:G2; [eauto|].
  destruct (yStart_of p) as [| |c] eqn:Hc; [eauto|eauto|].
  destruct (yEnd_of p sz) as [| |d] eqn:Hd; [eauto|eauto|].
  destruct (xStart_of p) as [| |a]; [eauto|eauto|].
  destruct (xEnd_of p sz) as [| |b]; [eauto|eauto|].
  apply orb_false_iff in G1 as [_ G1]. simpl in G1, G2.
  apply Z.ltb_ge in G1, G2.
  rewrite scan_y_spec by lia. eauto.
Qed.



(** * The simulation raises no error *)

Lemma grows_refl (s : State) : grows s s.
Proof. split_and!; auto. intros r a Ha. exists a. auto. Qed.

Lemma grows_trans (s1 s2 s3 : State) : grows s1 s2 -> grows s2 s3 -> grows s1 s3.
Proof.
  intros (V1 & L1 & T1) (V2 & L2 & T2). split_and!; [lia|congruence|].
  intros r a Ha. destruct (T1 r a Ha) as (a2 & Ha2 & Hty2).
  destruct (T2 r a2 Ha2) as (a3 & Ha3 & Hty3). exists a3. split; [exact Ha3|congruence].
Qed.

Lemma fields_in_more (n n' : nat) (a : Actor) :
  (n <= n')%nat -> fields_in n a -> fields_in n' a.
Proof.
  intros Hn. destruct a as [p sz sp|p sz [sp|] rp|bp p sz w]; simpl; try tauto.
  - lia.
  - intros (H & Hrp). split; [lia|]. intros q Hq. specialize (Hrp q Hq). lia.
  - lia.
Qed.

Lemma stable_valid (l : loc) : stable (fun s => (l < length (vecs s))%nat).
Proof. intros s s' H (V & _). lia. Qed.

Lemma stable_known (r : ref) : stable (fun s => (r < length (objs s))%nat).
Proof. intros s s' H (_ & L & _). lia. Qed.

Lemma stable_has_type (r : ref) (t : string) : stable (has_type r t).
Proof.
  intros s s' H (_ & _ & T). unfold has_type in *.
  destruct (objs s !! r) as [a|] eqn:Ha; [|discriminate H].
  destruct (T r a Ha) as (a' & -> & Hty). simpl in *. congruence.
Qed.

Lemma stable_fields (a : Actor) : stable (fun s => fields_in (length (vecs s)) a).
Proof. intros s s' H (V & _). exact (fields_in_more _ _ _ V H). Qed.

Lemma stable_and (P Q : State -> Prop) :
  stable P -> stable Q -> stable (fun s => P s /\ Q s).
Proof. intros HP HQ s s' [H1 H2] G. split; [exact (HP _ _ H1 G)|exact (HQ _ _ H2 G)]. Qed.

Lemma stable_pure (P : Prop) : stable (fun _ => P).
Proof. intros s s' H _. exact H. Qed.

Lemma stable_Forall {A : Type} (P : A -> State -> Prop) (l : list A) :
  (forall a, stable (P a)) -> stable (fun s => Forall (fun a => P a s) l).
Proof.
  intros HP s s' H G. eapply Forall_impl; [exact H|]. intros a Ha.
  exact (HP a s s' Ha G).
Qed.

(** The rules of [safe]. *)
Lemma safe_bind {A B : Type} (P : State -> Prop) (Q : A -> State -> Prop)
    (R : B -> State -> Prop) (m : M A) (k : A -> M B) :
  safe P m Q -> (forall a, safe (Q a) (k a) R) -> safe P (m ≫= k) R.
Proof.
  intros Hm Hk s Hwf HP.
  destruct (Hm s Hwf HP) as (a & s1 & E1 & Hwf1 & G1 & HQ).
  destruct (Hk a s1 Hwf1 HQ) as (b & s2 & E2 & Hwf2 & G2 & HR).
  exists b, s2. rewrite (run_bind_ok _ _ _ _ _ E1).
  split_and!; auto. exact (grows_trans _ _ _ G1 G2).
Qed.

Lemma safe_weaken {A : Type} (P P' : State -> Prop) (Q Q' : A -> State -> Prop)
    (m : M A) :
  safe P m Q ->
  (forall s, well_formed s -> P' s -> P s) ->
  (forall a s, well_formed s -> Q a s -> Q' a s) ->
  safe P' m Q'.
Proof.
  intros Hm HP HQ s Hwf H.
  destruct (Hm s Hwf (HP s Hwf H)) as (a & s' & E & Hwf' & G & Q1).
  exists a, s'. split_and!; auto.
Qed.

(** A computation that reads the state only. *)
Lemma safe_reads {A : Type} (P : State -> Prop) (Q : A -> State -> Prop)
    (m : M A) :
  (forall s, well_formed s -> P s -> exists a, m s = inr (a, s) /\ Q a s) ->
  safe P m Q.
Proof.
  intros Hm s Hwf HP. destruct (Hm s Hwf HP) as (a & E & HQ).
  exists a, s. split_and!; auto. apply grows_refl.
Qed.

Lemma safe_ret {A : Type} (P : State -> Prop) (a : A) :
  safe P (mret a) (fun b s => P s /\ b = a).
Proof. apply safe_reads. intros s _ HP. exists a. auto. Qed.

Lemma safe_gets {A : Type} (P : State -> Prop) (f : State -> A) :
  safe P (gets f) (fun a s => P s /\ a = f s).
Proof. apply safe_reads. intros s _ HP. exists (f s). auto. Qed.

Lemma safe_read (P : State -> Prop) (l : loc) :
  (forall s, P s -> (l < length (vecs s))%nat) ->
  safe P (read l) (fun _ s => P s).
Proof.
  intros Hl. apply safe_reads. intros s _ HP.
  destruct (lookup_lt_is_Some_2 _ _ (Hl s HP)) as [v Hv].
  exists v. split; [apply run_read, Hv|exact HP].
Qed.

Lemma safe_this (P : State -> Prop) (r : ref) :
  (forall s, P s -> (r < length (objs s))%nat) ->
  safe P (this r)
    (fun a s => P s /\ objs s !! r = Some a /\ fields_in (length (vecs s)) a).
Proof.
  intros Hr. apply safe_reads. intros s (_ & _ & Hf) HP.
  destruct (lookup_lt_is_Some_2 _ _ (Hr s HP)) as [a Ha].
  exists a. split; [apply run_this, Ha|]. split_and!; auto.
  exact (Forall_lookup_1 _ _ _ _ Hf Ha).
Qed.

(** A change of the stored vectors that keeps all of them stored. *)
Lemma well_formed_vecs (s : State) (f : list Vector -> list Vector) :
  (length (vecs s) <= length (f (vecs s)))%nat ->
  well_formed s -> well_formed (set_vecs f s) /\ grows s (set_vecs f s).
Proof.
  intros Hlen (Hg & Hst & Hf). split.
  - split_and!; [exact Hg|exact Hst|]. simpl.
    eapply Forall_impl; [exact Hf|]. intros a. apply fields_in_more, Hlen.
  - split_and!; [exact Hlen|reflexivity|]. intros r a Ha. exists a. auto.
Qed.

Lemma safe_alloc (P : State -> Prop) (v : Vector) :
  stable P ->
  safe P (alloc v) (fun l s => P s /\ (l < length (vecs s))%nat).
Proof.
  intros HP s Hwf H. rewrite run_alloc.
  destruct (well_formed_vecs s (fun h => h ++ [v])) as [Hwf' G];
    [rewrite length_app; lia|exact Hwf|].
  eexists _, _. split; [reflexivity|]. split_and!; auto.
  - exact (HP _ _ H G).
  - simpl. rewrite length_app. simpl. lia.
Qed.

Lemma safe_write (P : State -> Prop) (l : loc) (v : Vector) :
  stable P ->
  (forall s, P s -> (l < length (vecs s))%nat) ->
  safe P (write l v) (fun _ s => P s).
Proof.
  intros HP Hl s Hwf H.
  destruct (lookup_lt_is_Some_2 _ _ (Hl s H)) as [w Hw].
  rewrite (run_write _ _ _ _ Hw).
  destruct (well_formed_vecs s (fun h => <[l := v]> h)) as [Hwf' G];
    [rewrite length_insert; lia|exact Hwf|].
  eexists _, _. split; [reflexivity|]. split_and!; auto.
  exact (HP _ _ H G).
Qed.

Lemma safe_Vector_plus (P : State -> Prop) (a b : loc) :
  stable P ->
  (forall s, P s -> (a < length (vecs s))%nat) ->
  (forall s, P s -> (b < length (vecs s))%nat) ->
  safe P (Vector_plus a b) (fun l s => P s /\ (l < length (vecs s))%nat).
Proof.
  intros HP Ha Hb. unfold Vector_plus.
  apply (safe_bind _ (fun _ s => P s)); [apply safe_read, Ha|intros va].
  apply (safe_bind _ (fun _ s => P s)); [apply safe_read, Hb|intros vb].
  apply safe_alloc, HP.
Qed.

Lemma safe_Vector_times (P : State -> Prop) (a : loc) (f : num) :
  stable P ->
  (forall s, P s -> (a < length (vecs s))%nat) ->
  safe P (Vector_times a f) (fun l s => P s /\ (l < length (vecs s))%nat).
Proof.
  intros HP Ha. unfold Vector_times.
  apply (safe_bind _ (fun _ s => P s)); [apply safe_read, Ha|intros va].
  apply safe_alloc, HP.
Qed.

Lemma safe_update_x (P : State -> Prop) (l : loc) (f : num -> num) :
  stable P ->
  (forall s, P s -> (l < length (vecs s))%nat) ->
  safe P (update_x l f) (fun _ s => P s).
Proof.
  intros HP Hl. unfold update_x.
  apply (safe_bind _ (fun _ s => P s)); [apply safe_read, Hl|intros v].
  apply safe_write; assumption.
Qed.

Lemma safe_update_y (P : State -> Prop) (l : loc) (f : num -> num) :
  stable P ->
  (forall s, P s -> (l < length (vecs s))%nat) ->
  safe P (update_y l f) (fun _ s => P s).
Proof.
  intros HP Hl. unfold update_y.
  apply (safe_bind _ (fun _ s => P s)); [apply safe_read, Hl|intros v].
  apply safe_write; assumption.
Qed.

Lemma safe_when (P : State -> Prop) (b : bool) (m : M unit) :
  safe P m (fun _ s => P s) -> safe P (when b m) (fun _ s => P s).
Proof.
  destruct b; [auto|]. intros _. simpl.
  apply (safe_weaken P P (fun b s => P s /\ b = tt));
    [apply safe_ret|auto|intros a s _ [H _]; exact H].
Qed.

Lemma safe_obstacleAt (P : State -> Prop) (pos size : loc) :
  (forall s, P s -> (pos < length (vecs s))%nat) ->
  (forall s, P s -> (size < length (vecs s))%nat) ->
  safe P (Level_obstacleAt pos size) (fun _ s => P s).
Proof.
  intros Hp Hs. apply safe_reads. intros s (Hg & _) HP.
  destruct (lookup_lt_is_Some_2 _ _ (Hp s HP)) as [p Hpv].
  destruct (lookup_lt_is_Some_2 _ _ (Hs s HP)) as [sz Hsz].
  rewrite (run_obstacleAt _ _ _ _ _ Hpv Hsz).
  destruct (obstacleAt_total (level s) p sz Hg) as [o ->]. exists o. auto.
Qed.

(** Replacing a stored actor by one of its class whose vectors are
    stored. *)
Lemma safe_set_field (P : State -> Prop) (r : ref) (f : Actor -> Actor) :
  stable P ->
  (forall s, P s -> (r < length (objs s))%nat) ->
  (forall a, actor_type (f a) = actor_type a) ->
  (forall s a, P s -> fields_in (length (vecs s)) a ->
     fields_in (length (vecs s)) (f a)) ->
  safe P (a ← this r; set_this r (f a)) (fun _ s => P s).
Proof.
  intros HP Hr Hty Hf s Hwf H.
  destruct (lookup_lt_is_Some_2 _ _ (Hr s H)) as [a Ha].
  rewrite (run_bind_ok _ _ _ _ _ (run_this _ _ _ Ha)).
  rewrite (run_set_this _ _ _ _ Ha).
  destruct Hwf as (Hg & Hst & Hfs).
  assert (G : grows s (set_objs (fun h => <[r := f a]> h) s)).
  { split_and!; [reflexivity|apply length_insert|].
    intros r' a' Ha'. simpl. destruct (decide (r' = r)) as [->|Hne].
    - exists (f a). split; [apply list_lookup_insert_eq, Hr, H|].
      rewrite Hty. unfold ref in *. congruence.
    - exists a'. rewrite list_lookup_insert_ne by congruence. auto. }
  eexists _, _. split; [reflexivity|].
  split_and!; [|exact G|exact (HP _ _ H G)].
  unfold well_formed. simpl. split_and!; [exact Hg| |].
  - unfold stored in *. simpl. eapply Forall_impl; [exact Hst|].
    intros r' [b Hb]. apply lookup_lt_is_Some. rewrite length_insert.
    eapply lookup_lt_Some, Hb.
  - apply Forall_insert; [exact Hfs|].
    apply (Hf s a H). exact (Forall_lookup_1 _ _ _ _ Hfs Ha).
Qed.

Lemma safe_set_pos (P : State -> Prop) (r : ref) (p : loc) :
  stable P ->
  (forall s, P s -> (r < length (objs s))%nat) ->
  (forall s, P s -> (p < length (vecs s))%nat) ->
  safe P (set_pos r p) (fun _ s => P s).
Proof.
  intros HP Hr Hp. apply safe_set_field; auto.
  - intros []; reflexivity.
  - intros s a H. specialize (Hp s H).
    destruct a as [? ? ?|? ? [?|] ?|? ? ? ?]; simpl; tauto.
Qed.

Lemma safe_set_speed (P : State -> Prop) (r : ref) (sp : loc) :
  stable P ->
  (forall s, P s -> (r < length (objs s))%nat) ->
  (forall s, P s -> (sp < length (vecs s))%nat) ->
  safe P (set_speed r sp) (fun _ s => P s).
Proof.
  intros HP Hr Hp. apply safe_set_field; auto.
  - intros []; reflexivity.
  - intros s a H. specialize (Hp s H).
    destruct a as [? ? ?|? ? [?|] ?|? ? ? ?]; simpl; tauto.
Qed.

Lemma some_coin_returns (l : list ref) (s : State) :
  stored s l -> exists b, some_coin l s = inr (b, s).
Proof.
  induction 1 as [|r l [a Ha] _ [b IH]]; simpl; [eauto|].
  rewrite (run_bind_ok _ _ _ _ _ (run_this _ _ _ Ha)).
  destruct (decide _); eauto.
Qed.

Lemma well_formed_level (s : State) (lv : Level) :
  grid lv = grid (level s) -> height lv = height (level s) ->
  actors lv ⊆ actors (level s) ->
  well_formed s ->
  well_formed (set_level (fun _ => lv) s) /\ grows s (set_level (fun _ => lv) s).
Proof.
  intros Hg Hh Ha (G & Hst & Hf). split.
  - split_and!; simpl; [congruence| |exact Hf].
    unfold stored in *. rewrite Forall_forall in *. intros r Hr. apply Hst, Ha, Hr.
  - split_and!; simpl; [lia|reflexivity|]. intros r a Hr. exists a. auto.
Qed.

Lemma safe_playerTouched (P : State -> Prop) (type : string) (actor : option ref) :
  stable P ->
  safe P (Level_playerTouched type actor) (fun _ s => P s).
Proof.
  intros HP s Hwf H. unfold Level_playerTouched. rewrite run_bind, run_gets.
  destruct (bool_decide (type = "lava") && bool_decide (status (level s) = None)).
  - rewrite run_modify.
    destruct (well_formed_level s (set_finish (Some lost) (Some one) (level s)))
      as [Hwf' G]; try reflexivity; try exact Hwf.
    eexists _, _. split; [reflexivity|].
    split_and!; [exact Hwf'|exact G|exact (HP _ _ H G)].
  - destruct (bool_decide (type = "coin")).
    + rewrite run_bind, run_modify.
      set (l' := filter _ (actors (level s))).
      destruct (well_formed_level s (set_actors l' (level s)))
        as [Hwf1 G1]; try reflexivity; try exact Hwf.
      { intros r Hr. apply list_elem_of_filter in Hr as [_ Hr]. exact Hr. }
      change (set_level (set_actors l') s)
        with (set_level (fun _ => set_actors l' (level s)) s).
      set (s1 := set_level _ s) in *.
      rewrite run_bind, run_gets.
      destruct (some_coin_returns (actors (level s1)) s1) as [b Hb];
        [apply Hwf1|].
      rewrite (run_bind_ok _ _ _ _ _ Hb).
      destruct b; simpl.
      * eexists _, _. split; [reflexivity|].
        split_and!; [exact Hwf1|exact G1|exact (HP _ _ H G1)].
      * rewrite run_modify.
        destruct (well_formed_level s1 (set_finish (Some won) (Some one) (level s1)))
          as [Hwf2 G2]; try reflexivity; try exact Hwf1.
        eexists _, _. split; [reflexivity|].
        pose proof (grows_trans _ _ _ G1 G2) as G.
        split_and!; [exact Hwf2|exact G|exact (HP _ _ H G)].
    + eexists _, _. split; [reflexivity|].
      split_and!; [exact Hwf|apply grows_refl|exact H].
Qed.

Lemma actorAt_returns (actor : ref) (others : list ref) (s : State) :
  well_formed s -> (actor < length (objs s))%nat -> stored s others ->
  exists o, actorAt_from actor others s = inr (o, s)
            /\ forall r, o = Some r -> (r < length (objs s))%nat.
Proof.
  intros (_ & _ & Hf) Ha Hst.
  destruct (lookup_lt_is_Some_2 _ _ Ha) as [a Haa].
  pose proof (Forall_lookup_1 _ _ _ _ Hf Haa) as Hfa.
  induction Hst as [|other rest [o Ho] _ IH]; simpl.
  - exists None. split; [reflexivity|discriminate].
  - destruct (decide (other = actor)); [exact IH|].
    pose proof (Forall_lookup_1 _ _ _ _ Hf Ho) as Hfo.
    assert (Hpos : forall b, fields_in (length (vecs s)) b ->
              is_Some (vecs s !! actor_pos b) /\ is_Some (vecs s !! actor_size b)).
    { intros b Hb. split; apply lookup_lt_is_Some;
        destruct b as [? ? ?|? ? [?|] ?|? ? ? ?]; simpl in *; tauto. }
    destruct (Hpos a Hfa) as [[ap Hap] [asz Hasz]].
    destruct (Hpos o Hfo) as [[op Hop] [osz Hosz]].
    rewrite (run_bind_ok _ _ _ _ _ (run_this _ _ _ Haa)).
    rewrite (run_bind_ok _ _ _ _ _ (run_this _ _ _ Ho)).
    rewrite (run_bind_ok _ _ _ _ _ (run_read _ _ _ Hap)).
    rewrite (run_bind_ok _ _ _ _ _ (run_read _ _ _ Hasz)).
    rewrite (run_bind_ok _ _ _ _ _ (run_read _ _ _ Hop)).
    rewrite (run_bind_ok _ _ _ _ _ (run_read _ _ _ Hosz)).
    destruct (overlaps ap asz op osz); [|exact IH].
    exists (Some other). split; [reflexivity|].
    intros r [= <-]. eapply lookup_lt_Some, Ho.
Qed.

Lemma safe_actorAt (P : State -> Prop) (actor : ref) :
  (forall s, P s -> (actor < length (objs s))%nat) ->
  safe P (Level_actorAt actor)
    (fun o s => P s /\ forall r, o = Some r -> (r < length (objs s))%nat).
Proof.
  intros Ha. apply safe_reads. intros s Hwf H. unfold Level_actorAt.
  rewrite run_bind, run_gets.
  destruct (actorAt_returns actor (actors (level s)) s Hwf (Ha s H))
    as (o & E & Ho); [apply Hwf|].
  exists o. auto.
Qed.

Lemma safe_touch (P : State -> Prop) (other : option ref) :
  stable P ->
  (forall s r, P s -> other = Some r -> (r < length (objs s))%nat) ->
  safe P (touch other) (fun _ s => P s).
Proof.
  intros HP Ho. destruct other as [other|]; simpl.
  - apply (safe_bind _ (fun _ s => P s)).
    + apply (safe_weaken P P
               (fun a s => P s /\ objs s !! other = Some a
                           /\ fields_in (length (vecs s)) a));
        [apply safe_this|auto|intros a s _ [H _]; exact H].
      intros s H. exact (Ho s other H eq_refl).
    + intros o. apply safe_playerTouched, HP.
  - apply (safe_weaken P P (fun b s => P s /\ b = tt));
      [apply safe_ret|auto|intros a s _ [H _]; exact H].
Qed.

Lemma safe_pure_pre {A : Type} (P : State -> Prop) (Q : A -> State -> Prop)
    (m : M A) (phi : Prop) :
  (forall s, well_formed s -> P s -> phi) -> (phi -> safe P m Q) -> safe P m Q.
Proof. intros H1 H2 s Hwf HP. exact (H2 (H1 s Hwf HP) s Hwf HP). Qed.

Lemma has_type_known (r : ref) (t : string) (s : State) :
  has_type r t s -> (r < length (objs s))%nat.
Proof.
  unfold has_type. intros H.
  destruct (objs s !! r) as [a|] eqn:E; [|discriminate H].
  exact (lookup_lt_Some _ _ _ E).
Qed.

(** [this self], for an actor of a known class: what it returns is of
    that class and names stored vectors. *)
Lemma safe_this_typed (P : State -> Prop) (self : ref) (t : string)
    {B : Type} (k : Actor -> M B) (R : B -> State -> Prop) :
  (forall s, P s -> has_type self t s) ->
  (forall a, actor_type a = t ->
     safe (fun s => P s /\ fields_in (length (vecs s)) a) (k a) R) ->
  safe P (this self ≫= k) R.
Proof.
  intros Hty Hk.
  apply (safe_bind _ (fun a s => P s /\ objs s !! self = Some a
                                 /\ fields_in (length (vecs s)) a)).
  - apply safe_this. intros s H. apply (has_type_known self t), Hty, H.
  - intros a. apply (safe_pure_pre _ _ _ (actor_type a = t)).
    + intros s _ (H & Ha & _). specialize (Hty s H). unfold has_type in Hty.
      rewrite Ha in Hty. injection Hty as ->. reflexivity.
    + intros Ha. eapply safe_weaken; [exact (Hk a Ha)| |auto].
      intros s _ (H & _ & Hf). auto.
Qed.

Lemma safe_ret_bind {A B : Type} (P : State -> Prop) (R : B -> State -> Prop)
    (a : A) (k : A -> M B) :
  safe P (k a) R -> safe P (mret a ≫= k) R.
Proof. intros H s Hwf HP. exact (H s Hwf HP). Qed.

Section SafeMethods.

Variable P : State -> Prop.
Hypothesis P_stable : stable P.

Lemma safe_moveX (step : num) (keys : Keys) (self : ref) :
  (forall s, P s -> has_type self "player" s) ->
  safe P (Player_moveX step keys self) (fun _ s => P s).
Proof.
  intros Hty. unfold Player_moveX.
  apply (safe_this_typed P self "player"); [exact Hty|].
  intros [p sz sp|? ? ? ?|? ? ? ?] Ha; try discriminate Ha. cbn [get_speed actor_pos actor_size].
  set (P1 := fun s => P s /\ fields_in (length (vecs s)) (Player p sz sp)).
  assert (S1 : stable P1) by (apply stable_and; [exact P_stable|apply stable_fields]).
  assert (Hsp : forall s, P1 s -> (sp < length (vecs s))%nat)
    by (intros s [_ H]; simpl in H; tauto).
  assert (Hp : forall s, P1 s -> (p < length (vecs s))%nat)
    by (intros s [_ H]; simpl in H; tauto).
  assert (Hsz : forall s, P1 s -> (sz < length (vecs s))%nat)
    by (intros s [_ H]; simpl in H; tauto).
  apply safe_ret_bind.
  apply (safe_bind _ (fun _ s => P1 s)); [apply safe_update_x; auto|intros _].
  apply (safe_bind _ (fun _ s => P1 s));
    [apply safe_when, safe_update_x; auto|intros _].
  apply (safe_bind _ (fun _ s => P1 s));
    [apply safe_when, safe_update_x; auto|intros _].
  apply (safe_bind _ (fun _ s => P1 s)); [apply safe_read; auto|intros v].
  apply (safe_bind _ (fun l s => P1 s /\ (l < length (vecs s))%nat));
    [apply safe_alloc, S1|intros motion].
  apply (safe_bind _ (fun l s => P1 s /\ (l < length (vecs s))%nat)).
  { eapply safe_weaken;
      [apply (safe_Vector_plus
                (fun s => P1 s /\ (motion < length (vecs s))%nat) p motion)
      |auto|].
    - apply stable_and; [exact S1|apply stable_valid].
    - intros s [H _]. auto.
    - intros s [_ H]. exact H.
    - intros l s _ [[H _] Hl]. auto. }
  intros newPos.
  apply (safe_bind _ (fun _ s => P1 s /\ (newPos < length (vecs s))%nat)).
  { apply safe_obstacleAt; [intros s [_ H]; exact H|intros s [H _]; auto]. }
  intros [f|].
  - eapply safe_weaken; [apply (safe_playerTouched P (field_name f) None), P_stable| |auto].
    intros s _ [[H _] _]. exact H.
  - eapply safe_weaken;
      [apply (safe_set_pos (fun s => P s /\ (newPos < length (vecs s))%nat)
                self newPos)| |].
    + apply stable_and; [exact P_stable|apply stable_valid].
    + intros s [H _]. apply (has_type_known self "player"), Hty, H.
    + intros s [_ H]. exact H.
    + intros s _ [[H _] Hl]. auto.
    + intros a s _ [H _]. exact H.
Qed.

Lemma safe_moveY (step : num) (keys : Keys) (self : ref) :
  (forall s, P s -> has_type self "player" s) ->
  safe P (Player_moveY step keys self) (fun _ s => P s).
Proof.
  intros Hty. unfold Player_moveY.
  apply (safe_this_typed P self "player"); [exact Hty|].
  intros [p sz sp|? ? ? ?|? ? ? ?] Ha; try discriminate Ha.
  cbn [get_speed actor_pos actor_size].
  set (P1 := fun s => P s /\ fields_in (length (vecs s)) (Player p sz sp)).
  assert (S1 : stable P1) by (apply stable_and; [exact P_stable|apply stable_fields]).
  assert (Hsp : forall s, P1 s -> (sp < length (vecs s))%nat)
    by (intros s [_ H]; simpl in H; tauto).
  assert (Hp : forall s, P1 s -> (p < length (vecs s))%nat)
    by (intros s [_ H]; simpl in H; tauto).
  assert (Hsz : forall s, P1 s -> (sz < length (vecs s))%nat)
    by (intros s [_ H]; simpl in H; tauto).
  apply safe_ret_bind.
  apply (safe_bind _ (fun _ s => P1 s)); [apply safe_update_y; auto|intros _].
  apply (safe_bind _ (fun _ s => P1 s)); [apply safe_read; auto|intros v].
  apply (safe_bind _ (fun l s => P1 s /\ (l < length (vecs s))%nat));
    [apply safe_alloc, S1|intros motion].
  apply (safe_bind _ (fun l s => P1 s /\ (l < length (vecs s))%nat)).
  { eapply safe_weaken;
      [apply (safe_Vector_plus
                (fun s => P1 s /\ (motion < length (vecs s))%nat) p motion)
      |auto|].
    - apply stable_and; [exact S1|apply stable_valid].
    - intros s [H _]. auto.
    - intros s [_ H]. exact H.
    - intros l s _ [[H _] Hl]. auto. }
  intros newPos.
  apply (safe_bind _ (fun _ s => P1 s /\ (newPos < length (vecs s))%nat)).
  { apply safe_obstacleAt; [intros s [_ H]; exact H|intros s [H _]; auto]. }
  intros [f|].
  - apply (safe_bind _ (fun _ s => P1 s)).
    { eapply safe_weaken;
        [apply (safe_playerTouched P1 (field_name f) None), S1| |auto].
      intros s _ [H _]. exact H. }
    intros _.
    apply (safe_bind _ (fun _ s => P1 s)); [apply safe_read; auto|intros w].
    apply (safe_weaken P1 P1 (fun _ s => P1 s));
      [|auto|intros a s _ [H _]; exact H].
    destruct (up keys && fgt (y w) zero); apply safe_update_y; auto.
  - eapply safe_weaken;
      [apply (safe_set_pos (fun s => P s /\ (newPos < length (vecs s))%nat)
                self newPos)| |].
    + apply stable_and; [exact P_stable|apply stable_valid].
    + intros s [H _]. apply (has_type_known self "player"), Hty, H.
    + intros s [_ H]. exact H.
    + intros s _ [[H _] Hl]. auto.
    + intros a s _ [H _]. exact H.
Qed.

Lemma safe_Player_act (step : num) (keys : Keys) (self : ref) :
  (forall s, P s -> has_type self "player" s) ->
  safe P (Player_act step keys self) (fun _ s => P s).
Proof.
  intros Hty. unfold Player_act.
  apply (safe_bind _ (fun _ s => P s)); [apply safe_moveX, Hty|intros _].
  apply (safe_bind _ (fun _ s => P s)); [apply safe_moveY, Hty|intros _].
  apply (safe_bind _ (fun o s => P s /\ forall r, o = Some r ->
                                             (r < length (objs s))%nat)).
  { apply safe_actorAt. intros s H. apply (has_type_known self "player"), Hty, H. }
  intros other.
  apply (safe_bind _ (fun _ s => P s)).
  { eapply safe_weaken;
      [apply (safe_touch
                (fun s => P s /\ forall r, other = Some r ->
                                           (r < length (objs s))%nat) other)
      |auto|intros a s _ [H _]; exact H].
    - apply stable_and; [exact P_stable|].
      intros s s' H G r Hr. exact (stable_known r s s' (H r Hr) G).
    - intros s r [_ H] Hr. exact (H r Hr). }
  intros _.
  apply (safe_bind _ (fun _ s => P s)).
  { apply (safe_weaken P P (fun a s => P s /\ a = level s));
      [apply safe_gets|auto|intros a s _ [H _]; exact H]. }
  intros lv. apply safe_when.
  apply (safe_this_typed P self "player"); [exact Hty|].
  intros a _.
  set (P1 := fun s => P s /\ fields_in (length (vecs s)) a).
  assert (S1 : stable P1) by (apply stable_and; [exact P_stable|apply stable_fields]).
  assert (Hf : forall s, P1 s -> (actor_pos a < length (vecs s))%nat
                                 /\ (actor_size a < length (vecs s))%nat).
  { intros s [_ H]. destruct a as [? ? ?|? ? [?|] ?|? ? ? ?]; simpl in *; tauto. }
  apply (safe_bind _ (fun _ s => P1 s));
    [apply safe_update_y; [exact S1|intros s H; apply Hf, H]|intros _].
  eapply safe_weaken;
    [apply (safe_update_y P1); [exact S1|intros s H; apply Hf, H]
    |auto|intros b s _ [H _]; exact H].
Qed.

Lemma safe_Lava_act (step : num) (self : ref) :
  (forall s, P s -> has_type self "lava" s) ->
  safe P (Lava_act step self) (fun _ s => P s).
Proof.
  intros Hty. unfold Lava_act.
  apply (safe_this_typed P self "lava"); [exact Hty|].
  intros [? ? ?|p sz sp rp|? ? ? ?] Ha; try discriminate Ha.
  set (P1 := fun s => P s /\ fields_in (length (vecs s)) (Lava p sz sp rp)).
  assert (S1 : stable P1) by (apply stable_and; [exact P_stable|apply stable_fields]).
  apply (safe_pure_pre _ _ _ (exists v, sp = Some v)).
  { intros s _ [_ H]. destruct sp as [v|]; [eauto|destruct H]. }
  intros [v ->]. cbn [get_speed actor_pos actor_size get_repeatPos].
  assert (Hsp : forall s, P1 s -> (v < length (vecs s))%nat)
    by (intros s [_ H]; simpl in H; tauto).
  assert (Hp : forall s, P1 s -> (p < length (vecs s))%nat)
    by (intros s [_ H]; simpl in H; tauto).
  assert (Hsz : forall s, P1 s -> (sz < length (vecs s))%nat)
    by (intros s [_ H]; simpl in H; tauto).
  assert (Hself : forall s, P1 s -> (self < length (objs s))%nat).
  { intros s [H _]. apply (has_type_known self "lava"), Hty, H. }
  apply safe_ret_bind.
  apply (safe_bind _ (fun l s => P1 s /\ (l < length (vecs s))%nat));
    [apply safe_Vector_times; auto|intros motion].
  apply (safe_bind _ (fun l s => P1 s /\ (l < length (vecs s))%nat)).
  { eapply safe_weaken;
      [apply (safe_Vector_plus
                (fun s => P1 s /\ (motion < length (vecs s))%nat) p motion)
      |auto|].
    - apply stable_and; [exact S1|apply stable_valid].
    - intros s [H _]. auto.
    - intros s [_ H]. exact H.
    - intros l s _ [[H _] Hl]. auto. }
  intros newPos.
  apply (safe_bind _ (fun _ s => P1 s /\ (newPos < length (vecs s))%nat)).
  { apply safe_obstacleAt; [intros s [_ H]; exact H|intros s [H _]; auto]. }
  intros [f|].
  - destruct rp as [repeatPos|].
    + eapply safe_weaken;
        [apply (safe_set_pos P1 self repeatPos); auto
        |intros s _ [H _]; exact H|intros a s _ [H _]; exact H].
      intros s [_ H]. simpl in H. destruct H as [_ H]. exact (H repeatPos eq_refl).
    + apply (safe_bind _ (fun l s => P1 s /\ (l < length (vecs s))%nat)).
      { eapply safe_weaken;
          [apply (safe_Vector_times P1 v); auto|intros s _ [H _]; exact H|auto]. }
      intros sp'.
      eapply safe_weaken;
        [apply (safe_set_speed (fun s => P1 s /\ (sp' < length (vecs s))%nat)
                  self sp')|auto|intros a s _ [[H _] _]; exact H].
      * apply stable_and; [exact S1|apply stable_valid].
      * intros s [H _]. auto.
      * intros s [_ H]. exact H.
  - eapply safe_weaken;
      [apply (safe_set_pos (fun s => P1 s /\ (newPos < length (vecs s))%nat)
                self newPos)|auto|intros a s _ [[H _] _]; exact H].
    + apply stable_and; [exact S1|apply stable_valid].
    + intros s [H _]. auto.
    + intros s [_ H]. exact H.
Qed.

Lemma safe_Coin_act (Math_sin : num -> num) (step : num) (self : ref) :
  (forall s, P s -> has_type self "coin" s) ->
  safe P (Coin_act Math_sin step self) (fun _ s => P s).
Proof.
  intros Hty. unfold Coin_act.
  apply (safe_this_typed P self "coin"); [exact Hty|].
  intros [? ? ?|? ? ? ?|basePos pos size wobble] Ha; try discriminate Ha.
  set (P1 := fun s => P s /\ fields_in (length (vecs s))
                               (Coin basePos pos size wobble)).
  assert (S1 : stable P1) by (apply stable_and; [exact P_stable|apply stable_fields]).
  apply (safe_bind _ (fun l s => P1 s /\ (l < length (vecs s))%nat));
    [apply safe_alloc, S1|intros off].
  apply (safe_bind _ (fun l s => P1 s /\ (l < length (vecs s))%nat)).
  { eapply safe_weaken;
      [apply (safe_Vector_plus
                (fun s => P1 s /\ (off < length (vecs s))%nat) basePos off)
      |auto|].
    - apply stable_and; [exact S1|apply stable_valid].
    - intros s [[_ H] _]. simpl in H. tauto.
    - intros s [_ H]. exact H.
    - intros l s _ [[H _] Hl]. auto. }
  intros pos'.
  intros s Hwf [[HP Hf] Hpos'].
  pose proof (has_type_known self "coin" s (Hty s HP)) as Hself.
  destruct (lookup_lt_is_Some_2 _ _ Hself) as [b Hb].
  rewrite (run_set_this _ _ _ _ Hb).
  set (c := Coin basePos pos' size _).
  assert (Hbt : actor_type b = "coin").
  { specialize (Hty s HP). unfold has_type in Hty. unfold ref in *.
    rewrite Hb in Hty. injection Hty as ->. reflexivity. }
  assert (G : grows s (set_objs (fun h => <[self := c]> h) s)).
  { split_and!; [reflexivity|apply length_insert|].
    intros r' a' Ha'. simpl. destruct (decide (r' = self)) as [->|Hne].
    - exists c. split; [apply list_lookup_insert_eq, Hself|].
      unfold ref in *. rewrite Hb in Ha'. injection Ha' as <-. rewrite Hbt. reflexivity.
    - exists a'. rewrite list_lookup_insert_ne by congruence. auto. }
  destruct Hwf as (Hg & Hst & Hfs).
  eexists _, _. split; [reflexivity|].
  split_and!; [|exact G|exact (P_stable _ _ HP G)].
  unfold well_formed. simpl. split_and!; [exact Hg| |].
  - unfold stored in *. simpl. eapply Forall_impl; [exact Hst|].
    intros r' [b' Hb']. apply lookup_lt_is_Some. rewrite length_insert.
    eapply lookup_lt_Some, Hb'.
  - apply Forall_insert; [exact Hfs|]. simpl in Hf |- *. tauto.
Qed.

End SafeMethods.

Lemma safe_act (P : State -> Prop) (Math_sin : num -> num) (step : num) (keys : Keys) (actor : ref) :
  stable P ->
  (forall s, P s -> (actor < length (objs s))%nat) ->
  safe P (act Math_sin step keys actor) (fun _ s => P s).
Proof.
  intros P_stable Hr. unfold act.
  apply (safe_bind _ (fun a s => P s /\ objs s !! actor = Some a
                                 /\ fields_in (length (vecs s)) a));
    [apply safe_this, Hr|intros a].
  set (P1 := fun s => P s /\ has_type actor (actor_type a) s).
  assert (S1 : stable P1)
    by (apply stable_and; [exact P_stable|apply stable_has_type]).
  assert (W : forall (m : M unit),
            safe P1 m (fun _ s => P1 s) ->
            safe (fun s => P s /\ objs s !! actor = Some a
                           /\ fields_in (length (vecs s)) a) m (fun _ s => P s)).
  { intros m Hm. eapply safe_weaken; [exact Hm| |intros b s _ [H _]; exact H].
    intros s _ (H & Ha & _). split; [exact H|]. unfold has_type. rewrite Ha.
    reflexivity. }
  destruct a; apply W.
  - apply (safe_Player_act P1 S1); [intros s [_ H]; exact H].
  - apply (safe_Lava_act P1 S1); [intros s [_ H]; exact H].
  - apply (safe_Coin_act P1 S1); [intros s [_ H]; exact H].
Qed.


Lemma safe_forEach {A : Type} (P : State -> Prop) (f : A -> M unit) (xs : list A) :
  (forall a, a ∈ xs -> safe P (f a) (fun _ s => P s)) ->
  safe P (forEach f xs) (fun _ s => P s).
Proof.
  induction xs as [|a xs IH]; intros Hf; simpl.
  - apply (safe_weaken P P (fun b s => P s /\ b = tt));
      [apply safe_ret|auto|intros b s _ [H _]; exact H].
  - apply (safe_bind _ (fun _ s => P s)); [apply Hf; left|intros _].
    apply IH. intros b Hb. apply Hf. right. exact Hb.
Qed.

Lemma safe_sub_step (Math_sin : num -> num) (thisStep : num) (keys : Keys) :
  safe (fun _ => True) (sub_step Math_sin thisStep keys) (fun _ _ => True).
Proof.
  unfold sub_step.
  apply (safe_bind _ (fun l s => True /\ l = actors (level s)));
    [apply safe_gets|intros l].
  set (P := fun s => Forall (fun r : ref => (r < length (objs s))%nat) l).
  assert (S : stable P).
  { apply (stable_Forall (fun (r : ref) s => (r < length (objs s))%nat)).
    intros r. apply stable_known. }
  apply (safe_weaken P _ (fun _ s => P s)); [|auto|auto].
  - apply safe_forEach. intros r Hr. apply safe_act; [exact S|].
    intros s H. unfold P in H. rewrite Forall_forall in H. exact (H r Hr).
  - intros s (_ & Hst & _) [_ ->]. unfold P.
    eapply Forall_impl; [exact Hst|]. intros r Hr. apply lookup_lt_is_Some, Hr.
Qed.

Lemma countdown_returns (step : num) (s : State) :
  well_formed s ->
  exists s1, countdown step s = inr (tt, s1) /\ well_formed s1.
Proof.
  intros Hwf. unfold countdown. rewrite run_bind, run_gets.
  destruct (bool_decide (status (level s) ≠ None)); simpl; [|eauto].
  rewrite run_modify. eexists. split; [reflexivity|].
  apply (well_formed_level s
           (set_finish (status (level s))
              (Some (fsub (to_num (finishDelay (level s))) step)) (level s)));
    try reflexivity; exact Hwf.
Qed.

Lemma sub_steps_return (Math_sin : num -> num) (keys : Keys) (l : list num)
    (s : State) :
  well_formed s ->
  exists s',
    forEach (fun thisStep => sub_step Math_sin thisStep keys) l s = inr (tt, s')
    /\ well_formed s'.
Proof.
  intros Hwf.
  destruct (safe_forEach (fun _ => True)
              (fun thisStep => sub_step Math_sin thisStep keys) l
              (fun t _ => safe_sub_step Math_sin t keys) s Hwf I)
    as ([] & s' & E & Hwf' & _).
  exists s'. auto.
Qed.

Lemma animate_returns
    (Math_sin : num -> num) (fuel : nat) (step : num) (keys : Keys)
    (s : State) (l : list num) :
  well_formed s ->
  substeps fuel step = Some l ->
  exists s',
    Level_animate Math_sin fuel step keys s = inr (tt, s')
    /\ well_formed s'.
Proof.
  intros Hwf Hl.
  destruct (countdown_returns step s Hwf) as (s1 & E1 & Hwf1).
  destruct (sub_steps_return Math_sin keys l s1 Hwf1) as (s' & E2 & Hwf').
  exists s'. split; [|exact Hwf'].
  unfold Level_animate. rewrite (run_bind_ok _ _ _ _ _ E1).
  pose proof (animate_loop_substeps Math_sin keys fuel step s1) as E.
  rewrite Hl in E. rewrite E. exact E2.
Qed.

(** The well-formed states are those in which the simulation runs: from
    one of them [animate] raises no error, whatever the step and the
    keys are, and returns in a well-formed state, provided the loop ends
    within the fuel. *)
Theorem animate_never_raises
    (Math_sin : num -> num) (fuel : nat) (step : num) (keys : Keys)
    (s : State) (l : list num) :
  well_formed s ->
  substeps fuel step = Some l ->
  exists s',
    Level_animate Math_sin fuel step keys s = inr (tt, s')
    /\ well_formed s'.
Proof.
  intros Hwf Hl. unfold Level_animate.
  destruct (countdown_returns step s Hwf) as (s1 & E1 & Hwf1).
  rewrite (run_bind_ok _ _ _ _ _ E1).
  pose proof (animate_loop_substeps Math_sin keys fuel step s1) as E2.
  rewrite Hl in E2. rewrite E2.
  exact (sub_steps_return Math_sin keys l s1 Hwf1).
Qed.

Lemma animate_never_raises_witness :
  exists s',
    Level_animate (fun a => a) 2 frameCap left_key two_coins = inr (tt, s')
    /\ well_formed s'.
Proof.
  apply (animate_never_raises (fun a => a) 2 frameCap left_key two_coins
           [maxStep; maxStep]).
  - split_and!; [reflexivity| |]; repeat constructor; try (eexists; reflexivity).
  - vm_compute. reflexivity.
Defined.

(** The vectors that a new actor names are stored, and a new lava has
    a speed. *)
Lemma spawned_fields (Math_random : nat -> num) (vs : list Vector)
    (cells : list (nat * nat * ascii)) (added : list Actor) :
  Forall2 (spawned Math_random vs) cells added ->
  Forall (fields_in (length vs)) added.
Proof.
  intros F. induction F as [|[[x0 y0] ch] a cells added Hs _ IH];
    constructor; [|exact IH].
  unfold spawned in Hs. destruct (actorChars ch) as [[| |]|]; [| | |destruct Hs].
  - destruct Hs as (p & sz & sp & -> & Hp & Hsz & Hsp & _). simpl.
    split_and!; eapply lookup_lt_Some; eassumption.
  - destruct Hs as (p & sz & k & -> & Hp & Hsz). simpl.
    split_and!; eapply lookup_lt_Some; eassumption.
  - destruct Hs as (p & sz & sp & -> & Hp & Hsz & Hsp). simpl.
    split; [split_and!; eapply lookup_lt_Some; eassumption|].
    intros q Hq. case_bool_decide; [|discriminate Hq].
    injection Hq as <-. eapply lookup_lt_Some; eassumption.
Qed.

(** A level made from any plan of at least one line is well formed, if
    the state in which it is made is: the constructor stores every
    vector that its actors name, and gives every lava a speed. *)
Theorem new_Level_well_formed
    (Math_random : nat -> num) (line0 : string) (rest : list string) (s : State) :
  Forall (fields_in (length (vecs s))) (objs s) ->
  exists s',
    new_Level Math_random (line0 :: rest) s = inr (tt, s')
    /\ well_formed s'.
Proof.
  intros Hold. unfold new_Level.
  destruct (build_grid_built Math_random (line0 :: rest) 0 (String.length line0) s)
    as (acts & s1 & E & B).
  rewrite (run_bind_ok _ _ _ _ _ E).
  destruct B as (added & extra & Ho & -> & Hv & F & Hl).
  assert (Hst : stored s1 (seq (length (objs s)) (length added))).
  { apply Forall_forall. intros r Hr. apply elem_of_seq in Hr.
    apply lookup_lt_is_Some_2. rewrite Ho, length_app. lia. }
  rewrite (run_bind_ok _ _ _ _ _ (players_spec _ _ Hst)).
  rewrite run_modify. eexists. split; [reflexivity|].
  unfold well_formed. simpl. split_and!.
  - unfold ground_of. rewrite length_map. reflexivity.
  - exact Hst.
  - rewrite Ho. apply Forall_app. split.
    + eapply Forall_impl; [exact Hold|]. intros a. apply fields_in_more.
      rewrite Hv, length_app. lia.
    + exact (spawned_fields Math_random _ _ _ F).
Qed.

Lemma new_Level_well_formed_witness :
  exists s',
    new_Level (fun _ => zero) lava_then_coin initial = inr (tt, s')
    /\ well_formed s'.
Proof.
  apply (new_Level_well_formed (fun _ => zero) "     " ["xo@!x"; "xxxxx"] initial).
  constructor.
Defined.

(** * The moves of the actors *)

(** ** [Coin.act] *)

(** [Coin.act] always returns for a coin whose base position is stored.
    It adds [step * wobbleSpeed] to [wobble] and puts the coin at
    [basePos + (0, sin(wobble) * wobbleDist)], in a new vector; it looks
    at no obstacle and leaves the level, the other actors, the size and
    [basePos], and every vector that was stored, as they are.  So a coin
    stays in its column and just wobbles around [basePos]. *)
Theorem Coin_act_wobbles
    (Math_sin : num -> num) (step : num) (r : ref) (s : State)
    (basePos pos size : loc) (wobble : num) (b : Vector) :
  objs s !! r = Some (Coin basePos pos size wobble) ->
  vecs s !! basePos = Some b ->
  let wobble' := fadd wobble (fmul step wobbleSpeed) in
  let wobblePos := fmul (Math_sin wobble') wobbleDist in
  exists (s' : State) (pos' : loc),
    Coin_act Math_sin step r s = inr (tt, s')
    /\ objs s' = <[r := Coin basePos pos' size wobble']> (objs s)
    /\ vecs s !! pos' = None
    /\ vecs s' !! pos' = Some (mkVector (fadd (x b) zero) (fadd (y b) wobblePos))
    /\ (forall l v, vecs s !! l = Some v -> vecs s' !! l = Some v)
    /\ level s' = level s.
Proof.
  intros Hr Hb wobble' wobblePos. unfold Coin_act.
  rewrite (run_bind_ok _ _ _ _ _ (run_this _ _ _ Hr)).
  unfold new_Vector. rewrite run_bind, run_alloc.
  fold wobble'. fold wobblePos.
  set (s1 := set_vecs _ s).
  assert (H1 : vecs s1 !! basePos = Some b) by (apply lookup_app_l_Some, Hb).
  assert (H2 : vecs s1 !! length (vecs s) = Some (mkVector zero wobblePos))
    by apply lookup_snoc_new.
  rewrite (run_bind_ok _ _ _ _ _ (run_Vector_plus _ _ _ _ _ H1 H2)).
  set (s2 := set_vecs _ s1).
  assert (Hr2 : objs s2 !! r = Some (Coin basePos pos size wobble)) by exact Hr.
  rewrite (run_set_this _ _ _ _ Hr2).
  eexists _, (length (vecs s1)). split; [reflexivity|].
  subst s2 s1. cbn [vecs objs level set_vecs set_objs].
  split_and!; try reflexivity.
  - apply lookup_ge_None_2. rewrite length_app. cbn [length]. lia.
  - apply (lookup_snoc_new (vecs s ++ [mkVector zero wobblePos])).
  - intros l v Hl. apply lookup_app_l_Some, lookup_app_l_Some, Hl.
Qed.

Lemma Coin_act_wobbles_witness :
  exists s',
    Coin_act (fun a => a) maxStep 1%nat two_coins = inr (tt, s')
    /\ pos_of two_coins 1%nat = Some (mkVector (decimal 12 10) (decimal 11 10))
    /\ pos_of s' 1%nat
       = Some (mkVector (decimal 12 10)
                 (fadd (decimal 11 10)
                    (fmul (fmul maxStep wobbleSpeed) wobbleDist))).
Proof.
  destruct (Coin_act_wobbles (fun a => a) maxStep 1%nat two_coins
              3%nat 3%nat 4%nat zero _ eq_refl eq_refl)
    as (s' & pos' & E & _).
  exists s'. split; [exact E|].
  vm_compute in E. injection E as <-. split; reflexivity.
Defined.

(** ** The player stays out of the obstacles *)

Lemma run_update_x (l : loc) (f : num -> num) (w : Vector) (s : State) :
  vecs s !! l = Some w ->
  update_x l f s
  = inr (tt, set_vecs (fun h => <[l := mkVector (f (x w)) (y w)]> h) s).
Proof.
  intros Hw. unfold update_x.
  rewrite (run_bind_ok _ _ _ _ _ (run_read _ _ _ Hw)). apply (run_write _ _ _ _ Hw).
Qed.

Lemma run_update_y (l : loc) (f : num -> num) (w : Vector) (s : State) :
  vecs s !! l = Some w ->
  update_y l f s
  = inr (tt, set_vecs (fun h => <[l := mkVector (x w) (f (y w))]> h) s).
Proof.
  intros Hw. unfold update_y.
  rewrite (run_bind_ok _ _ _ _ _ (run_read _ _ _ Hw)). apply (run_write _ _ _ _ Hw).
Qed.

Lemma obstacleAt_ground (lv lv' : Level) (p sz : Vector) :
  same_ground lv lv' -> obstacleAt lv' p sz = obstacleAt lv p sz.
Proof. intros (W & H & G & _). unfold obstacleAt. rewrite W, H, G. reflexivity. Qed.

Lemma actorAt_pure (actor : ref) (s s' : State) (o : option ref) :
  Level_actorAt actor s = inr (o, s') -> s' = s.
Proof.
  unfold Level_actorAt. rewrite run_bind, run_gets.
  generalize (actors (level s)). intros l.
  assert (Kt : forall (B : Type) (k : Actor -> M B) (q : ref) (t t' : State) (b : B),
            (this q ≫= k) t = inr (b, t') ->
            exists a, k a t = inr (b, t')).
  { intros B k q t t' b H. unfold this in H. rewrite !run_bind, run_gets in H.
    destruct (objs t !! q) as [a|]; [|discriminate H]. exists a. exact H. }
  induction l as [|other rest IH]; simpl.
  - intros [= _ <-]. reflexivity.
  - destruct (decide (other = actor)); [exact IH|].
    intros H. apply Kt in H as [a H]. apply Kt in H as [o' H].
    apply bind_read_result in H as (ap & _ & H).
    apply bind_read_result in H as (asz & _ & H).
    apply bind_read_result in H as (op & _ & H).
    apply bind_read_result in H as (osz & _ & H).
    destruct (overlaps ap asz op osz); [|exact (IH H)].
    injection H as _ <-. reflexivity.
Qed.

(** [playerTouched] changes the level only, and neither its size nor
    its grid. *)
Lemma playerTouched_stores (type : string) (actor : option ref) (s s' : State) :
  Level_playerTouched type actor s = inr (tt, s') ->
  vecs s' = vecs s /\ objs s' = objs s /\ same_ground (level s) (level s').
Proof.
  unfold Level_playerTouched, same_ground. rewrite run_bind, run_gets.
  destruct (bool_decide (type = "lava") && bool_decide (status (level s) = None)).
  - rewrite run_modify. intros [= <-]. simpl. auto 10.
  - destruct (bool_decide (type = "coin")); [|intros [= <-]; auto 10].
    rewrite run_bind, run_modify, run_bind, run_gets, run_bind.
    destruct (some_coin _ _) as [e|[coins s1]] eqn:E; [discriminate|].
    apply some_coin_pure in E as ->.
    destruct coins; simpl; [intros [= <-]|rewrite run_modify; intros [= <-]];
      simpl; auto 10.
Qed.

Section PlayerMoves.

Variables (r : ref) (Sz V : loc) (sz : Vector).
Hypothesis HVS : V <> Sz.


(** An assignment to a coordinate of the speed. *)
Lemma speed_update (m : M unit) (P : loc) (p : Vector) (s : State) :
  (exists f, m = update_x V f) \/ (exists f, m = update_y V f)
  \/ (exists b f, m = when b (update_x V f)) ->
  V <> P -> player_at r P Sz V p sz s ->
  exists s', m s = inr (tt, s') /\ player_at r P Sz V p sz s' /\ level s' = level s.
Proof.
  intros Hm HVP (Hr & HP & HS & [v HV]).
  assert (K : forall v', player_at r P Sz V p sz (set_vecs (fun h => <[V := v']> h) s)).
  { intros v'. split_and!; simpl.
    - exact Hr.
    - rewrite list_lookup_insert_ne by exact HVP. exact HP.
    - rewrite list_lookup_insert_ne by exact HVS. exact HS.
    - apply lookup_lt_is_Some. rewrite length_insert.
      eapply lookup_lt_Some, HV. }
  destruct Hm as [[f ->]|[[f ->]|(b & f & ->)]].
  - rewrite (run_update_x _ _ _ _ HV). eexists. split; [reflexivity|].
    split; [apply K|reflexivity].
  - rewrite (run_update_y _ _ _ _ HV). eexists. split; [reflexivity|].
    split; [apply K|reflexivity].
  - destruct b; simpl.
    + rewrite (run_update_x _ _ _ _ HV). eexists. split; [reflexivity|].
      split; [apply K|reflexivity].
    + exists s. split; [reflexivity|]. split; [|reflexivity].
      split_and!; eauto.
Qed.

(** The end of [moveX] and of [moveY]: the position that is tried, and
    what happens then. *)
Lemma move_tail (mx my : num) (K : Field -> M unit) (P : loc) (p : Vector)
    (s : State) :
  player_at r P Sz V p sz s ->
  let m := mkVector mx my in
  let t := set_vecs (fun h => (h ++ [m]) ++ [vplus p m]) s in
  (motion ← new_Vector mx my;
   newPos ← Vector_plus P motion;
   obstacle ← Level_obstacleAt newPos Sz;
   match obstacle with
   | Some f => K f
   | None => set_pos r newPos
   end) s
  = match obstacleAt (level s) (vplus p m) sz with
    | inl e => inl e
    | inr (Some f) => K f t
    | inr None =>
        inr (tt, set_objs (fun h => <[r := Player (S (length (vecs s))) Sz V]> h) t)
    end.
Proof.
  intros (Hr & HP & HS & HV) m t.
  unfold new_Vector. rewrite run_bind, run_alloc.
  set (s1 := set_vecs _ s).
  assert (H1 : vecs s1 !! P = Some p) by (apply lookup_app_l_Some, HP).
  assert (H2 : vecs s1 !! length (vecs s) = Some m) by apply lookup_snoc_new.
  rewrite (run_bind_ok _ _ _ _ _ (run_Vector_plus _ _ _ _ _ H1 H2)).
  change (set_vecs (fun h => h ++ [vplus p m]) s1) with t.
  assert (Hlen : length (vecs s1) = S (length (vecs s))).
  { subst s1. cbn [vecs set_vecs]. rewrite length_app. cbn [length]. lia. }
  rewrite Hlen.
  assert (Hnew : vecs t !! S (length (vecs s)) = Some (vplus p m)).
  { rewrite <- Hlen. apply (lookup_snoc_new (vecs s1)). }
  assert (HSt : vecs t !! Sz = Some sz)
    by (apply lookup_app_l_Some, lookup_app_l_Some, HS).
  rewrite run_bind, (run_obstacleAt _ _ _ _ _ Hnew HSt).
  change (level t) with (level s).
  destruct (obstacleAt (level s) (vplus p m) sz) as [e|[f|]]; try reflexivity.
  apply (run_set_pos r _ (Player P Sz V) t Hr).
Qed.

(** The states of [move_tail] keep the player as it is. *)
Lemma player_at_tail (m : Vector) (P : loc) (p : Vector) (s : State) :
  player_at r P Sz V p sz s ->
  let t := set_vecs (fun h => (h ++ [m]) ++ [vplus p m]) s in
  player_at r P Sz V p sz t
  /\ player_at r (S (length (vecs s))) Sz V (vplus p m) sz
       (set_objs (fun h => <[r := Player (S (length (vecs s))) Sz V]> h) t)
  /\ V <> S (length (vecs s)).
Proof.
  intros (Hr & HP & HS & [v HV]) t.
  assert (K : forall l q, vecs s !! l = Some q -> vecs t !! l = Some q).
  { intros l q H. apply lookup_app_l_Some, lookup_app_l_Some, H. }
  split_and!.
  - split_and!; eauto.
  - split_and!; cbn [vecs objs set_objs]; eauto.
    + apply list_lookup_insert_eq. eapply lookup_lt_Some, Hr.
    + subst t. cbn [vecs set_vecs].
      replace (S (length (vecs s))) with (length (vecs s ++ [m]))
        by (rewrite length_app; cbn [length]; lia).
      apply lookup_snoc_new.
  - apply lookup_lt_Some in HV. lia.
Qed.

Lemma moveX_clear (step : num) (keys : Keys) (s s' : State) :
  in_the_clear r Sz V sz s ->
  Player_moveX step keys r s = inr (tt, s') ->
  in_the_clear r Sz V sz s'.
Proof.
  intros (P & p & Hat & HVP & Hfree). unfold Player_moveX.
  rewrite (run_bind_ok _ _ _ _ _ (run_this _ _ _ (proj1 Hat))).
  cbn [get_speed actor_pos actor_size]. rewrite run_bind, run_ret.
  destruct (speed_update (update_x V (fun _ => zero)) P p s) as (s1 & E1 & A1 & L1);
    [eauto|exact HVP|exact Hat|].
  rewrite (run_bind_ok _ _ _ _ _ E1).
  destruct (speed_update (when (left keys) (update_x V (fun v => fsub v playerXSpeed)))
              P p s1) as (s2 & E2 & A2 & L2); [eauto 6|exact HVP|exact A1|].
  rewrite (run_bind_ok _ _ _ _ _ E2).
  destruct (speed_update (when (right keys) (update_x V (fun v => fadd v playerXSpeed)))
              P p s2) as (s3 & E3 & A3 & L3); [eauto 6|exact HVP|exact A2|].
  rewrite (run_bind_ok _ _ _ _ _ E3).
  destruct A3 as (Hr3 & HP3 & HS3 & [v HV3]).
  rewrite (run_bind_ok _ _ _ _ _ (run_read _ _ _ HV3)).
  assert (A3 : player_at r P Sz V p sz s3) by (split_and!; eauto).
  rewrite (move_tail _ _ (fun f => Level_playerTouched (field_name f) None)
             P p s3 A3).
  destruct (player_at_tail (mkVector (fmul (x v) step) zero) P p s3 A3)
    as (At & Anew & Hfresh).
  assert (Hl3 : level s3 = level s) by congruence.
  rewrite Hl3.
  destruct (obstacleAt (level s) (vplus p (mkVector (fmul (x v) step) zero)) sz)
    as [e|[f|]] eqn:Eo; [discriminate| |].
  - intros H. apply playerTouched_stores in H as (Hv & Ho & Hg).
    exists P, p. split_and!; [|exact HVP|].
    + destruct At as (B1 & B2 & B3 & B4). unfold player_at.
      rewrite Hv, Ho. auto.
    + rewrite (obstacleAt_ground _ _ _ _ Hg). cbn [level set_vecs]. rewrite Hl3.
      exact Hfree.
  - intros [= <-]. exists (S (length (vecs s3))), (vplus p (mkVector (fmul (x v) step) zero)).
    split_and!; [exact Anew|exact Hfresh|].
    cbn [level set_vecs set_objs]. rewrite Hl3. exact Eo.
Qed.

Lemma moveY_clear (step : num) (keys : Keys) (s s' : State) :
  in_the_clear r Sz V sz s ->
  Player_moveY step keys r s = inr (tt, s') ->
  in_the_clear r Sz V sz s'.
Proof.
  intros (P & p & Hat & HVP & Hfree). unfold Player_moveY.
  rewrite (run_bind_ok _ _ _ _ _ (run_this _ _ _ (proj1 Hat))).
  cbn [get_speed actor_pos actor_size]. rewrite run_bind, run_ret.
  destruct (speed_update (update_y V (fun v => fadd v (fmul step gravity))) P p s)
    as (s1 & E1 & A1 & L1); [eauto|exact HVP|exact Hat|].
  rewrite (run_bind_ok _ _ _ _ _ E1).
  destruct A1 as (Hr1 & HP1 & HS1 & [v HV1]).
  rewrite (run_bind_ok _ _ _ _ _ (run_read _ _ _ HV1)).
  assert (A1 : player_at r P Sz V p sz s1) by (split_and!; eauto).
  rewrite (move_tail _ _
             (fun f => Level_playerTouched (field_name f) None;;
                       v ← read V;
                       if up keys && fgt (y v) zero
                       then update_y V (fun _ => fneg jumpSpeed)
                       else update_y V (fun _ => zero))
             P p s1 A1).
  destruct (player_at_tail (mkVector zero (fmul (y v) step)) P p s1 A1)
    as (At & Anew & Hfresh).
  rewrite L1.
  destruct (obstacleAt (level s) (vplus p (mkVector zero (fmul (y v) step))) sz)
    as [e|[f|]] eqn:Eo; [discriminate| |].
  - rewrite run_bind.
    destruct (Level_playerTouched _ _ _) as [e|[[] s4]] eqn:Et; [discriminate|].
    apply playerTouched_stores in Et as (Hv & Ho & Hg).
    assert (A4 : player_at r P Sz V p sz s4).
    { destruct At as (B1 & B2 & B3 & B4). unfold player_at. rewrite Hv, Ho. auto. }
    destruct A4 as (Hr4 & HP4 & HS4 & [w HV4]).
    rewrite (run_bind_ok _ _ _ _ _ (run_read _ _ _ HV4)).
    assert (A4 : player_at r P Sz V p sz s4) by (split_and!; eauto).
    intros H.
    destruct (speed_update
                (if up keys && fgt (y w) zero
                 then update_y V (fun _ => fneg jumpSpeed)
                 else update_y V (fun _ => zero)) P p s4)
      as (s5 & E5 & A5 & L5); [|exact HVP|exact A4|].
    { destruct (up keys && fgt (y w) zero); eauto. }
    rewrite E5 in H. injection H as <-.
    exists P, p. split_and!; [exact A5|exact HVP|].
    rewrite L5, (obstacleAt_ground _ _ _ _ Hg). cbn [level set_vecs]. rewrite L1.
    exact Hfree.
  - intros [= <-]. exists (S (length (vecs s1))), (vplus p (mkVector zero (fmul (y v) step))).
    split_and!; [exact Anew|exact Hfresh|].
    cbn [level set_vecs set_objs]. rewrite L1. exact Eo.
Qed.

End PlayerMoves.

(** After [act] the player is in the clear again, unless the level is
    lost then. *)
Lemma Player_act_clear
    (r : ref) (Sz V : loc) (sz : Vector) (step : num) (keys : Keys)
    (s s' : State) :
  V <> Sz ->
  in_the_clear r Sz V sz s ->
  Player_act step keys r s = inr (tt, s') ->
  status (level s') <> Some lost ->
  in_the_clear r Sz V sz s'.
Proof.
  intros HVS Hclear.
  unfold Player_act. rewrite run_bind.
  destruct (Player_moveX step keys r s) as [e|[[] s1]] eqn:E1; [discriminate|].
  pose proof (moveX_clear r Sz V sz HVS step keys s s1 Hclear E1) as C1.
  rewrite run_bind.
  destruct (Player_moveY step keys r s1) as [e|[[] s2]] eqn:E2; [discriminate|].
  pose proof (moveY_clear r Sz V sz HVS step keys s1 s2 C1 E2) as C2.
  rewrite run_bind.
  destruct (Level_actorAt r s2) as [e|[other s3]] eqn:E3; [discriminate|].
  apply actorAt_pure in E3 as ->.
  rewrite run_bind.
  destruct (touch other s2) as [e|[[] s4]] eqn:E4; [discriminate|].
  assert (K : vecs s4 = vecs s2 /\ objs s4 = objs s2
              /\ same_ground (level s2) (level s4)).
  { destruct other as [other|]; simpl in E4.
    - unfold this in E4. rewrite !run_bind, run_gets in E4.
      destruct (objs s2 !! other) as [o|]; [|discriminate E4].
      exact (playerTouched_stores _ _ _ _ E4).
    - injection E4 as <-. unfold same_ground. auto 10. }
  destruct K as (Hv & Ho & Hg).
  assert (C4 : in_the_clear r Sz V sz s4).
  { destruct C2 as (P & p & (B1 & B2 & B3 & B4) & HVP & Hfree).
    exists P, p. unfold player_at. rewrite Hv, Ho.
    rewrite (obstacleAt_ground _ _ _ _ Hg). auto 10. }
  rewrite run_bind, run_gets.
  case_bool_decide as Hlost.
  + intros H Hnot. exfalso. apply Hnot.
    assert (Hl : level s' = level s4); [|rewrite Hl; exact Hlost].
    cbn [when] in H.
    unfold this in H. rewrite !run_bind, run_gets in H.
    destruct (objs s4 !! r) as [a|]; [|discriminate H]. simpl in H.
    rewrite run_bind in H.
    destruct (update_y (actor_pos a) _ s4) as [e|[[] s5]] eqn:E5; [discriminate H|].
    assert (U : forall l f t t', update_y l f t = inr (tt, t') -> level t' = level t).
    { intros l f t t' Hu. unfold update_y in Hu.
      apply bind_read_result in Hu as (w & Hw & Hu).
      rewrite (run_write _ _ _ _ Hw) in Hu. injection Hu as <-. reflexivity. }
    rewrite (U _ _ _ _ H), (U _ _ _ _ E5). reflexivity.
  + intros [= <-] _. exact C4.
Qed.

(** A player that is where [obstacleAt] finds nothing, and whose speed
    is stored apart from its position and its size, is so again after
    [moveX], after [moveY], and after [act] unless the level is lost
    then (a lost player sinks in place): it moves only to positions
    that [obstacleAt] has found free, with the size it has. *)
Theorem player_stays_in_the_clear
    (r : ref) (Sz V : loc) (sz : Vector) (step : num) (keys : Keys) (s : State) :
  V <> Sz ->
  in_the_clear r Sz V sz s ->
  (forall s', Player_moveX step keys r s = inr (tt, s') ->
              in_the_clear r Sz V sz s')
  /\ (forall s', Player_moveY step keys r s = inr (tt, s') ->
                 in_the_clear r Sz V sz s')
  /\ (forall s', Player_act step keys r s = inr (tt, s') ->
                 status (level s') <> Some lost ->
                 in_the_clear r Sz V sz s').
Proof.
  intros HVS Hclear. split_and!.
  - intros s'. apply moveX_clear; assumption.
  - intros s'. apply moveY_clear; assumption.
  - intros s'. apply Player_act_clear; assumption.
Qed.

Lemma player_stays_in_the_clear_witness :
  exists s',
    Player_act maxStep right_key 0%nat standing_on_floor = inr (tt, s')
    /\ in_the_clear 0%nat 1%nat 2%nat (mkVector (decimal 8 10) (decimal 15 10)) s'.
Proof.
  destruct (Player_act maxStep right_key 0%nat standing_on_floor)
    as [e|[[] s']] eqn:E; [vm_compute in E; discriminate E|].
  exists s'. split; [reflexivity|].
  assert (Hin : in_the_clear 0%nat 1%nat 2%nat
                  (mkVector (decimal 8 10) (decimal 15 10)) standing_on_floor).
  { exists 0%nat, (mkVector one (decimal 5 10)).
    split_and!; [|discriminate|vm_compute; reflexivity].
    split_and!; try reflexivity. eexists. reflexivity. }
  apply (player_stays_in_the_clear 0%nat 1%nat 2%nat _ maxStep right_key
           standing_on_floor ltac:(discriminate) Hin); [exact E|].
  vm_compute in E. injection E as <-. discriminate.
Defined.

(** * The player and the other actors *)

Lemma beside_refl (self : ref) (s : State) : beside self s s.
Proof. split; auto. Qed.

Lemma beside_trans (self : ref) (s1 s2 s3 : State) :
  beside self s1 s2 -> beside self s2 s3 -> beside self s1 s3.
Proof.
  intros [L1 O1] [L2 O2]. split; [congruence|].
  intros r Hr. rewrite (O2 r Hr). exact (O1 r Hr).
Qed.

Lemma aside_bind {A B : Type} (self : ref) (m : M A) (k : A -> M B) :
  aside self m -> (forall a, aside self (k a)) -> aside self (m ≫= k).
Proof.
  intros Hm Hk s b s'. rewrite run_bind.
  destruct (m s) as [e|[a s1]] eqn:E; [discriminate|]. intros H.
  exact (beside_trans _ _ _ _ (Hm _ _ _ E) (Hk a _ _ _ H)).
Qed.

Lemma aside_ret {A : Type} (self : ref) (a : A) : aside self (mret a).
Proof. intros s b s' [= _ <-]. apply beside_refl. Qed.

Lemma aside_throw {A : Type} (self : ref) (e : Err) : aside self (throw e : M A).
Proof. intros s b s' [=]. Qed.

Lemma aside_gets {A : Type} (self : ref) (f : State -> A) : aside self (gets f).
Proof. intros s b s' [= _ <-]. apply beside_refl. Qed.

Lemma aside_lift {A : Type} (self : ref) (e : Err) (o : option A) :
  aside self (lift e o).
Proof. destruct o; [apply aside_ret|apply aside_throw]. Qed.

Lemma aside_read (self : ref) (l : loc) : aside self (read l).
Proof.
  unfold read. apply aside_bind; [apply aside_gets|intros v; apply aside_lift].
Qed.

Lemma aside_this (self r : ref) : aside self (this r).
Proof.
  unfold this. apply aside_bind; [apply aside_gets|intros v; apply aside_lift].
Qed.

Lemma aside_alloc (self : ref) (v : Vector) : aside self (alloc v).
Proof. intros s l s'. rewrite run_alloc. intros [= _ <-]. split; auto. Qed.

Lemma aside_Vector_plus (self : ref) (a b : loc) : aside self (Vector_plus a b).
Proof.
  unfold Vector_plus. apply aside_bind; [apply aside_read|intros va].
  apply aside_bind; [apply aside_read|intros vb]. apply aside_alloc.
Qed.

Lemma aside_Vector_times (self : ref) (a : loc) (f : num) :
  aside self (Vector_times a f).
Proof.
  unfold Vector_times. apply aside_bind; [apply aside_read|intros va].
  apply aside_alloc.
Qed.

Lemma aside_obstacleAt (self : ref) (pos size : loc) :
  aside self (Level_obstacleAt pos size).
Proof.
  unfold Level_obstacleAt. apply aside_bind; [apply aside_read|intros p].
  apply aside_bind; [apply aside_read|intros sz].
  apply aside_bind; [apply aside_gets|intros lv].
  destruct (obstacleAt lv p sz); [apply aside_throw|apply aside_ret].
Qed.

Lemma aside_set_this (self : ref) (a : Actor) : aside self (set_this self a).
Proof.
  unfold set_this. apply aside_bind; [apply aside_this|intros _].
  intros s [] s'. rewrite run_modify. intros [= <-]. split; [reflexivity|].
  intros r Hr. simpl. apply list_lookup_insert_ne. congruence.
Qed.

Lemma aside_set_pos (self : ref) (p : loc) : aside self (set_pos self p).
Proof.
  unfold set_pos. apply aside_bind; [apply aside_this|intros a].
  apply aside_set_this.
Qed.

Lemma aside_set_speed (self : ref) (sp : loc) : aside self (set_speed self sp).
Proof.
  unfold set_speed. apply aside_bind; [apply aside_this|intros a].
  apply aside_set_this.
Qed.

Lemma aside_Lava_act (self : ref) (step : num) : aside self (Lava_act step self).
Proof.
  unfold Lava_act. apply aside_bind; [apply aside_this|intros a].
  apply aside_bind;
    [destruct a as [? ? ?|? ? [?|] ?|]; simpl;
       first [apply aside_ret|apply aside_throw]|intros sp].
  apply aside_bind; [apply aside_Vector_times|intros motion].
  apply aside_bind; [apply aside_Vector_plus|intros newPos].
  apply aside_bind; [apply aside_obstacleAt|intros [f|]].
  - destruct (get_repeatPos a) as [rp|]; [apply aside_set_pos|].
    apply aside_bind; [apply aside_Vector_times|intros sp'].
    apply aside_set_speed.
  - apply aside_set_pos.
Qed.

Lemma aside_Coin_act (Math_sin : num -> num) (self : ref) (step : num) :
  aside self (Coin_act Math_sin step self).
Proof.
  unfold Coin_act. apply aside_bind; [apply aside_this|intros a].
  destruct a as [| |basePos pos size wobble]; try apply aside_throw.
  apply aside_bind; [apply aside_alloc|intros off].
  apply aside_bind; [apply aside_Vector_plus|intros pos'].
  apply aside_set_this.
Qed.

Lemma is_player_before (s s' : State) (r : ref) :
  evolves s s' -> is_player s' r -> is_player s r.
Proof.
  intros (_ & _ & _ & _ & Len & Ty) (a' & Ha' & Hty).
  destruct (lookup_lt_is_Some_2 (objs s) r) as [a Ha].
  { rewrite <- Len. eapply lookup_lt_Some, Ha'. }
  destruct (Ty r a Ha) as (a'' & Ha'' & Hty').
  exists a. split; [exact Ha|]. unfold ref in *. congruence.
Qed.

Lemma only_player_after (r : ref) (l l' : list ref) (s s' : State) :
  evolves s s' -> (forall r', r' ∈ l' -> r' ∈ l) ->
  only_player r l s -> only_player r l' s'.
Proof.
  intros E Hl H r' Hr' Hne Hp.
  exact (H r' (Hl r' Hr') Hne (is_player_before s s' r' E Hp)).
Qed.

Section Clear.

Variable Math_sin : num -> num.
Variables (r : ref) (Sz V : loc) (sz : Vector).
Hypothesis HVS : V <> Sz.

(** While the level is undecided the player is in the clear. *)
Local Abbreviation undecided_clear :=
  (fun t : State => status (level t) = None -> in_the_clear r Sz V sz t).

(** The act of an actor that is not a player. *)
Lemma other_act_clear (step : num) (keys : Keys) (r0 : ref) (s s' : State) :
  r0 <> r -> ~ is_player s r0 ->
  act Math_sin step keys r0 s = inr (tt, s') ->
  level s' = level s
  /\ (in_the_clear r Sz V sz s -> in_the_clear r Sz V sz s').
Proof.
  intros Hne Hnp Hact.
  assert (K : beside r0 s s' /\ keeps_vectors_except [] s s').
  { revert Hact. unfold act. rewrite run_bind. unfold this at 1.
    rewrite run_bind, run_gets.
    destruct (objs s !! r0) as [a|] eqn:Ha; [|discriminate]. cbn [lift].
    destruct a as [p0 sz0 sp0|p0 sz0 sp0 rp0|bp0 p0 sz0 w0].
    - destruct Hnp. exists (Player p0 sz0 sp0). auto.
    - intros H. split; [exact (aside_Lava_act r0 step _ _ _ H)|].
      apply (frames_keeps_vectors [] r0 no_field _ s s' tt
               (frames_Lava_act _ r0 step)); [|exact H].
      intros; constructor.
    - intros H. split; [exact (aside_Coin_act Math_sin r0 step _ _ _ H)|].
      apply (frames_keeps_vectors [] r0 no_field _ s s' tt
               (frames_Coin_act Math_sin _ r0 step)); [|exact H].
      intros; constructor. }
  destruct K as [[Hl Hobjs] Kv]. split; [exact Hl|].
  intros (P & p & (Ho & Hp & Hsz & Hv) & HVP & Hfree).
  assert (N : forall l : loc, l ∉ ([] : list loc)) by (intros l Hl'; inversion Hl').
  exists P, p. split_and!.
  - split_and!.
    + rewrite (Hobjs r) by congruence. exact Ho.
    + exact (Kv P p (N P) Hp).
    + exact (Kv Sz sz (N Sz) Hsz).
    + destruct Hv as [v Hv]. exists v. exact (Kv V v (N V) Hv).
  - exact HVP.
  - rewrite Hl. exact Hfree.
Qed.

Lemma act_keeps_clear (step : num) (keys : Keys) (r0 : ref) (s s' : State) :
  (r0 <> r -> ~ is_player s r0) ->
  act Math_sin step keys r0 s = inr (tt, s') ->
  undecided_clear s -> undecided_clear s'.
Proof.
  intros Hnp Hact HI Hst.
  destruct (decide (r0 = r)) as [->|Hne].
  - pose proof (guar_act Math_sin step keys r _ _ _ Hact)
      as (_ & Hfin & _).
    assert (Hst0 : status (level s) = None).
    { destruct Hfin as [[E _]|(_ & N & _)]; congruence. }
    pose proof (HI Hst0) as Hc.
    destruct Hc as (P & p & (Ho & Hc') & Hc'').
    revert Hact. unfold act.
    rewrite (run_bind_ok _ _ _ _ _ (run_this _ _ _ Ho)). intros Hact.
    apply (Player_act_clear r Sz V sz step keys s s' HVS); [|exact Hact|congruence].
    exists P, p. split; [split|]; assumption.
  - destruct (other_act_clear step keys r0 s s' Hne (Hnp Hne) Hact) as [Hl Hc].
    apply Hc, HI. rewrite <- Hl. exact Hst.
Qed.

Lemma forEach_keeps_clear (step : num) (keys : Keys) (l : list ref)
    (s s' : State) :
  only_player r l s ->
  forEach (act Math_sin step keys) l s = inr (tt, s') ->
  undecided_clear s -> undecided_clear s'.
Proof.
  revert s. induction l as [|r0 l IH]; intros s Hl; simpl.
  - intros [= <-] HI. exact HI.
  - rewrite run_bind.
    destruct (act Math_sin step keys r0 s) as [e|[[] s1]] eqn:E; [discriminate|].
    intros H HI.
    apply (IH s1); [|exact H|].
    + apply (only_player_after r (r0 :: l) l s s1
               (guar_act Math_sin step keys r0 _ _ _ E)); [|exact Hl].
      intros r' Hr'. apply elem_of_cons. auto.
    + apply (act_keeps_clear step keys r0 s s1); [|exact E|exact HI].
      intros Hne. apply Hl; [apply elem_of_cons; auto|exact Hne].
Qed.

Lemma animate_loop_keeps_clear (fuel : nat) (step : num) (keys : Keys)
    (s s' : State) :
  only_player r (actors (level s)) s ->
  animate_loop Math_sin fuel step keys s = inr (tt, s') ->
  undecided_clear s -> undecided_clear s'.
Proof.
  revert step s. induction fuel as [|fuel IH]; intros step s Hl; simpl.
  - destruct (fgt step zero); [discriminate|]. intros [= <-] HI. exact HI.
  - destruct (fgt step zero); [|intros [= <-] HI; exact HI].
    rewrite run_bind.
    destruct (sub_step Math_sin (Math_min step maxStep) keys s)
      as [e|[[] s1]] eqn:E; [discriminate|].
    intros H HI.
    pose proof (guar_sub_step Math_sin _ keys _ _ _ E) as Ev.
    apply (IH (fsub step (Math_min step maxStep)) s1); [|exact H|].
    + apply (only_player_after r (actors (level s)) _ s s1 Ev); [|exact Hl].
      destruct Ev as (_ & _ & Sub & _).
      intros r' Hr'. exact (elem_of_sublist _ _ _ Hr' Sub).
    + revert E. unfold sub_step. rewrite run_bind, run_gets. intros E.
      exact (forEach_keeps_clear _ keys _ s s1 Hl E HI).
Qed.

End Clear.

(** The player never enters an obstacle.  A player that is where
    [obstacleAt] finds nothing is so again after [animate], whatever
    the step and the keys are and however the other actors move, as
    long as the level is undecided after it ([status] is [null]): the
    player is the only actor that moves into squares it has not found
    free, and only once the level is lost.  The speed of the player is
    stored apart from its position and its size, and no other actor of
    the list is a player. *)
Theorem player_never_enters_an_obstacle
    (Math_sin : num -> num) (fuel : nat) (step : num) (keys : Keys)
    (r : ref) (Sz V : loc) (sz : Vector) (s s' : State) :
  V <> Sz ->
  in_the_clear r Sz V sz s ->
  only_player r (actors (level s)) s ->
  Level_animate Math_sin fuel step keys s = inr (tt, s') ->
  status (level s') = None ->
  in_the_clear r Sz V sz s'.
Proof.
  intros HVS Hc Hl H Hst.
  destruct (animate_evolves _ _ _ _ _ _ H)
    as (s1 & E1 & Hv & Ho & Hg & Ha & Hs & _ & Ev).
  revert H. unfold Level_animate. rewrite (run_bind_ok _ _ _ _ _ E1). intros H.
  apply (animate_loop_keeps_clear Math_sin r Sz V sz HVS fuel step keys s1 s');
    [|exact H| |exact Hst].
  - rewrite Ha. intros r' Hr' Hne (a & Hr & Hty). apply (Hl r' Hr' Hne).
    exists a. rewrite <- Ho. auto.
  - intros _. destruct Hc as (P & p & (B1 & B2 & B3 & B4) & HVP & Hfree).
    exists P, p. unfold player_at. rewrite Hv, Ho.
    rewrite (obstacleAt_ground _ _ _ _ Hg). auto 10.
Qed.

Lemma player_never_enters_an_obstacle_witness :
  exists s',
    Level_animate (fun a => a) 2 frameCap right_key standing_on_floor
    = inr (tt, s')
    /\ in_the_clear 0%nat 1%nat 2%nat (mkVector (decimal 8 10) (decimal 15 10)) s'.
Proof.
  destruct (Level_animate (fun a => a) 2 frameCap right_key standing_on_floor)
    as [e|[[] s']] eqn:E; [vm_compute in E; discriminate E|].
  exists s'. split; [reflexivity|].
  assert (Hin : in_the_clear 0%nat 1%nat 2%nat
                  (mkVector (decimal 8 10) (decimal 15 10)) standing_on_floor).
  { exists 0%nat, (mkVector one (decimal 5 10)).
    split_and!; [|discriminate|vm_compute; reflexivity].
    split_and!; try reflexivity. eexists. reflexivity. }
  apply (player_never_enters_an_obstacle (fun a => a) 2 frameCap right_key
           0%nat 1%nat 2%nat _ standing_on_floor s' ltac:(discriminate) Hin);
    [|exact E|].
  - intros r' Hr' Hne. apply list_elem_of_singleton in Hr'. congruence.
  - vm_compute in E. injection E as <-. reflexivity.
Defined.

(** * Properties of the drivers *)

(** ** Key tracking *)

Lemma track_cons (codes : gmap Z string) (event : Event) (events : list Event)
    (pressed : gmap string KeyVal) :
  track codes (event :: events) pressed
  = track codes events (handler codes event pressed).1.
Proof. reflexivity. Qed.

Lemma track_lookup
    (codes : gmap Z string) (events : list Event)
    (pressed : gmap string KeyVal) (name : string) :
  track codes events pressed !! name
  = match last (filter (fun e => codes !! keyCode e = Some name) events) with
    | Some e => Some (KBool (bool_decide (type e = "keydown")))
    | None => pressed !! name
    end.
Proof.
  revert pressed. induction events as [|e events IH]; intros pressed; [reflexivity|].
  rewrite track_cons, IH. unfold handler.
  destruct (decide (codes !! keyCode e = Some name)) as [He|He].
  - rewrite filter_cons_True by exact He. rewrite He, last_cons. cbn [fst].
    destruct (last (filter _ events)); [reflexivity|].
    apply lookup_insert_eq.
  - rewrite filter_cons_False by exact He.
    destruct (last (filter _ events)); [reflexivity|].
    destruct (codes !! keyCode e) as [name'|]; [|reflexivity].
    cbn [fst]. apply lookup_insert_ne. congruence.
Qed.

Lemma arrowCodes_lookup (k : Z) (name : string) :
  arrowCodes !! k = Some name
  <-> (k = 37 /\ name = "left") \/ (k = 38 /\ name = "up")
      \/ (k = 39 /\ name = "right").
Proof.
  unfold arrowCodes.
  destruct (decide (k = 37)) as [->|H37].
  { rewrite lookup_insert_eq. split; [intros [= <-]; auto|].
    intros [[_ ->]|[[? _]|[? _]]]; [reflexivity|lia|lia]. }
  rewrite lookup_insert_ne by congruence.
  destruct (decide (k = 38)) as [->|H38].
  { rewrite lookup_insert_eq. split; [intros [= <-]; auto|].
    intros [[? _]|[[_ ->]|[? _]]]; [lia|reflexivity|lia]. }
  rewrite lookup_insert_ne by congruence.
  destruct (decide (k = 39)) as [->|H39].
  { rewrite lookup_singleton_eq. split; [intros [= <-]; auto|].
    intros [[? _]|[[? _]|[_ ->]]]; [lia|lia|reflexivity]. }
  rewrite lookup_singleton_ne by congruence.
  split; [discriminate|]. intros [[? _]|[[? _]|[? _]]]; congruence.
Qed.

Lemma held_arrow (events : list Event) (k : Z) (name : string) :
  arrowCodes !! k = Some name ->
  held (track arrowCodes events trackKeys) name
  = last_is_down k events.
Proof.
  intros Hk. unfold held, last_is_down. rewrite track_lookup.
  assert (Hf : filter (fun e => arrowCodes !! keyCode e = Some name) events
               = filter (fun e => keyCode e = k) events).
  { apply list_filter_iff. intros e. split.
    - intros He. apply arrowCodes_lookup in He, Hk.
      destruct He as [[? ->]|[[? ->]|[? ->]]],
               Hk as [[? Hn]|[[? Hn]|[? Hn]]]; try discriminate Hn; congruence.
    - intros ->. exact Hk. }
  rewrite Hf. destruct (last _); [reflexivity|].
  assert (Hne : name <> "unregister").
  { apply arrowCodes_lookup in Hk as [[_ ->]|[[_ ->]|[_ ->]]]; discriminate. }
  unfold trackKeys. rewrite lookup_singleton_ne by congruence. reflexivity.
Qed.


(** ** [runAnimation] *)

Lemma Math_min_hundred (d : num) :
  d <> S754_nan -> flt d (of_Z 100) = false ->
  Math_min d (of_Z 100) = of_Z 100.
Proof.
  intros Hnan Hlt. unfold Math_min. rewrite Hlt.
  destruct d as [[|]| | |]; try reflexivity; try congruence;
    try (destruct (flt (of_Z 100) _); reflexivity).
  discriminate Hlt.
Qed.

(** The cap of the time step.  When 100 ms or more have passed since
    the frame before, however long the page was hidden, the step that
    [frame] passes on is [0.1] seconds, and [animate] splits it into two
    sub-steps of [maxStep] and ends. *)
Theorem frame_caps_the_step
    (Math_sin : num -> num) (lastTime time : num) (keys : Keys) (s : State) :
  fsub time lastTime <> S754_nan ->
  flt (fsub time lastTime) (of_Z 100) = false ->
  timeStep_of lastTime time = frameCap
  /\ substeps 2 (timeStep_of lastTime time) = Some [maxStep; maxStep]
  /\ Level_animate Math_sin 2 (timeStep_of lastTime time) keys s
     = (countdown frameCap;;
        sub_step Math_sin maxStep keys;;
        sub_step Math_sin maxStep keys;;
        mret tt) s.
Proof.
  intros Hnan Hlt.
  assert (E : timeStep_of lastTime time = frameCap).
  { unfold timeStep_of. rewrite (Math_min_hundred _ Hnan Hlt). reflexivity. }
  rewrite E. split_and!; [reflexivity|reflexivity|].
  unfold Level_animate. rewrite !run_bind.
  destruct (countdown frameCap s) as [e|[[] s1]]; [reflexivity|].
  exact (animate_loop_substeps Math_sin keys 2 frameCap s1).
Qed.

Lemma frame_caps_the_step_witness :
  timeStep_of (of_Z 1000) (of_Z 61000) = frameCap
  /\ timeStep_of (of_Z 1000) (S754_infinity false) = frameCap.
Proof.
  split.
  - apply (frame_caps_the_step (fun a => a) (of_Z 1000) (of_Z 61000) no_keys
             standing_on_floor); [discriminate|reflexivity].
  - apply (frame_caps_the_step (fun a => a) (of_Z 1000) (S754_infinity false)
             no_keys standing_on_floor); [discriminate|reflexivity].
Defined.

(** ** [runLevel] *)

Section Sessions.

Variable Math_sin : num -> num.
Variable Display : Type.
Variable new_Display : State -> Err + Display.
Variable drawFrame : num -> State -> Display -> Err + Display.
Variable clear : Display -> Err + Display.

Local Abbreviation Session := (Session Display).
Local Abbreviation animation := (animation Math_sin Display drawFrame clear).
Local Abbreviation browser := (browser Math_sin Display drawFrame clear).
Local Abbreviation browse := (browse Math_sin Display drawFrame clear).
Local Abbreviation runLevel := (runLevel Display new_Display).

(** An invariant of the browser's steps that holds when [runLevel]
    returns holds after any inputs. *)
Lemma browse_invariant (I : Session -> Prop) (fuel : nat) :
  (forall input ss ss', I ss -> browser fuel input ss = inr ss' -> I ss') ->
  forall inputs ss ss', I ss -> browse fuel inputs ss = inr ss' -> I ss'.
Proof.
  intros Hstep inputs. induction inputs as [|input rest IH]; intros ss ss' HI H.
  - injection H as <-. exact HI.
  - simpl in H. destruct (browser fuel input ss) as [e|ss1] eqn:E; [discriminate H|].
    exact (IH _ _ (Hstep _ _ _ HI E) H).
Qed.

Lemma browse_app (fuel : nat) (l1 l2 : list Input) (ss : Session) :
  browse fuel (l1 ++ l2) ss
  = match browse fuel l1 ss with
    | inl e => inl e
    | inr ss' => browse fuel l2 ss'
    end.
Proof.
  revert ss. induction l1 as [|input l1 IH]; intros ss; [reflexivity|].
  simpl. destruct (browser fuel input ss); [reflexivity|apply IH].
Qed.

(** What [animation] may do to a session. *)
Lemma animation_cases (fuel : nat) (step : num) (ss : Session) (r : Ret)
    (ss' : Session) :
  animation fuel step ss = inr (r, ss') ->
  loops ss' = loops ss /\ arrows ss' = arrows ss
  /\ ((running ss = pausing /\ r = RFalse /\ running ss' = no
       /\ world ss' = world ss /\ display ss' = display ss
       /\ escListener ss' = escListener ss
       /\ arrowListeners ss' = arrowListeners ss
       /\ results ss' = results ss)
      \/ (running ss <> pausing /\ running ss' = running ss
          /\ Level_animate Math_sin fuel step (keys_of (arrows ss)) (world ss)
             = inr (tt, world ss')
          /\ ((r = RUndefined
               /\ Level_isFinished (level (world ss')) = false
               /\ escListener ss' = escListener ss
               /\ arrowListeners ss' = arrowListeners ss
               /\ results ss' = results ss)
              \/ (r = RFalse
                  /\ Level_isFinished (level (world ss')) = true
                  /\ escListener ss' = false
                  /\ arrowListeners ss' = false
                  /\ results ss' = results ss ++ [status (level (world ss'))])))).
Proof.
  unfold animation. case_bool_decide as Hp.
  - intros [= <- <-]. simpl. split_and!; try reflexivity. left. auto 10.
  - destruct (Level_animate _ _ _ _ _) as [e|[[] w]]; [discriminate|].
    destruct (drawFrame step w (display ss)) as [e|d]; [discriminate|].
    destruct (Level_isFinished (level w)) eqn:Hfin.
    + destruct (clear d) as [e|d']; [discriminate|].
      unfold unregister. simpl.
      destruct (arrows ss !! "unregister") as [[|]|]; try discriminate.
      intros [= <- <-]. simpl. split_and!; try reflexivity.
      right. split_and!; try reflexivity; [exact Hp|]. right. auto 10.
    + intros [= <- <-]. simpl. split_and!; try reflexivity.
      right. split_and!; try reflexivity; [exact Hp|]. left. auto 10.
Qed.

(** A keyboard event changes neither the level nor the display. *)
Lemma dispatch_world (event : Event) (ss : Session) :
  world (dispatch event ss) = world ss
  /\ display (dispatch event ss) = display ss
  /\ escListener (dispatch event ss) = escListener ss
  /\ arrowListeners (dispatch event ss) = arrowListeners ss
  /\ results (dispatch event ss) = results ss.
Proof.
  unfold dispatch, handleEscKey.
  destruct (escListener ss && _); [case_bool_decide; [destruct (running ss)|]|];
    destruct (arrowListeners _ && _); simpl; auto.
Qed.

Lemma dispatch_not_esc (event : Event) (ss : Session) :
  not_esc event ->
  running (dispatch event ss) = running ss
  /\ loops (dispatch event ss) = loops ss.
Proof.
  intros Hne. unfold dispatch.
  assert (E : (if escListener ss && bool_decide (type event = "keydown")
               then handleEscKey event ss else ss) = ss).
  { destruct (escListener ss); [|reflexivity]. cbn [andb].
    case_bool_decide as Hd; [|reflexivity].
    unfold handleEscKey. rewrite bool_decide_eq_false_2; [reflexivity|].
    intros Hk. apply Hne. auto. }
  rewrite E. destruct (arrowListeners ss && _); auto.
Qed.

Lemma one_loop_browser (fuel : nat) (input : Input) (ss ss' : Session) :
  length (loops ss) = (if animating ss then 1%nat else 0%nat) ->
  browser fuel input ss = inr ss' ->
  length (loops ss') = if animating ss' then 1%nat else 0%nat.
Proof.
  destruct input as [event|i time]; intros HI; simpl.
  - intros [= <-]. unfold dispatch.
    set (ss1 := if escListener ss && _ then _ else ss).
    assert (H1 : length (loops ss1) = if animating ss1 then 1%nat else 0%nat).
    { subst ss1. destruct (escListener ss) eqn:He; [|exact HI]. cbn [andb].
      case_bool_decide; [|exact HI].
      unfold handleEscKey. case_bool_decide; [|exact HI].
      revert HI. unfold animating. rewrite He.
      destruct (running ss) eqn:Hr; simpl; rewrite ?He, ?Hr; simpl; auto.
      rewrite length_app. intros ->. reflexivity. }
    destruct (arrowListeners ss1 && _); exact H1.
  - destruct (loops ss !! i) as [lastTime|] eqn:Hi; [|intros [= <-]; exact HI].
    assert (Hlen : length (loops ss) = 1%nat).
    { destruct (animating ss); [exact HI|].
      apply lookup_lt_Some in Hi. lia. }
    assert (Han : animating ss = true).
    { destruct (animating ss); [reflexivity|]. congruence. }
    unfold frame. destruct lastTime as [t0|].
    + destruct (animation fuel _ ss) as [e|[r ss1]] eqn:E; [discriminate|].
      apply animation_cases in E as (Hl & _ & Hc).
      unfold animating in *. apply andb_true_iff in Han as [Hesc Hrun].
      destruct Hc as [(Hp & -> & Hr' & _ & _ & He' & _)
                     |(Hp & Hr' & _ & [(-> & _ & He' & _)|(-> & _ & He' & _)])];
        intros [= <-]; simpl; rewrite ?He', ?Hr', ?Hesc, ?Hl; simpl.
      * rewrite length_delete by (rewrite Hi; eauto). lia.
      * rewrite length_insert, Hrun. exact Hlen.
      * rewrite length_delete by (rewrite Hi; eauto). lia.
    + intros [= <-]. simpl. rewrite length_insert. exact HI.
Qed.

Lemma one_loop_runLevel (w : State) (ss : Session) :
  runLevel w = inr ss ->
  length (loops ss) = (if animating ss then 1%nat else 0%nat)
  /\ escListener ss = true /\ arrowListeners ss = true /\ results ss = [].
Proof.
  unfold runLevel. destruct (new_Display w); [discriminate|].
  intros [= <-]. auto.
Qed.

(** While the level runs and is not paused exactly one animation loop
    is requested, and none while it is paused or after it has ended:
    escape during a pause starts a loop only after the loop that was
    running has stopped. *)
Theorem runLevel_one_animation_loop
    (fuel : nat) (w : State) (inputs : list Input) (ss0 ss : Session) :
  runLevel w = inr ss0 ->
  browse fuel inputs ss0 = inr ss ->
  length (loops ss) = if animating ss then 1%nat else 0%nat.
Proof.
  intros H0 H.
  refine (browse_invariant
            (fun ss => length (loops ss) = if animating ss then 1%nat else 0%nat)
            fuel _ inputs ss0 ss _ H).
  - intros input s1 s2. apply one_loop_browser.
  - apply one_loop_runLevel in H0 as [H0 _]. exact H0.
Qed.

(** The session has not ended, or it has ended as [runLevel] ends it. *)
Lemma ended_browser (fuel : nat) (input : Input) (ss ss' : Session) :
  length (loops ss) = (if animating ss then 1%nat else 0%nat) ->
  (escListener ss = true /\ arrowListeners ss = true /\ results ss = [])
  \/ (escListener ss = false /\ arrowListeners ss = false
      /\ Level_isFinished (level (world ss)) = true
      /\ results ss = [status (level (world ss))]) ->
  browser fuel input ss = inr ss' ->
  (escListener ss' = true /\ arrowListeners ss' = true /\ results ss' = [])
  \/ (escListener ss' = false /\ arrowListeners ss' = false
      /\ Level_isFinished (level (world ss')) = true
      /\ results ss' = [status (level (world ss'))]).
Proof.
  intros Hone HI. destruct input as [event|i time]; simpl.
  - intros [= <-].
    destruct (dispatch_world event ss) as (-> & _ & -> & -> & ->). exact HI.
  - destruct (loops ss !! i) as [lastTime|] eqn:Hi; [|intros [= <-]; exact HI].
    assert (Han : animating ss = true).
    { destruct (animating ss); [reflexivity|].
      apply lookup_lt_Some in Hi. lia. }
    apply andb_true_iff in Han as [Hesc _].
    destruct HI as [(_ & Ha & Hres)|(He & _)]; [|congruence].
    assert (K : forall (l : list (option num)) (s1 : Session),
              escListener s1 = escListener ss ->
              arrowListeners s1 = arrowListeners ss ->
              results s1 = results ss ->
              escListener (set_loops l s1) = true
              /\ arrowListeners (set_loops l s1) = true
              /\ results (set_loops l s1) = []).
    { intros l s1 E1 E2 E3. simpl. rewrite E1, E2, E3. auto. }
    unfold frame.
    destruct lastTime as [t0|]; [|intros [= <-]; left; apply K; reflexivity].
    destruct (animation fuel _ ss) as [e|[r ss1]] eqn:E; [discriminate|].
    apply animation_cases in E as (Hl & _ & Hc).
    destruct Hc as [(Hp & -> & Hr' & _ & _ & He' & Ha' & Hres')
                   |(Hp & Hr' & _ & [(-> & _ & He' & Ha' & Hres')
                                    |(-> & Hfin & He' & Ha' & Hres')])];
      intros [= <-]; [left; apply K; assumption|left; apply K; assumption|].
    right. simpl. rewrite Hres', Hres. auto.
Qed.

(** [runLevel] ends a level once: until then both listeners are
    registered and [andThen] has not been called; from then on the level
    is finished, [andThen] has been called exactly once, with the status
    of the level, which is set, both listeners are removed and no loop
    is left, so that no further input changes anything. *)
Theorem runLevel_ends_once
    (fuel : nat) (w : State) (inputs : list Input) (ss0 ss : Session) :
  runLevel w = inr ss0 ->
  browse fuel inputs ss0 = inr ss ->
  (escListener ss = true /\ arrowListeners ss = true /\ results ss = [])
  \/ (escListener ss = false /\ arrowListeners ss = false /\ loops ss = []
      /\ Level_isFinished (level (world ss)) = true
      /\ (exists st, status (level (world ss)) = Some st
                     /\ results ss = [Some st])
      /\ forall input, browser fuel input ss = inr ss).
Proof.
  intros H0 H.
  set (I := fun ss : Session =>
              length (loops ss) = (if animating ss then 1%nat else 0%nat)
              /\ ((escListener ss = true /\ arrowListeners ss = true
                   /\ results ss = [])
                  \/ (escListener ss = false /\ arrowListeners ss = false
                      /\ Level_isFinished (level (world ss)) = true
                      /\ results ss = [status (level (world ss))]))).
  assert (HI : I ss).
  { refine (browse_invariant I fuel _ inputs ss0 ss _ H); unfold I.
    - intros input s1 s2 [H1 H2] E. split.
      + exact (one_loop_browser _ _ _ _ H1 E).
      + exact (ended_browser _ _ _ _ H1 H2 E).
    - apply one_loop_runLevel in H0 as (? & ? & ? & ?). auto. }
  destruct HI as [Hone [Hact|(He & Ha & Hfin & Hres)]]; [left; exact Hact|right].
  assert (Hl : loops ss = []).
  { unfold animating in Hone. rewrite He in Hone. simpl in Hone.
    destruct (loops ss); [reflexivity|discriminate Hone]. }
  split_and!; try assumption.
  - unfold Level_isFinished in Hfin. apply andb_true_iff in Hfin as [Hst _].
    apply bool_decide_eq_true in Hst.
    destruct (status (level (world ss))) as [st|]; [|congruence].
    exists st. auto.
  - intros [event|i time]; simpl.
    + unfold dispatch. rewrite He. cbn [andb]. rewrite Ha. reflexivity.
    + rewrite Hl. reflexivity.
Qed.

Lemma browse_keys (fuel : nat) (events : list Event) (ss : Session) :
  browse fuel (Key <$> events) ss = inr (foldl (fun s e => dispatch e s) ss events).
Proof.
  revert ss. induction events as [|e events IH]; intros ss; [reflexivity|].
  simpl. apply IH.
Qed.

(** Keys other than escape during a pause: they are tracked, and
    nothing else changes. *)
Lemma dispatch_paused (events : list Event) (ss : Session) :
  Forall not_esc events ->
  Forall (fun e => type e = "keydown" \/ type e = "keyup") events ->
  arrowListeners ss = true ->
  let ss' := foldl (fun s e => dispatch e s) ss events in
  running ss' = running ss /\ loops ss' = loops ss
  /\ world ss' = world ss /\ display ss' = display ss
  /\ escListener ss' = escListener ss /\ arrowListeners ss' = true
  /\ results ss' = results ss
  /\ arrows ss' = track arrowCodes events (arrows ss).
Proof.
  intros Hne Hty. revert ss.
  induction events as [|e events IH]; intros ss Ha; cbn zeta; cbn [foldl];
    [split_and!; auto|].
  apply Forall_cons in Hne as [He Hne]. apply Forall_cons in Hty as [Hte Hty].
  destruct (dispatch_world e ss) as (Hw & Hd & Hes & Har & Hres).
  destruct (dispatch_not_esc e ss He) as [Hr Hl].
  destruct (IH Hne Hty (dispatch e ss)) as (-> & -> & -> & -> & -> & -> & -> & ->);
    [congruence|].
  split_and!; try assumption; try reflexivity.
  rewrite track_cons. f_equal.
  unfold dispatch.
  assert (E : (if escListener ss && bool_decide (type e = "keydown")
               then handleEscKey e ss else ss) = ss).
  { destruct (escListener ss); [|reflexivity]. cbn [andb].
    case_bool_decide as Hd'; [|reflexivity].
    unfold handleEscKey. rewrite bool_decide_eq_false_2; [reflexivity|].
    intros Hk. apply He. auto. }
  rewrite E, Ha. cbn [andb].
  assert ((bool_decide (type e = "keydown") || bool_decide (type e = "keyup")) = true)
    as -> by (destruct Hte as [->| ->]; reflexivity).
  reflexivity.
Qed.

Lemma browse_two (fuel : nat) (i1 i2 : Input) (ss s1 s2 : Session) :
  browser fuel i1 ss = inr s1 -> browser fuel i2 s1 = inr s2 ->
  browse fuel [i1; i2] ss = inr s2.
Proof. intros E1 E2. simpl. rewrite E1, E2. reflexivity. Qed.

Lemma dispatch_esc (r : Running) (l : list (option num)) (a : bool)
    (p : gmap string KeyVal) (w : State) (d : Display)
    (res : list (option Status)) :
  dispatch esc (mkSession r l true a p w d res)
  = match r with
    | yes => mkSession pausing l true a p w d res
    | no => mkSession yes (l ++ [None]) true a p w d res
    | pausing => mkSession yes l true a p w d res
    end.
Proof.
  unfold dispatch, handler.
  replace (arrowCodes !! keyCode esc) with (@None string) by reflexivity.
  destruct r, a; reflexivity.
Qed.

(** The pause.  When escape is pressed while the level runs, the next
    frame stops the loop without animating the level; other keys pressed
    or released during the pause are tracked; the next escape starts a
    new loop, whose first frame only takes the time.  So from the first
    escape to that frame the level and the display are not touched, and
    the time of the pause enters no time step: the level goes on from
    [t2].  And two presses of escape with no frame in between leave the
    session as it was. *)
Theorem pause_freezes_level
    (fuel : nat) (ss : Session) (t0 t1 t2 : num) (keys : list Event) :
  running ss = yes -> loops ss = [Some t0] ->
  escListener ss = true -> arrowListeners ss = true ->
  Forall not_esc keys ->
  Forall (fun e => type e = "keydown" \/ type e = "keyup") keys ->
  (exists ss',
     browse fuel
       ([Key esc; AnimationFrame 0 t1] ++ (Key <$> keys)
        ++ [Key esc; AnimationFrame 0 t2]) ss = inr ss'
     /\ world ss' = world ss /\ display ss' = display ss
     /\ running ss' = yes /\ loops ss' = [Some t2]
     /\ arrows ss' = track arrowCodes keys (arrows ss)
     /\ escListener ss' = true /\ arrowListeners ss' = true
     /\ results ss' = results ss)
  /\ browse fuel [Key esc; Key esc] ss = inr ss.
Proof.
  intros Hr Hl He Ha Hne Hty.
  destruct ss as [r l e a p w d res]. simpl in Hr, Hl, He, Ha. subst r l e a.
  assert (Kesc : forall r l a p' res',
            browser fuel (Key esc) (mkSession r l true a p' w d res')
            = inr (match r with
                   | yes => mkSession pausing l true a p' w d res'
                   | no => mkSession yes (l ++ [None]) true a p' w d res'
                   | pausing => mkSession yes l true a p' w d res'
                   end)).
  { intros. simpl. f_equal. apply dispatch_esc. }
  split.
  - exists (mkSession yes [Some t2] true true (track arrowCodes keys p) w d res).
    split; [|simpl; auto 10].
    rewrite browse_app.
    rewrite (browse_two fuel (Key esc) (AnimationFrame 0 t1) _
               (mkSession pausing [Some t0] true true p w d res)
               (mkSession no [] true true p w d res)
               (Kesc yes _ _ _ _) eq_refl).
    rewrite browse_app, browse_keys.
    set (s1 := mkSession no [] true true p w d res).
    destruct (dispatch_paused keys s1 Hne Hty eq_refl)
      as (Hr' & Hl' & Hw' & Hd' & He' & Ha' & Hres' & Hp').
    destruct (foldl _ s1 keys) as [r2 l2 e2 a2 p2 w2 d2 res2].
    simpl in Hr', Hl', Hw', Hd', He', Ha', Hres', Hp'. subst.
    exact (browse_two fuel (Key esc) (AnimationFrame 0 t2) _
             (mkSession yes [None] true true _ w d res) _
             (Kesc no [] true _ _) eq_refl).
  - exact (browse_two fuel (Key esc) (Key esc) _
             (mkSession pausing [Some t0] true true p w d res) _
             (Kesc yes _ _ _ _) (Kesc pausing _ _ _ _)).
Qed.

End Sessions.

Lemma runLevel_one_animation_loop_witness :
  exists ss,
    browse (fun a => a) unit blank_drawFrame blank_clear 3
      [AnimationFrame 0 (of_Z 1000); Key esc; AnimationFrame 0 (of_Z 1016);
       Key right_down; Key esc; AnimationFrame 0 (of_Z 5000);
       AnimationFrame 0 (of_Z 5016)] session0 = inr ss
    /\ running ss = yes /\ length (loops ss) = 1%nat.
Proof.
  destruct (browse _ _ _ _ _ _ session0) as [e|ss] eqn:E;
    [vm_compute in E; discriminate E|].
  exists ss. split; [reflexivity|].
  rewrite (runLevel_one_animation_loop (fun a => a) unit blank blank_drawFrame
             blank_clear _ standing_on_floor _ session0 ss eq_refl E).
  vm_compute in E. injection E as <-. split; reflexivity.
Defined.

Lemma runLevel_ends_once_witness :
  exists ss,
    browse (fun a => a) unit blank_drawFrame blank_clear 3
      [AnimationFrame 0 (of_Z 1016); Key esc; AnimationFrame 0 (of_Z 1032)]
      session_lost = inr ss
    /\ results ss = [Some lost] /\ loops ss = [] /\ running ss = yes.
Proof.
  destruct (browse _ _ _ _ _ _ session_lost) as [e|ss] eqn:E;
    [vm_compute in E; discriminate E|].
  exists ss. split; [reflexivity|].
  assert (E0 : browse (fun a => a) unit blank_drawFrame blank_clear 3
                 [AnimationFrame 0 (of_Z 1000)]
                 (mkSession yes [None] true true trackKeys (world session_lost)
                    tt []) = inr session_lost) by reflexivity.
  pose proof (runLevel_ends_once (fun a => a) unit blank blank_drawFrame
                blank_clear 3 (world session_lost)
                ([AnimationFrame 0 (of_Z 1000)]
                 ++ [AnimationFrame 0 (of_Z 1016); Key esc;
                     AnimationFrame 0 (of_Z 1032)])
                _ ss eq_refl) as H.
  rewrite browse_app, E0 in H. specialize (H E).
  vm_compute in E. injection E as <-.
  destruct H as [(H & _)|(_ & _ & Hl & _ & _ & _)]; [discriminate H|].
  split_and!; reflexivity.
Defined.

Lemma pause_freezes_level_witness :
  exists ss,
    browse (fun a => a) unit blank_drawFrame blank_clear 3
      [Key esc; AnimationFrame 0 (of_Z 1016); Key right_down; Key left_up;
       Key esc; AnimationFrame 0 (of_Z 9000)] session1 = inr ss
    /\ world ss = standing_on_floor
    /\ loops ss = [Some (of_Z 9000)]
    /\ keys_of (arrows ss) = right_key.
Proof.
  destruct (pause_freezes_level (fun a => a) unit blank_drawFrame blank_clear 3
              session1 (of_Z 1000) (of_Z 1016) (of_Z 9000) [right_down; left_up])
    as [(ss & E & Hw & _ & _ & Hl & Ha & _) _]; try reflexivity.
  - apply Forall_cons; split; [intros [H _]; discriminate H|].
    apply Forall_cons; split; [intros [H _]; discriminate H|constructor].
  - apply Forall_cons; split; [left; reflexivity|].
    apply Forall_cons; split; [right; reflexivity|constructor].
  - exists ss. split; [exact E|]. rewrite Hw, Hl, Ha. split_and!; reflexivity.
Defined.

(** ** [runGame] *)

Lemma andThen_cases (plans : list (list string)) (n : nat) (lives : Lives)
    (status : option Status) :
  (n < length plans)%nat ->
  (exists n' lives', (n' < length plans)%nat
      /\ (andThen plans n lives status = ([], Some (n', lives'))
          \/ andThen plans n lives status = (["Game Over!"], Some (n', lives'))))
  \/ (andThen plans n lives status = (["You win!"], None)
      /\ status <> Some lost /\ S n = length plans).
Proof.
  intros Hn. unfold andThen. case_bool_decide as Hst.
  - left. destruct (fgt (lives_num lives) zero).
    + exists n, (HasLives (fsub (lives_num lives) one)). auto.
    + exists 0%nat, (HasLives (of_Z 3)). split; [lia|auto].
  - destruct (Z.ltb_spec (Z.of_nat n) (Z.of_nat (length plans) - 1)) as [Hlt|Hge].
    + left. exists (S n), NoLives. split; [lia|auto].
    + right. split_and!; [reflexivity|exact Hst|lia].
Qed.



(** The lives.  With 3 lives a level is played again after each of the
    first three losses, and the fourth loss in a row logs ["Game
    Over!"] and starts the first level with 3 lives.  The lives are not
    passed on to the next level: the first loss in a level that was
    reached by ending the level before it is a game over at once,
    however many lives were left. *)
Theorem runGame_lives
    (plans : list (list string)) (n : nat) (lives : Lives)
    (status : option Status) :
  status <> Some lost ->
  (S n < length plans)%nat ->
  play plans n (HasLives (of_Z 3)) [Some lost; Some lost; Some lost]
  = ([], Some (n, HasLives (of_Z 0)))
  /\ play plans n (HasLives (of_Z 3)) [Some lost; Some lost; Some lost; Some lost]
     = (["Game Over!"], Some (0%nat, HasLives (of_Z 3)))
  /\ play plans n lives [status] = ([], Some (S n, NoLives))
  /\ play plans n lives [status; Some lost]
     = (["Game Over!"], Some (0%nat, HasLives (of_Z 3))).
Proof.
  intros Hst Hn.
  assert (E : andThen plans n lives status = ([], Some (S n, NoLives))).
  { unfold andThen. rewrite bool_decide_eq_false_2 by exact Hst.
    destruct (Z.ltb_spec (Z.of_nat n) (Z.of_nat (length plans) - 1)); [reflexivity|lia]. }
  split_and!; [reflexivity|reflexivity| |]; simpl; rewrite E; reflexivity.
Qed.

Lemma runGame_lives_witness :
  play two_plans 0 (HasLives (of_Z 2)) [Some won; Some lost]
  = (["Game Over!"], Some (0%nat, HasLives (of_Z 3))).
Proof.
  apply (runGame_lives two_plans 0 (HasLives (of_Z 2)) (Some won));
    [discriminate|simpl; lia].
Defined.

(** * The step of a frame

    ** Rounding

    What [binary_round_aux] returns for a mantissa [q >= 0] and an
    exponent [e] that is not above the exponent of the format for [q]:
    a double in canonical form that is [q * 2^e] rounded down, or the
    next one. *)

Lemma fexp_eq (k : Z) : fexp prec emax k = Z.max (k - 53) (-1074).
Proof. reflexivity. Qed.

Lemma shr_1_m (r : shr_record) : 0 <= shr_m r -> shr_m (shr_1 r) = shr_m r / 2.
Proof.
  destruct r as [m a b]. cbn [shr_m]. intros Hm.
  destruct m as [|[p|p|]|p]; cbn [shr_1 shr_m]; [reflexivity| | |reflexivity|lia].
  - change (Zpos p~1) with (2 * Zpos p + 1).
    apply (Z.div_unique _ _ _ 1); lia.
  - change (Zpos p~0) with (2 * Zpos p).
    apply (Z.div_unique _ _ _ 0); lia.
Qed.

Lemma iter_shr_m (p : positive) (r : shr_record) :
  0 <= shr_m r ->
  shr_m (SpecFloat.iter_pos shr_1 p r) = shr_m r / 2 ^ Zpos p.
Proof.
  intros Hm. rewrite iter_pos_Pos_iter.
  induction p as [|p IH] using Pos.peano_ind.
  - simpl Pos.iter. rewrite shr_1_m by exact Hm. reflexivity.
  - rewrite Pos.iter_succ, shr_1_m.
    + rewrite IH, Pos2Z.inj_succ, Z.pow_succ_r by lia.
      rewrite Z.div_div by (try apply Z.pow_pos_nonneg; lia).
      f_equal. lia.
    + rewrite IH. apply Z.div_pos; [exact Hm|apply Z.pow_pos_nonneg; lia].
Qed.

Lemma shr_record_of_loc_m (m : Z) (l : location) :
  shr_m (shr_record_of_loc m l) = m.
Proof. destruct l as [|[]]; reflexivity. Qed.

Lemma shr_fexp_m (q e : Z) (l : location) :
  0 <= q -> e <= fexp prec emax (Zdigits2 q + e) ->
  exists r, shr_fexp prec emax q e l = (r, fexp prec emax (Zdigits2 q + e))
            /\ shr_m r = q / 2 ^ (fexp prec emax (Zdigits2 q + e) - e).
Proof.
  intros Hq He. unfold shr_fexp, shr.
  set (ef := fexp prec emax (Zdigits2 q + e)) in *.
  destruct (ef - e) as [|p|p] eqn:Hn; [| |lia].
  - exists (shr_record_of_loc q l). split.
    + f_equal. lia.
    + rewrite shr_record_of_loc_m, Z.pow_0_r, Z.div_1_r. reflexivity.
  - eexists. split.
    + f_equal. lia.
    + rewrite iter_shr_m; rewrite shr_record_of_loc_m; [reflexivity|exact Hq].
Qed.

Lemma Zdigits2_bounds (q : Z) :
  0 < q -> 2 ^ (Zdigits2 q - 1) <= q < 2 ^ Zdigits2 q.
Proof. destruct q as [|p|p]; try lia. intros _. apply digits2_pos_bounds. Qed.

Lemma canonic_shift (q e : Z) :
  0 <= q -> e <= fexp prec emax (Zdigits2 q + e) ->
  canonic (q / 2 ^ (fexp prec emax (Zdigits2 q + e) - e))
          (fexp prec emax (Zdigits2 q + e)).
Proof.
  intros Hq He. rewrite fexp_eq in *.
  destruct (Z.eq_dec q 0) as [->|Hq0].
  - simpl Zdigits2 in *. right. split; [|lia].
    rewrite Z.div_0_l; [lia|]. apply Z.pow_nonzero; lia.
  - destruct (Zdigits2_bounds q) as [Hlo Hhi]; [lia|].
    set (d := Zdigits2 q) in *.
    assert (Hd : 0 < d).
    { destruct q as [|p|p]; try lia. subst d. simpl. lia. }
    destruct (Z.le_gt_cases (-1074) (d + e - 53)) as [H|H].
    + rewrite Z.max_l in * by lia. left. split; [|lia].
      replace (d + e - 53 - e) with (d - 53) by lia.
      assert (Hp : 0 < 2 ^ (d - 53)) by (apply Z.pow_pos_nonneg; lia).
      assert (E1 : 2 ^ (d - 1) = 2 ^ (d - 53) * 2 ^ 52).
      { rewrite <- Z.pow_add_r by lia. f_equal. lia. }
      assert (E2 : 2 ^ d = 2 ^ (d - 53) * 2 ^ 53).
      { rewrite <- Z.pow_add_r by lia. f_equal. lia. }
      split.
      * apply Z.div_le_lower_bound; [exact Hp|]. rewrite <- E1. exact Hlo.
      * apply Z.div_lt_upper_bound; [exact Hp|]. rewrite <- E2. exact Hhi.
    + rewrite Z.max_r in * by lia. right. split; [|reflexivity].
      assert (Hp : 0 < 2 ^ (-1074 - e)) by (apply Z.pow_pos_nonneg; lia).
      split; [apply Z.div_pos; lia|].
      apply Z.div_lt_upper_bound; [exact Hp|].
      rewrite <- Z.pow_add_r by lia.
      apply Z.lt_le_trans with (1 := Hhi). apply Z.pow_le_mono_r; lia.
Qed.

Lemma round_nearest_even_cases (m : Z) (l : location) :
  round_nearest_even m l = m \/ round_nearest_even m l = m + 1.
Proof.
  destruct l as [|[]]; simpl; auto. destruct (Z.even m); auto.
Qed.

Lemma Zdigits2_eq (m d : Z) : 2 ^ (d - 1) <= m < 2 ^ d -> 0 < m -> Zdigits2 m = d.
Proof.
  intros H Hm. destruct m as [|p|p]; try lia. apply digits2_pos_eq, H.
Qed.

Lemma Zdigits2_le (m d : Z) : 0 <= d -> 0 <= m < 2 ^ d -> Zdigits2 m <= d.
Proof.
  intros Hd H. destruct m as [|p|p]; try lia; [exact Hd|].
  apply digits2_pos_le; lia.
Qed.

(** A canonical mantissa, or its successor, put in canonical form. *)
Lemma renormalize (f ef f' : Z) :
  canonic f ef -> f' = f \/ f' = f + 1 ->
  exists m er,
    shr_fexp prec emax f' ef loc_Exact = (Build_shr_record m false false, er)
    /\ canonic m er
    /\ ((er = ef /\ m = f') \/ (er = ef + 1 /\ m = 2 ^ 52 /\ f' = 2 ^ 53)).
Proof.
  intros Hc Hf'.
  assert (H53 : 2 ^ 53 = 2 * 2 ^ 52) by reflexivity.
  assert (Hr : 0 <= f' <= 2 ^ 53 /\ -1074 <= ef
               /\ (f' < 2 ^ 52 -> ef = -1074)).
  { destruct Hc as [[H1 H2]|[H1 H2]]; lia. }
  destruct Hr as (Hr & Hef & Hsub).
  destruct (Z.eq_dec f' (2 ^ 53)) as [E|NE].
  - exists (2 ^ 52), (ef + 1). rewrite E. split_and!.
    + unfold shr_fexp, shr. change (Zdigits2 (2 ^ 53)) with 54.
      rewrite fexp_eq. replace (Z.max (54 + ef - 53) (-1074) - ef) with 1 by lia.
      reflexivity.
    + left. lia.
    + right. auto.
  - exists f', ef. split_and!.
    + unfold shr_fexp, shr. rewrite fexp_eq.
      assert (Z.max (Zdigits2 f' + ef - 53) (-1074) - ef = 0) as ->; [|reflexivity].
      destruct (Z.le_gt_cases (2 ^ 52) f') as [H|H].
      * rewrite (Zdigits2_eq f' 53); [lia| |lia].
        change (53 - 1) with 52. lia.
      * rewrite (Hsub H).
        pose proof (Zdigits2_le f' 52) as Hd. lia.
    + destruct (Z.le_gt_cases (2 ^ 52) f') as [H|H]; [left|right]; lia.
    + left. auto.
Qed.

Lemma binary_round_aux_spec (sx : bool) (q e : Z) (l : location) :
  0 <= q -> e <= fexp prec emax (Zdigits2 q + e) ->
  let ef := fexp prec emax (Zdigits2 q + e) in
  let f := q / 2 ^ (ef - e) in
  exists m er f',
    binary_round_aux prec emax sx q e l = pack sx m er
    /\ canonic f ef /\ canonic m er
    /\ (f' = f \/ f' = f + 1)
    /\ ((er = ef /\ m = f') \/ (er = ef + 1 /\ m = 2 ^ 52 /\ f' = 2 ^ 53)).
Proof.
  intros Hq He ef f.
  destruct (shr_fexp_m q e l Hq He) as (r & E1 & Hr).
  pose proof (canonic_shift q e Hq He) as Hc. fold ef in E1, Hr, Hc. fold f in Hr, Hc.
  pose proof (round_nearest_even_cases (shr_m r) (loc_of_shr_record r)) as Hf'.
  rewrite Hr in Hf' at 2 4.
  destruct (renormalize f ef _ Hc Hf') as (m & er & E2 & Hm & Hcase).
  exists m, er, (round_nearest_even (shr_m r) (loc_of_shr_record r)).
  split_and!; try assumption.
  unfold binary_round_aux. rewrite E1, E2. cbn [shr_m]. unfold pack.
  destruct m as [|p|p]; reflexivity.
Qed.

Lemma canonic_valid (s : bool) (p : positive) (e : Z) :
  canonic (Zpos p) e -> e <= 971 -> valid (S754_finite s p e).
Proof.
  intros Hc He. unfold valid, valid_binary, bounded, canonical_mantissa.
  apply andb_true_intro. split; [|apply Z.leb_le; exact He].
  apply Z.eqb_eq. rewrite fexp_eq.
  destruct Hc as [[H1 H2]|[H1 H2]].
  - rewrite (digits2_pos_eq p 53); [lia|]. change (53 - 1) with 52. exact H1.
  - pose proof (digits2_pos_le p 52). lia.
Qed.

Lemma pack_valid (s : bool) (m e : Z) : canonic m e -> valid (pack s m e).
Proof.
  intros Hc. unfold pack. destruct m as [|p|p]; try reflexivity.
  destruct (Z.leb_spec e 971); [|reflexivity].
  apply canonic_valid; assumption.
Qed.

Lemma binary_round_aux_valid (sx : bool) (q e : Z) (l : location) :
  0 <= q -> e <= fexp prec emax (Zdigits2 q + e) ->
  valid (binary_round_aux prec emax sx q e l).
Proof.
  intros Hq He.
  destruct (binary_round_aux_spec sx q e l Hq He) as (m & er & f' & -> & _ & Hm & _).
  apply pack_valid, Hm.
Qed.

Lemma binary_round_valid (sx : bool) (m : positive) (e : Z) :
  valid (binary_round prec emax sx m e).
Proof.
  unfold binary_round, shl_align.
  set (fe := fexp prec emax (Zpos (digits2_pos m) + e)).
  destruct (fe - e) as [|p|p] eqn:Hn.
  - apply binary_round_aux_valid; [lia|]. simpl Zdigits2. fold fe. lia.
  - apply binary_round_aux_valid; [lia|]. simpl Zdigits2. fold fe. lia.
  - apply binary_round_aux_valid; [lia|]. simpl Zdigits2.
    rewrite digits2_pos_iter_xO.
    replace (Zpos (digits2_pos m + p) + fe) with (Zpos (digits2_pos m) + e) by lia.
    fold fe. lia.
Qed.

Lemma binary_normalize_valid (z e : Z) (s : bool) :
  valid (binary_normalize prec emax z e s).
Proof. destruct z; [reflexivity|apply binary_round_valid..]. Qed.

(** The difference of two doubles is a double. *)
Lemma fsub_valid (a b : num) : valid a -> valid b -> valid (fsub a b).
Proof.
  intros Ha Hb. unfold fsub.
  destruct a as [sa|sa| |sa ma ea], b as [sb|sb| |sb mb eb];
    try reflexivity; try assumption;
    try (destruct sa, sb; reflexivity).
  apply binary_normalize_valid.
Qed.

(** ** Division *)

Lemma Zdigits2_nonneg (q : Z) : 0 <= Zdigits2 q.
Proof. destruct q; simpl; lia. Qed.

Lemma Zdigits2_lower (q k : Z) : 0 <= k -> 2 ^ k <= q -> k + 1 <= Zdigits2 q.
Proof.
  intros Hk Hq.
  assert (0 < 2 ^ k) by (apply Z.pow_pos_nonneg; lia).
  destruct (Zdigits2_bounds q) as [_ Hhi]; [lia|].
  pose proof (Zdigits2_nonneg q).
  assert (k < Zdigits2 q); [|lia].
  apply (Z.pow_lt_mono_r_iff 2); lia.
Qed.

Lemma fexp_mono (a b : Z) : a <= b -> fexp prec emax a <= fexp prec emax b.
Proof. rewrite !fexp_eq. lia. Qed.

(** The quotient that [SFdiv] rounds: it is not above the exact
    quotient, and has digits enough for the rounding. *)
Lemma SFdiv_core_spec (m1 m2 : positive) (e1 e2 : Z) :
  exists q e' l,
    SFdiv_core_binary prec emax (Zpos m1) e1 (Zpos m2) e2 = (q, e', l)
    /\ 0 <= q
    /\ e' <= fexp prec emax (Zdigits2 q + e')
    /\ e' <= e1 - e2
    /\ Z.min (-1074) (e1 - e2) <= e'
    /\ q * Zpos m2 <= Zpos m1 * 2 ^ (e1 - e2 - e').
Proof.
  unfold SFdiv_core_binary.
  set (d1 := Zdigits2 (Zpos m1)). set (d2 := Zdigits2 (Zpos m2)).
  set (e' := Z.min (fexp prec emax (d1 + e1 - (d2 + e2))) (e1 - e2)).
  set (s := e1 - e2 - e').
  assert (Hs : 0 <= s) by (subst s e'; lia).
  set (m' := match s with Z0 => Zpos m1 | Zpos _ => Z.shiftl (Zpos m1) s | Zneg _ => 0 end).
  assert (Hm' : m' = Zpos m1 * 2 ^ s).
  { subst m'. destruct s as [|p|p] eqn:Es; [rewrite Z.pow_0_r; lia| |lia].
    apply Z.shiftl_mul_pow2. lia. }
  clearbody m'.
  pose proof (Z_div_mod m' (Zpos m2) eq_refl) as Hdiv.
  destruct (Z.div_eucl m' (Zpos m2)) as [q r]. destruct Hdiv as [Hdiv Hr].
  assert (Hp : 0 < 2 ^ s) by (apply Z.pow_pos_nonneg; lia).
  assert (Hq : 0 <= q) by nia.
  exists q, e', (new_location (Zpos m2) r). split; [reflexivity|].
  split; [exact Hq|]. split; [|split; [subst e'; lia|split]].
  - apply Z.le_trans with (fexp prec emax (d1 + e1 - (d2 + e2))); [subst e'; lia|].
    apply fexp_mono.
    assert (d1 + s - d2 <= Zdigits2 q); [|subst s; lia].
    pose proof (Zdigits2_nonneg q).
    destruct (Z.le_gt_cases (d1 + s - d2) 0) as [H0|H0]; [lia|].
    replace (d1 + s - d2) with ((d1 + s - d2 - 1) + 1) by lia.
    apply Zdigits2_lower; [lia|].
    destruct (digits2_pos_bounds m1) as [Hlo1 _].
    destruct (digits2_pos_bounds m2) as [_ Hhi2].
    fold (Zdigits2 (Zpos m1)) in Hlo1. fold (Zdigits2 (Zpos m2)) in Hhi2.
    fold d1 in Hlo1. fold d2 in Hhi2.
    assert (0 < d2) by (subst d2; simpl; lia).
    assert (0 < d1) by (subst d1; simpl; lia).
    assert (Hk : Zpos m2 * 2 ^ (d1 + s - d2 - 1) <= m').
    { rewrite Hm'.
      apply Z.le_trans with (2 ^ d2 * 2 ^ (d1 + s - d2 - 1)).
      - apply Z.mul_le_mono_nonneg_r; [apply Z.pow_nonneg; lia|lia].
      - rewrite <- Z.pow_add_r by lia.
        replace (d2 + (d1 + s - d2 - 1)) with ((d1 - 1) + s) by lia.
        rewrite Z.pow_add_r by lia.
        apply Z.mul_le_mono_nonneg_r; lia. }
    set (K := 2 ^ (d1 + s - d2 - 1)) in *. clearbody K. nia.
  - subst e'. pose proof (fexp_eq (d1 + e1 - (d2 + e2))). lia.
  - fold s. rewrite <- Hm'. nia.
Qed.

(** Rounding is monotone: what is below a double [B * 2^eb] is not
    rounded above it. *)
Lemma round_below (q e : Z) (l : location) (B eb : Z) :
  0 <= q -> -1074 <= e -> e <= fexp prec emax (Zdigits2 q + e) ->
  2 ^ 52 <= B < 2 ^ 53 -> -1074 <= eb ->
  q * 2 ^ (e + 1074) < B * 2 ^ (eb + 1074) ->
  exists m er,
    binary_round_aux prec emax false q e l = pack false m er
    /\ canonic m er /\ (er < eb \/ (er = eb /\ m <= B)).
Proof.
  intros Hq He Hfe HB Heb Hlt.
  destruct (binary_round_aux_spec false q e l Hq Hfe)
    as (m & er & f' & E & Hf & Hm & Hf' & Hcase).
  set (ef := fexp prec emax (Zdigits2 q + e)) in *.
  set (f := q / 2 ^ (ef - e)) in *.
  exists m, er. split; [exact E|]. split; [exact Hm|].
  assert (H53 : 2 ^ 53 = 2 * 2 ^ 52) by reflexivity.
  assert (Hn : 0 < 2 ^ (ef - e)) by (apply Z.pow_pos_nonneg; lia).
  assert (Hfq : f * 2 ^ (ef - e) <= q).
  { subst f. rewrite Z.mul_comm. apply Z.mul_div_le. exact Hn. }
  assert (HX : 0 < 2 ^ (eb + 1074)) by (apply Z.pow_pos_nonneg; lia).
  assert (HY : 0 < 2 ^ (e + 1074)) by (apply Z.pow_pos_nonneg; lia).
  assert (EY : 2 ^ (ef + 1074) = 2 ^ (ef - e) * 2 ^ (e + 1074)).
  { rewrite <- Z.pow_add_r by lia. f_equal. lia. }
  assert (Hf0 : 0 <= f) by (destruct Hf as [[? ?]|[? ?]]; lia).
  assert (HfB : f * 2 ^ (ef + 1074) < B * 2 ^ (eb + 1074)).
  { apply Z.le_lt_trans with (2 := Hlt). rewrite EY, Z.mul_assoc.
    apply Z.mul_le_mono_nonneg_r; lia. }
  destruct (Z.lt_trichotomy ef eb) as [C|[C|C]].
  - destruct Hcase as [[-> ->]|(-> & -> & _)]; [left; exact C|].
    destruct (Z.eq_dec (ef + 1) eb); [right; split; lia|left; lia].
  - rewrite C in HfB.
    assert (f < B) by (apply (Z.mul_lt_mono_pos_r (2 ^ (eb + 1074))); assumption).
    destruct Hcase as [[-> ->]|(-> & -> & ->)]; [right; split; lia|lia].
  - exfalso.
    destruct Hf as [[Hf1 _]|[_ Hf1]]; [|lia].
    assert (EZ : 2 ^ (ef + 1074) = 2 ^ (ef - eb) * 2 ^ (eb + 1074)).
    { rewrite <- Z.pow_add_r by lia. f_equal. lia. }
    assert (2 ^ 1 <= 2 ^ (ef - eb)) by (apply Z.pow_le_mono_r; lia).
    rewrite EZ in HfB. change (2 ^ 1) with 2 in *.
    set (X := 2 ^ (eb + 1074)) in *. set (Z2 := 2 ^ (ef - eb)) in *.
    set (P := 2 ^ 52) in *. clearbody X Z2 P.
    assert (P * (2 * X) <= f * (Z2 * X)).
    { apply Z.mul_le_mono_nonneg; try lia. apply Z.mul_le_mono_nonneg_r; lia. }
    assert (B * X < 2 * P * X) by (apply Z.mul_lt_mono_pos_r; lia).
    lia.
Qed.

(** ** The step of a frame *)

Lemma valid_finite (s : bool) (m : positive) (e : Z) :
  valid (S754_finite s m e) -> -1074 <= e /\ Zpos m < 2 ^ 53.
Proof.
  unfold valid, valid_binary, bounded, canonical_mantissa.
  intros H. apply andb_prop in H as [H _]. apply Z.eqb_eq in H.
  rewrite fexp_eq in H. split; [lia|].
  destruct (digits2_pos_bounds m) as [_ Hhi].
  apply Z.lt_le_trans with (1 := Hhi). apply Z.pow_le_mono_r; lia.
Qed.

Lemma compare_cont_Eq (p q : positive) :
  Pos.compare_cont Eq p q = (Zpos p ?= Zpos q).
Proof. rewrite Pos.compare_cont_spec. unfold Pos.switch_Eq. simpl. destruct (p ?= q)%positive; reflexivity. Qed.

(** A positive double below 100, divided by 1000, is not above [0.1]. *)
Lemma fdiv_thousand (m1 : positive) (e1 : Z) :
  valid (S754_finite false m1 e1) ->
  flt (S754_finite false m1 e1) (of_Z 100) = true ->
  exists m er,
    fdiv (S754_finite false m1 e1) (of_Z 1000) = pack false m er
    /\ canonic m er
    /\ (er < -56 \/ (er = -56 /\ m <= 7205759403792794)).
Proof.
  intros Hv Hlt. destruct (valid_finite _ _ _ Hv) as [He1 Hm1].
  change (of_Z 1000) with (S754_finite false 8796093022208000 (-43)).
  change (of_Z 100) with (S754_finite false 7036874417766400 (-46)) in Hlt.
  unfold fdiv, SFdiv.
  destruct (SFdiv_core_spec m1 8796093022208000 e1 (-43))
    as (q & e' & l & E & Hq & Hfe & Hle & Hge & Hm).
  rewrite E. cbn [xorb].
  apply round_below;
    [exact Hq|lia|exact Hfe|split; [vm_compute; discriminate|reflexivity]|lia|].
  (* the exact quotient is below 1/10 *)
    assert (Hval : Zpos m1 * 2 ^ (e1 + 1074) < 100 * (2 ^ 56 * 2 ^ 1018)).
    { unfold flt, SFltb, SFcompare in Hlt.
      destruct (Z.compare_spec e1 (-46)) as [->|H|H]; [| |discriminate].
      - rewrite compare_cont_Eq in Hlt.
        destruct (Z.compare_spec (Zpos m1) 7036874417766400) as [?|Hc|?];
          try discriminate.
        change (-46 + 1074) with (10 + 1018). rewrite Z.pow_add_r by lia.
        assert (0 < 2 ^ 1018) by (apply Z.pow_pos_nonneg; lia).
        set (W := 2 ^ 1018) in *. clearbody W.
        change (2 ^ 10) with 1024. change (2 ^ 56) with 72057594037927936.
        nia.
      - assert (2 ^ (e1 + 1074) <= 2 ^ (9 + 1018)) by (apply Z.pow_le_mono_r; lia).
        rewrite (Z.pow_add_r 2 9 1018) in H0 by lia.
        assert (0 < 2 ^ (e1 + 1074)) by (apply Z.pow_pos_nonneg; lia).
        assert (0 < 2 ^ 1018) by (apply Z.pow_pos_nonneg; lia).
        set (W := 2 ^ 1018) in *. set (Y := 2 ^ (e1 + 1074)) in *. clearbody W Y.
        change (2 ^ 9) with 512 in *. change (2 ^ 56) with 72057594037927936.
        change (2 ^ 53) with 9007199254740992 in *.
        nia. }
    replace (e1 - -43 - e') with (e1 + 43 - e') in Hm by lia.
    assert (EY : 2 ^ (e1 + 43 - e') * 2 ^ (e' + 1074) = 2 ^ (e1 + 1074) * 2 ^ 43).
    { rewrite <- !Z.pow_add_r by lia. f_equal. lia. }
    assert (HY : 0 < 2 ^ (e' + 1074)) by (apply Z.pow_pos_nonneg; lia).
    assert (H1 : q * 2 ^ (e' + 1074) * 8796093022208000
                 <= Zpos m1 * 2 ^ (e1 + 1074) * 2 ^ 43).
    { assert (G1 : q * 8796093022208000 * 2 ^ (e' + 1074)
                   <= Zpos m1 * 2 ^ (e1 + 43 - e') * 2 ^ (e' + 1074))
        by (apply Z.mul_le_mono_nonneg_r; lia).
      rewrite <- (Z.mul_assoc (Zpos m1)), EY in G1. lia. }
    change (-56 + 1074) with 1018.
    set (W := 2 ^ 1018) in *. set (A := q * 2 ^ (e' + 1074)) in *.
    set (V := Zpos m1 * 2 ^ (e1 + 1074)) in *.
    assert (0 < W) by (apply Z.pow_pos_nonneg; lia).
    clearbody W A V.
    change (2 ^ 43) with 8796093022208 in H1.
    change (2 ^ 56) with 72057594037927936 in Hval.
    lia.
Qed.

Lemma fgt_zero_neg_round (q e : Z) (l : location) :
  fgt (binary_round_aux prec emax true q e l) zero = false.
Proof.
  unfold binary_round_aux.
  destruct (shr_fexp prec emax q e l) as [r1 e1].
  destruct (shr_fexp prec emax _ e1 loc_Exact) as [r2 e2].
  destruct (shr_m r2); [reflexivity| |reflexivity].
  destruct (e2 <=? emax - prec); reflexivity.
Qed.

(** The step that [frame] computes from the time between two frames:
    it is not positive, or positive and at most [maxStep], or a double
    above [maxStep] and at most [frameCap]. *)
Lemma timeStep_cases (d : num) :
  valid d ->
  let r := fdiv (Math_min d (of_Z 100)) (of_Z 1000) in
  fgt r zero = false
  \/ (fgt r zero = true /\ fle r maxStep = true)
  \/ (valid r /\ fgt r maxStep = true /\ fle r frameCap = true).
Proof.
  intros Hv r.
  destruct (flt d (of_Z 100)) eqn:Hlt.
  - assert (Hmin : Math_min d (of_Z 100) = d).
    { unfold Math_min. rewrite Hlt. destruct d; reflexivity. }
    subst r. rewrite Hmin.
    destruct d as [s|s| |s m1 e1].
    + left. destruct s; reflexivity.
    + left. destruct s; [reflexivity|discriminate].
    + discriminate.
    + destruct s.
      * left. change (of_Z 1000) with (S754_finite false 8796093022208000 (-43)).
        unfold fdiv, SFdiv.
        destruct (SFdiv_core_binary prec emax (Zpos m1) e1 _ _) as [[q e'] l].
        apply fgt_zero_neg_round.
      * destruct (fdiv_thousand m1 e1 Hv Hlt) as (m & er & -> & Hc & Hb).
        destruct m as [|p|p]; [left; reflexivity| |left; reflexivity].
        right. unfold pack.
        destruct (Z.leb_spec er 971) as [Her|Her]; [|lia].
        unfold fgt, fle, flt, SFltb, SFleb, maxStep, frameCap, SFcompare.
        cbn [zero].
        destruct (Z.compare_spec er (-57)) as [->|H57|H57].
        -- rewrite !compare_cont_Eq.
           change (-57 ?= -57) with Eq. change (-57 ?= -56) with Lt. cbv iota.
           rewrite (Z.compare_antisym (Zpos p)).
           destruct (Z.compare_spec (Zpos p) 7205759403792794); cbn [CompOpp].
           ++ left. auto.
           ++ left. auto.
           ++ right. split_and!; try reflexivity. apply canonic_valid; [exact Hc|lia].
        -- left. auto.
        -- right. assert (er = -56) as -> by lia.
           destruct Hb as [?|[_ Hb]]; [lia|].
           change (-57 ?= -56) with Lt. change (-56 ?= -56) with Eq. cbv iota.
           rewrite compare_cont_Eq.
           split_and!; try reflexivity; [apply canonic_valid; [exact Hc|lia]|].
           destruct (Z.compare_spec (Zpos p) 7205759403792794); try reflexivity. lia.
  - assert (Hd : d = S754_nan \/ d <> S754_nan)
      by (destruct d; [right|right|left|right]; congruence).
    destruct Hd as [->|Hnan]; [left; reflexivity|].
    subst r. rewrite (Math_min_hundred d Hnan Hlt).
    right. right. split_and!; reflexivity.
Qed.

(** ** The frames of [runAnimation] *)

Lemma substeps_length (fuel : nat) (step : num) (l : list num) :
  substeps fuel step = Some l -> (length l <= fuel)%nat.
Proof.
  revert step l. induction fuel as [|fuel IH]; intros step l; simpl.
  - destruct (fgt step zero); [discriminate|]. intros [= <-]. simpl. lia.
  - destruct (fgt step zero); [|intros [= <-]; simpl; lia].
    destruct (substeps fuel _) as [l'|] eqn:E; [|discriminate].
    intros [= <-]. simpl. apply IH in E. lia.
Qed.

(** Two iterations are enough for the step of any frame. *)
Lemma frame_substeps (lastTime time : num) :
  valid lastTime -> valid time ->
  exists l, substeps 2 (timeStep_of lastTime time) = Some l.
Proof.
  intros H0 H1. unfold timeStep_of.
  destruct (timeStep_cases (fsub time lastTime) (fsub_valid _ _ H1 H0))
    as [Hz|[[Hpos Hle]|(Hv & Hgt & Hle)]].
  - eexists. apply substeps_done, Hz.
  - eexists. apply substeps_small. exact (small_spec _ _ Hpos Hle).
  - set (dt := fdiv _ _) in *.
    destruct (big_step _ maxStep_digits dt Hv Hgt Hle) as (Hmin & Hs & _).
    assert (Hpos : fgt dt zero = true).
    { destruct dt as [[]|[]| |[] m e]; try discriminate; reflexivity. }
    eexists. rewrite substeps_step by exact Hpos. unfold maxStep at 1 2.
    rewrite Hmin. rewrite substeps_small by exact Hs. reflexivity.
Qed.

(** Every frame ends.  Whatever the times of two frames are, the step
    that [frame] computes from them is one that the loop of [animate]
    uses up in at most two sub-steps; so, in a well-formed state,
    [animate] returns, raising nothing, in a well-formed state. *)
Theorem every_frame_ends
    (Math_sin : num -> num) (lastTime time : num) (keys : Keys) (s : State) :
  valid lastTime -> valid time -> well_formed s ->
  exists (l : list num) (s' : State),
    substeps 2 (timeStep_of lastTime time) = Some l
    /\ (length l <= 2)%nat
    /\ Level_animate Math_sin 2 (timeStep_of lastTime time) keys s = inr (tt, s')
    /\ well_formed s'.
Proof.
  intros H0 H1 Hwf.
  destruct (frame_substeps lastTime time H0 H1) as [l Hl].
  destruct (animate_returns Math_sin 2 _ keys s l Hwf Hl) as (s' & E & Hwf').
  exists l, s'. split_and!; try assumption.
  exact (substeps_length _ _ _ Hl).
Qed.

Lemma every_frame_ends_witness :
  exists (l : list num) (s' : State),
    substeps 2 (timeStep_of (of_Z 1000) (of_Z 1016)) = Some l
    /\ (length l <= 2)%nat
    /\ Level_animate (fun a => a) 2 (timeStep_of (of_Z 1000) (of_Z 1016))
         left_key two_coins = inr (tt, s')
    /\ well_formed s'.
Proof.
  apply (every_frame_ends (fun a => a) (of_Z 1000) (of_Z 1016) left_key two_coins).
  - reflexivity.
  - reflexivity.
  - split_and!; [reflexivity| |]; repeat constructor; try (eexists; reflexivity).
Defined.

(** ** The game loop *)

Lemma handler_keeps_unregister (event : Event) (pressed : gmap string KeyVal) :
  (handler arrowCodes event pressed).1 !! "unregister" = pressed !! "unregister".
Proof.
  unfold handler. destruct (arrowCodes !! keyCode event) as [name|] eqn:E;
    [|reflexivity].
  apply arrowCodes_lookup in E as [[_ ->]|[[_ ->]|[_ ->]]];
    apply lookup_insert_ne; discriminate.
Qed.

Lemma has_player_evolves (s s' : State) :
  evolves s s' -> has_player s -> has_player s'.
Proof.
  intros ((_ & _ & _ & P) & _ & _ & _ & _ & Ty) (r & Hr & [a Ha]).
  exists r. split; [congruence|].
  destruct (Ty r a Ha) as (a' & Ha' & _). eauto.
Qed.

Lemma has_player_animate (Math_sin : num -> num) (fuel : nat) (step : num)
    (keys : Keys) (s s' : State) :
  Level_animate Math_sin fuel step keys s = inr (tt, s') ->
  has_player s -> has_player s'.
Proof.
  intros H Hp.
  destruct (animate_evolves _ _ _ _ _ _ H)
    as (s1 & _ & _ & Ho & (_ & _ & _ & P) & _ & _ & _ & E).
  apply (has_player_evolves s1 s' E).
  destruct Hp as (r & Hr & Hs). exists r. split; [congruence|].
  rewrite Ho. exact Hs.
Qed.

Section GameLoop.

Variable Math_sin : num -> num.
Variable Display : Type.
Variable new_Display : State -> Err + Display.
Variable drawFrame : num -> State -> Display -> Err + Display.
Variable clear : Display -> Err + Display.

(** The displays that can be drawn on and cleared. *)
Variable J : Display -> Prop.

Hypothesis new_Display_J : forall w d, new_Display w = inr d -> J d.

Hypothesis drawFrame_J : forall step w d,
  well_formed w -> has_player w -> J d ->
  exists d', drawFrame step w d = inr d' /\ J d'.

Hypothesis clear_J : forall d, J d -> exists d', clear d = inr d'.

Local Abbreviation Session := (Session Display).
Local Abbreviation animation := (animation Math_sin Display drawFrame clear).
Local Abbreviation browser := (browser Math_sin Display drawFrame clear).
Local Abbreviation browse := (browse Math_sin Display drawFrame clear).
Local Abbreviation runLevel := (runLevel Display new_Display).

Lemma dispatch_sound (event : Event) (ss : Session) :
  sound J ss -> sound J (dispatch event ss).
Proof.
  intros (Hw & Hp & Hu & Hl & Hone & HJ).
  destruct (dispatch_world Display event ss) as (Ew & Ed & Ee & _ & _).
  unfold sound. rewrite Ew, Ed, Ee. split_and!; try assumption.
  - unfold dispatch.
    set (ss1 := if escListener ss && _ then _ else ss).
    assert (H1 : arrows ss1 = arrows ss).
    { subst ss1. destruct (escListener ss && _); [|reflexivity].
      unfold handleEscKey. case_bool_decide; [|reflexivity].
      destruct (running ss); reflexivity. }
    destruct (arrowListeners ss1 && _); [|rewrite H1; exact Hu].
    cbn [arrows set_arrows]. rewrite handler_keeps_unregister, H1. exact Hu.
  - unfold dispatch.
    set (ss1 := if escListener ss && _ then _ else ss).
    assert (H1 : Forall (fun t => from_option valid True t) (loops ss1)).
    { subst ss1. destruct (escListener ss && _); [|exact Hl].
      unfold handleEscKey. case_bool_decide; [|exact Hl].
      destruct (running ss); try exact Hl.
      cbn [loops runAnimation set_loops set_running].
      apply Forall_app. split; [exact Hl|]. repeat constructor. }
    destruct (arrowListeners ss1 && _); exact H1.
  - exact (one_loop_browser Math_sin Display drawFrame clear 0 (Key event) ss _
             Hone eq_refl).
Qed.

(** [animation] returns on a session that is animated. *)
Lemma animation_returns (t0 time : num) (ss : Session) :
  sound J ss -> escListener ss = true -> valid t0 -> valid time ->
  exists r ss1,
    animation 2 (timeStep_of t0 time) ss = inr (r, ss1)
    /\ well_formed (world ss1) /\ has_player (world ss1)
    /\ (escListener ss1 = true -> J (display ss1)).
Proof.
  intros (Hw & Hp & Hu & Hl & Hone & HJ) Hesc H0 H1.
  unfold animation. case_bool_decide as Hpause.
  - eexists _, _. split; [reflexivity|]. simpl. auto.
  - destruct (frame_substeps t0 time H0 H1) as [l Hl'].
    destruct (animate_returns Math_sin 2 _ (keys_of (arrows ss)) (world ss) l
                Hw Hl') as (w & E & Hw').
    rewrite E.
    pose proof (has_player_animate _ _ _ _ _ _ E Hp) as Hp'.
    destruct (drawFrame_J (timeStep_of t0 time) w (display ss) Hw' Hp' (HJ Hesc))
      as (d & Ed & Jd).
    rewrite Ed.
    destruct (Level_isFinished (level w)).
    + destruct (clear_J d Jd) as (d' & Ec). rewrite Ec.
      unfold unregister. cbn [arrows]. rewrite Hu.
      eexists _, _. split; [reflexivity|]. simpl. split_and!; auto. discriminate.
    + eexists _, _. split; [reflexivity|]. simpl. rewrite Hesc. auto.
Qed.

(** The browser's next step returns in a sound session. *)
Lemma browser_sound (input : Input) (ss : Session) :
  sound J ss -> timed input ->
  exists ss', browser 2 input ss = inr ss' /\ sound J ss'.
Proof.
  intros Hs Ht. destruct input as [event|i time].
  - exists (dispatch event ss). split; [reflexivity|apply dispatch_sound, Hs].
  - simpl in Ht.
    assert (R : forall ss', browser 2 (AnimationFrame i time) ss = inr ss' ->
                length (loops ss') = if animating ss' then 1%nat else 0%nat).
    { intros ss'. apply one_loop_browser. apply Hs. }
    revert R. cbn [browser].
    destruct (loops ss !! i) as [lastTime|] eqn:Hi; [|intros _; eauto].
    destruct Hs as (Hw & Hp & Hu & Hl & Hone & HJ).
    assert (Hesc : escListener ss = true).
    { unfold animating in Hone. destruct (escListener ss); [reflexivity|].
      apply lookup_lt_Some in Hi. simpl in Hone. lia. }
    pose proof (Forall_lookup_1 _ _ _ _ Hl Hi) as Hv.
    unfold frame. destruct lastTime as [t0|].
    + destruct (animation_returns t0 time ss) as (r & ss1 & E & Hw1 & Hp1 & HJ1);
        [unfold sound; auto 10|exact Hesc|exact Hv|exact Ht|].
      rewrite E.
      apply animation_cases in E as (El & Ea & _).
      destruct r; intros R; eexists; (split; [reflexivity|]).
      * unfold sound. cbn [world arrows loops display escListener set_loops].
        split_and!; try assumption.
        -- rewrite Ea. exact Hu.
        -- rewrite El. apply Forall_delete, Hl.
        -- exact (R _ eq_refl).
      * unfold sound. cbn [world arrows loops display escListener set_loops].
        split_and!; try assumption.
        -- rewrite Ea. exact Hu.
        -- rewrite El. apply Forall_insert; assumption.
        -- exact (R _ eq_refl).
    + intros R. eexists. split; [reflexivity|].
      unfold sound. cbn [world arrows loops display escListener set_loops].
      split_and!; try assumption.
      * apply Forall_insert; assumption.
      * exact (R _ eq_refl).
Qed.

Lemma browse_sound (inputs : list Input) (ss : Session) :
  sound J ss -> Forall timed inputs ->
  exists ss', browse 2 inputs ss = inr ss' /\ sound J ss'.
Proof.
  revert ss. induction inputs as [|input rest IH]; intros ss Hs Ht.
  - exists ss. auto.
  - inversion Ht as [|? ? H1 H2]; subst.
    destruct (browser_sound input ss Hs H1) as (ss1 & E & Hs1).
    simpl. rewrite E. apply IH; assumption.
Qed.

Lemma runLevel_sound (w : State) (ss : Session) :
  well_formed w -> has_player w -> runLevel w = inr ss -> sound J ss.
Proof.
  intros Hw Hp. unfold runLevel.
  destruct (new_Display w) as [e|d] eqn:E; [discriminate|]. intros [= <-].
  unfold sound. simpl. split_and!; auto.
  - repeat constructor.
  - intros _. exact (new_Display_J w d E).
Qed.


End GameLoop.


(** * The display *)

Lemma foldl_appendChild {A : Type} (f : A -> Element) (l : list A) (e : Element) :
  foldl (fun e a => appendChild (f a) e) e l
  = mkElement (tagName e) (className e) (style e) (children e ++ (f <$> l)).
Proof.
  revert e. induction l as [|a l IH]; intros e; simpl.
  - rewrite app_nil_r. destruct e; reflexivity.
  - rewrite IH. simpl. rewrite <- app_assoc. reflexivity.
Qed.

Lemma elt_type (name : string) (type : option Field) :
  elt name (field_name <$> type)
  = mkElement name (from_option field_name EmptyString type) [] [].
Proof. destruct type as [[]|]; reflexivity. Qed.

(** An actor of a well-formed state has its position and its size
    stored. *)
Lemma well_formed_actor (s : State) (r : ref) (a : Actor) :
  well_formed s -> objs s !! r = Some a ->
  exists pos size,
    vecs s !! actor_pos a = Some pos /\ vecs s !! actor_size a = Some size.
Proof.
  intros (_ & _ & F) Ha.
  pose proof (Forall_lookup_1 _ _ _ _ F Ha) as Hf.
  assert (H : (actor_pos a < length (vecs s) /\ actor_size a < length (vecs s))%nat).
  { destruct a as [p sz sp|p sz [sp|] rp|bp p sz wob]; simpl in *;
      [lia|lia|destruct Hf|lia]. }
  destruct H as [H1 H2].
  apply lookup_lt_is_Some_2 in H1 as [pos H1].
  apply lookup_lt_is_Some_2 in H2 as [size H2]. eauto.
Qed.

(** ** A level to display *)

Lemma at_in_cells (lines : list string) (y0 w row col : nat) (line : string) :
  lines !! row = Some line -> (col < w)%nat ->
  String.get col line = Some "@"%char ->
  (col, (y0 + row)%nat, "@"%char) ∈ actors_of lines y0 w.
Proof.
  intros Hrow Hcol Hget. unfold actors_of.
  apply list_elem_of_bind. exists ((y0 + row)%nat, line). split.
  - apply list_elem_of_bind. exists col. split.
    + unfold actor_at. rewrite Hget. simpl. apply list_elem_of_singleton.
      reflexivity.
    + apply elem_of_seq. lia.
  - apply list_elem_of_lookup. exists row.
    apply lookup_zip_Some. split; [|exact Hrow].
    apply lookup_seq. split; [reflexivity|].
    apply lookup_lt_Some in Hrow. exact Hrow.
Qed.

(** A level made from a plan with an [@] among the first [width]
    characters of a line is well formed and has its player. *)
Lemma new_Level_with_player
    (Math_random : nat -> num) (line0 : string) (rest : list string)
    (row col : nat) (line : string) :
  (line0 :: rest) !! row = Some line ->
  (col < String.length line0)%nat ->
  String.get col line = Some "@"%char ->
  exists w,
    new_Level Math_random (line0 :: rest) initial = inr (tt, w)
    /\ well_formed w /\ has_player w.
Proof.
  intros Hrow Hcol Hget. unfold new_Level.
  destruct (build_grid_built Math_random (line0 :: rest) 0 (String.length line0)
              initial) as (acts & s1 & E1 & B).
  rewrite (run_bind_ok _ _ _ _ _ E1).
  destruct B as (added & extra & Ho & -> & Hv & F & Hl).
  assert (Hst : stored s1 (seq (length (objs initial)) (length added))).
  { apply Forall_forall. intros r Hr. apply elem_of_seq in Hr.
    apply lookup_lt_is_Some_2. rewrite Ho, length_app. lia. }
  rewrite (run_bind_ok _ _ _ _ _ (players_spec _ _ Hst)).
  rewrite run_modify. eexists. split; [reflexivity|]. split.
  - unfold well_formed. simpl. split_and!.
    + unfold ground_of. rewrite length_map. reflexivity.
    + exact Hst.
    + rewrite Ho. exact (spawned_fields Math_random _ _ _ F).
  - unfold has_player. cbn [level set_level player objs].
    rewrite (head_players Math_random (vecs s1) (objs s1) _ added _ F)
      by (intros i a Ha; rewrite Ho, lookup_app_plus; exact Ha).
    pose proof (at_in_cells (line0 :: rest) 0 (String.length line0) row col line
                  Hrow Hcol Hget) as Hin.
    destruct (list_find_elem_of (fun cell : nat * nat * ascii => cell.2 = "@"%char)
                _ _ Hin eq_refl) as [[i cell] Hfind].
    unfold first_player. rewrite Hfind. simpl. exists i. split; [reflexivity|].
    apply list_find_Some in Hfind as (Hi & _).
    apply lookup_lt_Some in Hi. rewrite (Forall2_length _ _ _ F) in Hi.
    apply lookup_lt_is_Some_2. rewrite Ho. simpl. exact Hi.
Qed.

Lemma cells_from_plan (lines : list string) (y0 w : nat)
    (cell : nat * nat * ascii) :
  cell ∈ actors_of lines y0 w ->
  exists line, line ∈ lines /\ String.get cell.1.1 line = Some cell.2.
Proof.
  unfold actors_of. intros H.
  apply list_elem_of_bind in H as ([y1 line] & H & Hz).
  apply list_elem_of_bind in H as (x0 & H & _).
  exists line. split; [exact (elem_of_zip_r _ _ _ _ Hz)|].
  unfold actor_at in H. destruct (String.get x0 line) as [ch|] eqn:Hget;
    [|inversion H].
  destruct (actorChars ch); [|inversion H].
  apply list_elem_of_singleton in H as ->. exact Hget.
Qed.

(** A level made from a plan without [@] is well formed and has no
    player. *)
Lemma new_Level_no_player
    (Math_random : nat -> num) (line0 : string) (rest : list string) :
  no_player_char (line0 :: rest) ->
  exists w,
    new_Level Math_random (line0 :: rest) initial = inr (tt, w)
    /\ well_formed w /\ player (level w) = None.
Proof.
  intros Hno. unfold new_Level.
  destruct (build_grid_built Math_random (line0 :: rest) 0 (String.length line0)
              initial) as (acts & s1 & E1 & B).
  rewrite (run_bind_ok _ _ _ _ _ E1).
  destruct B as (added & extra & Ho & -> & Hv & F & Hl).
  assert (Hst : stored s1 (seq (length (objs initial)) (length added))).
  { apply Forall_forall. intros r Hr. apply elem_of_seq in Hr.
    apply lookup_lt_is_Some_2. rewrite Ho, length_app. lia. }
  rewrite (run_bind_ok _ _ _ _ _ (players_spec _ _ Hst)).
  rewrite run_modify. eexists. split; [reflexivity|]. split.
  - unfold well_formed. simpl. split_and!.
    + unfold ground_of. rewrite length_map. reflexivity.
    + exact Hst.
    + rewrite Ho. exact (spawned_fields Math_random _ _ _ F).
  - cbn [level set_level player objs].
    rewrite (head_players Math_random (vecs s1) (objs s1) _ added _ F)
      by (intros i a Ha; rewrite Ho, lookup_app_plus; exact Ha).
    unfold first_player.
    destruct (list_find _ _) as [[i cell]|] eqn:Hfind; [|reflexivity].
    apply list_find_Some in Hfind as (Hi & Hat & _).
    apply list_elem_of_lookup_2 in Hi.
    apply cells_from_plan in Hi as (line & Hl' & Hget).
    rewrite Hat in Hget. destruct (Hno line _ Hl' Hget).
Qed.

Section Displays.

Variable Number_toString : num -> string.
Variables clientWidth clientHeight : num.
Variables constrain_left constrain_top : num -> num.

Local Abbreviation px := (px Number_toString).
Local Abbreviation drawBackground := (drawBackground Number_toString).
Local Abbreviation rect_of := (rect_of Number_toString).
Local Abbreviation drawActors_from := (drawActors_from Number_toString).
Local Abbreviation drawActors := (drawActors Number_toString).
Local Abbreviation scrollPlayerIntoView :=
  (scrollPlayerIntoView clientWidth clientHeight constrain_left constrain_top).
Local Abbreviation DOMDisplay_drawFrame :=
  (DOMDisplay_drawFrame Number_toString clientWidth clientHeight
     constrain_left constrain_top).
Local Abbreviation new_DOMDisplay :=
  (new_DOMDisplay Number_toString clientWidth clientHeight
     constrain_left constrain_top).
Local Abbreviation DOM_new :=
  (DOM_new Number_toString clientWidth clientHeight constrain_left constrain_top).
Local Abbreviation DOM_drawFrame :=
  (DOM_drawFrame Number_toString clientWidth clientHeight
     constrain_left constrain_top).
Local Abbreviation DOM_frames :=
  (DOM_frames Number_toString clientWidth clientHeight
     constrain_left constrain_top).
Local Abbreviation table_of := (table_of Number_toString).
Local Abbreviation row_of := (row_of Number_toString).
Local Abbreviation rect_at := (rect_at Number_toString).
Local Abbreviation shown_as := (shown_as Number_toString).

Lemma run_drawBackground (s : State) :
  drawBackground s = inr (table_of (level s), s).
Proof.
  unfold drawBackground. rewrite run_bind, run_gets, run_ret. f_equal. f_equal.
  cbv zeta.
  rewrite (foldl_appendChild
             (fun row =>
                foldl (fun rowElt type =>
                         appendChild (elt "td" (field_name <$> type)) rowElt)
                  (set_style "height" (px scale) (elt "tr" None)) row)).
  unfold table_of. simpl. f_equal. apply map_ext. intros row.
  rewrite (foldl_appendChild (fun type => elt "td" (field_name <$> type))).
  unfold row_of. simpl. f_equal. apply map_ext. intros type. apply elt_type.
Qed.

Lemma run_rect_of (s : State) (r : ref) (a : Actor) (pos size : Vector) :
  objs s !! r = Some a ->
  vecs s !! actor_pos a = Some pos -> vecs s !! actor_size a = Some size ->
  rect_of r s = inr (rect_at (actor_type a) pos size, s).
Proof.
  intros Ha Hp Hs. unfold rect_of.
  rewrite (run_bind_ok _ _ _ _ _ (run_this _ _ _ Ha)). cbv beta zeta.
  rewrite (run_bind_ok _ _ _ _ _ (run_read _ _ _ Hs)). cbv beta zeta.
  rewrite (run_bind_ok _ _ _ _ _ (run_read _ _ _ Hp)). cbv beta zeta.
  rewrite run_ret. destruct a; reflexivity.
Qed.

Lemma run_drawActors_from (s : State) (l : list ref) (e : Element) :
  well_formed s -> stored s l ->
  exists rects,
    drawActors_from l e s
    = inr (mkElement (tagName e) (className e) (style e) (children e ++ rects), s)
    /\ Forall2 (shown_as s) l rects.
Proof.
  intros Hwf Hst. revert e.
  induction Hst as [|r l [a Ha] _ IH]; intros e.
  - exists []. split; [|constructor].
    simpl. rewrite app_nil_r. destruct e; reflexivity.
  - destruct (well_formed_actor s r a Hwf Ha) as (pos & size & Hp & Hs).
    destruct (IH (appendChild (rect_at (actor_type a) pos size) e))
      as (rects & E & F).
    exists (rect_at (actor_type a) pos size :: rects). split.
    + simpl.
      rewrite (run_bind_ok _ _ _ _ _ (run_rect_of _ _ _ _ _ Ha Hp Hs)).
      rewrite E. simpl. rewrite <- app_assoc. reflexivity.
    + constructor; [|exact F]. exists a, pos, size. auto.
Qed.

Lemma run_drawActors (s : State) :
  well_formed s ->
  exists rects,
    drawActors s = inr (layer_of rects, s)
    /\ Forall2 (shown_as s) (actors (level s)) rects.
Proof.
  intros Hwf. unfold drawActors. rewrite run_bind, run_gets.
  destruct (run_drawActors_from s (actors (level s)) (elt "div" None) Hwf)
    as (rects & E & F); [apply Hwf|].
  exists rects. split; [exact E|exact F].
Qed.

Lemma run_scrollPlayerIntoView (s : State) (d : DOMDisplay) :
  well_formed s -> has_player s ->
  exists d',
    scrollPlayerIntoView d s = inr (d', s)
    /\ wrap d' = wrap d /\ attached d' = attached d
    /\ actorLayer d' = actorLayer d.
Proof.
  intros Hwf (r & Hr & [a Ha]).
  destruct (well_formed_actor s r a Hwf Ha) as (pos & size & Hp & Hs).
  unfold scrollPlayerIntoView. cbv zeta.
  rewrite run_bind, run_gets, Hr. cbn [lift].
  rewrite run_bind, run_ret.
  rewrite (run_bind_ok _ _ _ _ _ (run_this _ _ _ Ha)).
  rewrite (run_bind_ok _ _ _ _ _ (run_read _ _ _ Hp)).
  rewrite (run_bind_ok _ _ _ _ _ (run_read _ _ _ Hs)).
  rewrite run_ret. eexists. split; [reflexivity|].
  repeat match goal with
         | |- context [if ?b then _ else _] => destruct b
         end; auto.
Qed.

Lemma scrollPlayerIntoView_no_player (s : State) (d : DOMDisplay) :
  player (level s) = None -> scrollPlayerIntoView d s = inl TypeError.
Proof.
  intros Hp. unfold scrollPlayerIntoView. cbv zeta.
  rewrite run_bind, run_gets, Hp. reflexivity.
Qed.

(** [drawFrame] up to the call of [scrollPlayerIntoView]. *)
Lemma drawFrame_layers (s : State) (d : DOMDisplay) (background : Element) :
  well_formed s ->
  (actorLayer d = None /\ children (wrap d) = [background])
  \/ drawn background d ->
  exists rects,
    Forall2 (shown_as s) (actors (level s)) rects
    /\ DOMDisplay_drawFrame d s
       = scrollPlayerIntoView
           (mkDOMDisplay
              (mkElement (tagName (wrap d))
                 ("game " +:+ status_name (status (level s))) (style (wrap d))
                 [background; layer_of rects])
              (attached d) (Some 1%nat) (scrollLeft d) (scrollTop d)) s.
Proof.
  intros Hwf Hd.
  destruct (run_drawActors s Hwf) as (rects & E & F).
  exists rects. split; [exact F|].
  unfold DOMDisplay_drawFrame.
  destruct Hd as [[Hn Hc]|(Hn & old & Hc)]; rewrite Hn.
  - rewrite run_bind, run_ret, (run_bind_ok _ _ _ _ _ E). cbv zeta.
    rewrite run_bind, run_gets. unfold appendChild, set_className. simpl.
    rewrite Hc. reflexivity.
  - unfold removeChild. rewrite Hc. cbn [length bool_decide].
    rewrite bool_decide_eq_true_2 by lia. cbn [lift].
    rewrite run_bind, run_ret, (run_bind_ok _ _ _ _ _ E). cbv zeta.
    rewrite run_bind, run_gets. reflexivity.
Qed.

Lemma run_drawFrame (s : State) (d : DOMDisplay) (background : Element) :
  well_formed s -> has_player s ->
  (actorLayer d = None /\ children (wrap d) = [background])
  \/ drawn background d ->
  exists d' rects,
    DOMDisplay_drawFrame d s = inr (d', s)
    /\ wrap d'
       = mkElement (tagName (wrap d))
           ("game " +:+ status_name (status (level s))) (style (wrap d))
           [background; layer_of rects]
    /\ Forall2 (shown_as s) (actors (level s)) rects
    /\ attached d' = attached d /\ actorLayer d' = Some 1%nat.
Proof.
  intros Hwf Hp Hd.
  destruct (drawFrame_layers s d background Hwf Hd) as (rects & F & E).
  destruct (run_scrollPlayerIntoView s
              (mkDOMDisplay
                 (mkElement (tagName (wrap d))
                    ("game " +:+ status_name (status (level s))) (style (wrap d))
                    [background; layer_of rects])
                 (attached d) (Some 1%nat) (scrollLeft d) (scrollTop d)) Hwf Hp)
    as (d' & E' & Hw & Ha & Hl).
  exists d', rects. rewrite E. auto.
Qed.

Lemma run_new_DOMDisplay (s : State) :
  well_formed s -> has_player s ->
  exists d rects,
    new_DOMDisplay s = inr (d, s)
    /\ wrap d
       = mkElement "div" ("game " +:+ status_name (status (level s))) []
           [table_of (level s); layer_of rects]
    /\ Forall2 (shown_as s) (actors (level s)) rects
    /\ attached d = true /\ actorLayer d = Some 1%nat.
Proof.
  intros Hwf Hp. unfold new_DOMDisplay. cbv zeta.
  rewrite (run_bind_ok _ _ _ _ _ (run_drawBackground s)).
  destruct (run_drawFrame s
              (mkDOMDisplay (appendChild (table_of (level s)) (elt "div" (Some "game")))
                 true None zero zero) (table_of (level s)) Hwf Hp)
    as (d & rects & E & Hw & F & Ha & Hl); [left; auto|].
  exists d, rects. auto.
Qed.

(** What [drawFrame] leaves of a display that shows [w]. *)
Lemma frames_shape (background : Element) (ws : list State) (w : State)
    (d : DOMDisplay) :
  Forall (fun w => well_formed w /\ has_player w) ws ->
  (exists rects,
     wrap d = mkElement "div" ("game " +:+ status_name (status (level w))) []
                [background; layer_of rects]
     /\ Forall2 (shown_as w) (actors (level w)) rects
     /\ attached d = true /\ actorLayer d = Some 1%nat) ->
  exists d' rects,
    DOM_frames ws d = inr d'
    /\ wrap d'
       = mkElement "div"
           ("game " +:+ status_name (status (level (default w (last ws))))) []
           [background; layer_of rects]
    /\ Forall2 (shown_as (default w (last ws)))
         (actors (level (default w (last ws)))) rects
    /\ attached d' = true /\ actorLayer d' = Some 1%nat.
Proof.
  intros Hws. revert w d.
  induction Hws as [|w1 ws [Hwf Hp] _ IH]; intros w d Hd.
  - destruct Hd as (rects & Hd). exists d, rects. split; [reflexivity|exact Hd].
  - destruct Hd as (rects & Hw & _ & Ha & Hl).
    destruct (run_drawFrame w1 d background Hwf Hp)
      as (d1 & rects1 & E & Hw1 & F1 & Ha1 & Hl1).
    { right. split; [exact Hl|]. rewrite Hw. eauto. }
    destruct (IH w1 d1) as (d' & rects' & E' & H').
    { exists rects1. rewrite Hw1, Hw, Ha1. auto. }
    exists d', rects'.
    assert (Hlast : default w (last (w1 :: ws)) = default w1 (last ws)).
    { rewrite last_cons. destruct (last ws); reflexivity. }
    rewrite Hlast. split; [|exact H'].
    change (DOM_frames (w1 :: ws) d)
      with (match DOM_drawFrame zero w1 d with
            | inl e => inl e
            | inr d' => DOM_frames ws d'
            end).
    unfold DOM_drawFrame, shows. rewrite E. exact E'.
Qed.

(** The display keeps one actor layer.  The constructor puts two
    children in [wrap]: the table of the background, with a row for
    every row of the grid and a cell of the class of every square, and
    a layer with one element for every actor of the list of the level,
    in order, at its position and of its size, times [scale].  However
    many times [drawFrame] is called after that, for a level that is
    well formed and has its player, it returns, and [wrap] has the same
    table, which is not drawn again, and one layer, for the actors that
    the level has then; the class of [wrap] tells the status. *)
Theorem drawFrame_replaces_the_actor_layer (w0 : State) (ws : list State) :
  Forall (fun w => well_formed w /\ has_player w) (w0 :: ws) ->
  exists d0 d rects,
    DOM_new w0 = inr d0
    /\ DOM_frames ws d0 = inr d
    /\ wrap d
       = mkElement "div"
           ("game " +:+ status_name (status (level (default w0 (last ws))))) []
           [table_of (level w0); layer_of rects]
    /\ Forall2 (shown_as (default w0 (last ws)))
         (actors (level (default w0 (last ws)))) rects
    /\ attached d = true /\ actorLayer d = Some 1%nat.
Proof.
  intros Hws. apply Forall_cons in Hws as [[Hwf Hp] Hws].
  destruct (run_new_DOMDisplay w0 Hwf Hp) as (d0 & rects0 & E0 & H0).
  destruct (frames_shape (table_of (level w0)) ws w0 d0 Hws) as (d & rects & E & H).
  { exists rects0. exact H0. }
  exists d0, d, rects. split; [|split; [exact E|exact H]].
  unfold DOM_new, shows. rewrite E0. reflexivity.
Qed.

Lemma no_player_no_display (s : State) :
  well_formed s -> player (level s) = None ->
  new_DOMDisplay s = inl TypeError
  /\ runLevel DOMDisplay DOM_new s = inl TypeError
  /\ forall background d, drawn background d ->
       DOMDisplay_drawFrame d s = inl TypeError.
Proof.
  intros Hwf Hp.
  assert (Hnew : new_DOMDisplay s = inl TypeError).
  { unfold new_DOMDisplay. cbv zeta.
    rewrite (run_bind_ok _ _ _ _ _ (run_drawBackground s)).
    destruct (drawFrame_layers s
                (mkDOMDisplay
                   (appendChild (table_of (level s)) (elt "div" (Some "game")))
                   true None zero zero) (table_of (level s)) Hwf)
      as (rects & _ & E); [left; auto|].
    rewrite E. apply scrollPlayerIntoView_no_player, Hp. }
  split_and!.
  - exact Hnew.
  - unfold runLevel, DOM_new, shows. rewrite Hnew. reflexivity.
  - intros background d Hd.
    destruct (drawFrame_layers s d background Hwf) as (rects & _ & E);
      [right; exact Hd|].
    rewrite E. apply scrollPlayerIntoView_no_player, Hp.
Qed.

Lemma DOM_drawFrame_on_page (step : num) (w : State) (d : DOMDisplay) :
  well_formed w -> has_player w -> on_page d ->
  exists d', DOM_drawFrame step w d = inr d' /\ on_page d'.
Proof.
  intros Hwf Hp (Ha & background & Hd).
  destruct (run_drawFrame w d background Hwf Hp)
    as (d' & rects & E & Hw & _ & Ha' & Hl); [right; exact Hd|].
  exists d'. split; [unfold DOM_drawFrame, shows; rewrite E; reflexivity|].
  split; [congruence|]. exists background. split; [exact Hl|].
  rewrite Hw. eauto.
Qed.

Lemma DOMDisplay_clear_on_page (d : DOMDisplay) :
  on_page d -> exists d', DOMDisplay_clear d = inr d'.
Proof. intros (Ha & _). unfold DOMDisplay_clear. rewrite Ha. eauto. Qed.

Lemma DOM_game_runs
    (Math_sin : num -> num) (w : State) (inputs : list Input) :
  well_formed w -> has_player w -> Forall timed inputs ->
  exists ss0 ss,
    runLevel DOMDisplay DOM_new w = inr ss0
    /\ browse Math_sin DOMDisplay DOM_drawFrame DOMDisplay_clear 2 inputs ss0
       = inr ss
    /\ well_formed (world ss) /\ has_player (world ss)
    /\ (escListener ss = true -> on_page (display ss)).
Proof.
  intros Hwf Hp Ht.
  destruct (run_new_DOMDisplay w Hwf Hp) as (d0 & rects & E0 & Hw0 & _ & Ha0 & Hl0).
  set (ss0 := mkSession yes [None] true true trackKeys w d0 []).
  assert (Hs : sound on_page ss0).
  { unfold sound. simpl. split_and!; auto.
    - repeat constructor.
    - intros _. split; [exact Ha0|]. exists (table_of (level w)).
      split; [exact Hl0|]. rewrite Hw0. eauto. }
  destruct (browse_sound Math_sin DOMDisplay DOM_drawFrame DOMDisplay_clear
              on_page DOM_drawFrame_on_page DOMDisplay_clear_on_page
              inputs ss0 Hs Ht) as (ss & E & Hwf' & Hp' & _ & _ & _ & HJ).
  exists ss0, ss. split_and!; try assumption.
  unfold runLevel, DOM_new, shows. rewrite E0. reflexivity.
Qed.

(** A level without a player cannot be shown.  For a plan without any
    [@], [new Level] returns a level, but the constructor of the
    display, and so [runLevel], raises a [TypeError] for it, and so
    would [drawFrame] on any display. *)
Theorem DOMDisplay_needs_a_player
    (Math_random : nat -> num) (line0 : string) (rest : list string) :
  no_player_char (line0 :: rest) ->
  exists w,
    new_Level Math_random (line0 :: rest) initial = inr (tt, w)
    /\ new_DOMDisplay w = inl TypeError
    /\ runLevel DOMDisplay DOM_new w = inl TypeError
    /\ forall background d, drawn background d ->
         DOMDisplay_drawFrame d w = inl TypeError.
Proof.
  intros Hno.
  destruct (new_Level_no_player Math_random line0 rest Hno) as (w & E & Hwf & Hp).
  exists w. split; [exact E|]. exact (no_player_no_display w Hwf Hp).
Qed.


End Displays.

Lemma standing_on_floor_runs :
  well_formed standing_on_floor /\ has_player standing_on_floor.
Proof.
  split.
  - split_and!; [reflexivity| |]; repeat constructor; try (eexists; reflexivity).
  - exists 0%nat. split; [reflexivity|]. eexists. reflexivity.
Defined.

Lemma drawFrame_replaces_the_actor_layer_witness :
  exists d0 d,
    DOM_new (fun _ => "0") (of_Z 600) (of_Z 400) (fun a => a) (fun a => a)
      standing_on_floor = inr d0
    /\ DOM_frames (fun _ => "0") (of_Z 600) (of_Z 400) (fun a => a) (fun a => a)
         [standing_on_floor; standing_on_floor] d0 = inr d
    /\ length (children (wrap d)) = 2%nat.
Proof.
  destruct (drawFrame_replaces_the_actor_layer (fun _ => "0") (of_Z 600)
              (of_Z 400) (fun a => a) (fun a => a) standing_on_floor
              [standing_on_floor; standing_on_floor])
    as (d0 & d & rects & E0 & E & Hw & _).
  - repeat (apply Forall_cons_2; [exact standing_on_floor_runs|]). apply Forall_nil_2.
  - exists d0, d. rewrite Hw. auto.
Defined.

Lemma DOMDisplay_needs_a_player_witness :
  exists w,
    new_Level (fun _ => zero) ["x o x"; "xxxxx"] initial = inr (tt, w)
    /\ runLevel DOMDisplay
         (DOM_new (fun _ => "0") (of_Z 600) (of_Z 400) (fun a => a) (fun a => a))
         w = inl TypeError.
Proof.
  destruct (DOMDisplay_needs_a_player (fun _ => "0") (of_Z 600) (of_Z 400)
              (fun a => a) (fun a => a) (fun _ => zero) "x o x" ["xxxxx"])
    as (w & E & _ & Hrun & _).
  - intros line i Hl.
    apply elem_of_cons in Hl as [->|Hl];
      [|apply list_elem_of_singleton in Hl as ->];
      do 6 (destruct i as [|i]; [discriminate|]); discriminate.
  - exists w. auto.
Defined.

